(** * Memory-Retention Learning System: the memory-decay scheduler of main.cpp

    A shallow embedding of the three classes of [src/main.cpp]
    ([Concept], [MinHeap], [MemoryGraph]) and of its main program
    ([processCommand], [main]), the properties of the specification that are
    stated about them, and further properties read off the code.

    Modelling conventions.
    - [double] is Rocq's primitive binary64 [float]; [+], [*], [<] are the
      IEEE operations the compiled program performs.  [std::exp] is not
      available in Rocq and is a parameter [exp : float -> float] of every
      definition that calls it.
    - [int] is [Z] with the 32-bit two's complement wrap-around written out
      ([Int32.wrap]); indices into the heap vector are [nat].
    - [std::unordered_map<std::string, Concept*>] is a [gmap string Concept.t]:
      every pointer comes from its own [new] and is reachable only through the
      map, so the pointee is the map's value.  The order in which a range-for
      visits the map is unspecified; it is the parameter [traversal], only
      assumed to enumerate the keys once each.
    - a C++ exception is the [Thrown] outcome, returned next to the state the
      object is left in.
    - [std::sort], the formatting of numbers by [operator<<] and the
      conversions [std::stoi] and [std::stod] are the library's: they are
      parameters of the definitions that call them.  A text is a [string];
      [std::cin] and [std::istringstream] are the characters still to read
      with the state bits [std::getline] tests and sets ([IStream]), and
      [std::cout] is the text written. *)

From Stdlib Require Import ZArith Floats Lia Ascii.
From stdpp Require Import gmap strings list fin_maps sorting pretty.

#[local] Set Warnings "-inexact-float".

(** ** Outcomes of calls that may throw *)

Inductive outcome (A : Type) : Type :=
  | Returned (a : A)
  | Thrown (what : string).
Arguments Returned {A} a.
Arguments Thrown {A} what.

(** ** Characters of the text the program writes *)

Module Text.

(** The double-quote character, written as an escape in the C++ literals, and
    the newline [std::endl] writes. *)
Definition quote : string := String "034"%char EmptyString.
Definition newline : ascii := "010"%char.
Definition endl : string := String newline EmptyString.

(** The text [s] between two double-quote characters. *)
Definition quoted (s : string) : string := quote +:+ s +:+ quote.

End Text.

(** ** [double] *)

Module Double.

Definition lt (a b : float) : bool := PrimFloat.ltb a b.
Definition gt (a b : float) : bool := PrimFloat.ltb b a.
Definition le (a b : float) : bool := PrimFloat.leb a b.

(** [std::min(a, b)] is [(b < a) ? b : a]. *)
Definition min (a b : float) : float := if lt b a then b else a.

Definition not_nan (a : float) : Prop := PrimFloat.is_nan a = false.

(** What it means for [r] to be [x] clamped to the closed interval
    [[lo, hi]]: the nearer bound when [x] is outside, [x] itself when it is
    inside, and in any case a member of the interval when [x] is a number. *)
Definition clamped (lo hi x r : float) : Prop :=
  (lt x lo = true → r = lo) ∧
  (lt hi x = true → r = hi) ∧
  (le lo x = true → le x hi = true → r = x) ∧
  (not_nan x → le lo r = true ∧ le r hi = true).

End Double.

(** ** [int] *)

Module Int32.

Definition wrap (z : Z) : Z := ((z + 2 ^ 31) mod 2 ^ 32 - 2 ^ 31)%Z.
Definition add (a b : Z) : Z := wrap (a + b).
Definition sub (a b : Z) : Z := wrap (a - b).
Definition in_range (z : Z) : Prop := (- 2 ^ 31 <= z < 2 ^ 31)%Z.

(** The conversion [int -> double] of a mixed product; it is exact. *)
Definition to_double (z : Z) : float :=
  if (z <? 0)%Z then PrimFloat.opp (PrimFloat.of_uint63 (Uint63.of_Z (- z)))
  else PrimFloat.of_uint63 (Uint63.of_Z z).

End Int32.

(** ** DATA STRUCTURE 1: Concept *)

Module Concept.

Record t : Type := mk {
  name : string;
  id : string;
  category : string;
  initial_weight : float;
  memory_strength : float;
  last_revised_day : Z;
  prerequisites : list string
}.

(** The constructor: [memory_strength(initial_weight)]. *)
Definition new (name id category : string) (initial_weight : float)
    (last_revised_day : Z) (prereqs : list string) : t :=
  {| name := name; id := id; category := category;
     initial_weight := initial_weight; memory_strength := initial_weight;
     last_revised_day := last_revised_day; prerequisites := prereqs |}.

Section WithExp.
Variable exp : float -> float.

(** The decayed value before it is clamped. *)
Definition decay (c : t) (current_day : Z) (lambda : float) : float :=
  let days_since_revision := Int32.sub current_day (last_revised_day c) in
  (initial_weight c * exp (- lambda * Int32.to_double days_since_revision))%float.

(** [return (decay < 0.1) ? 0.1 : (decay > 1.0) ? 1.0 : decay;] *)
Definition calculateMemory (c : t) (current_day : Z) (lambda : float) : float :=
  let decay := decay c current_day lambda in
  if Double.lt decay 0.1 then 0.1%float
  else if Double.gt decay 1.0 then 1.0%float
  else decay.

Definition updateMemoryStrength (c : t) (current_day : Z) (lambda : float) : t :=
  {| name := name c; id := id c; category := category c;
     initial_weight := initial_weight c;
     memory_strength := calculateMemory c current_day lambda;
     last_revised_day := last_revised_day c;
     prerequisites := prerequisites c |}.

End WithExp.

Definition revise (c : t) (current_day : Z) (boost : float) : t :=
  let memory_strength := Double.min 1.0 (memory_strength c + boost) in
  {| name := name c; id := id c; category := category c;
     initial_weight := memory_strength;
     memory_strength := memory_strength;
     last_revised_day := current_day;
     prerequisites := prerequisites c |}.

(** The neighbour boost of [MemoryGraph::reviseConcept]:
    [other->memory_strength = std::min(1.0, other->memory_strength + 0.1);
     other->initial_weight = other->memory_strength;] *)
Definition boostConnected (c : t) : t :=
  let memory_strength := Double.min 1.0 (memory_strength c + 0.1) in
  {| name := name c; id := id c; category := category c;
     initial_weight := memory_strength;
     memory_strength := memory_strength;
     last_revised_day := last_revised_day c;
     prerequisites := prerequisites c |}.

Section WithStream.

(** [oss << x] of the iostream library: for a [double] under
    [std::fixed << std::setprecision(2)], and for an [int].  The decimal
    formatting is the library's and is a parameter. *)
Variable fixed2 : float → string.
Variable show_int : Z → string.

(** The loop over [prerequisites]: each one between quotes, and a comma after
    every one but the last ([i < prerequisites.size() - 1]). *)
Fixpoint prerequisites_toJSON (prereqs : list string) : string :=
  match prereqs with
  | [] => ""
  | prereq :: rest =>
      Text.quoted prereq
      +:+ (match rest with [] => "" | _ :: _ => "," end)
      +:+ prerequisites_toJSON rest
  end.

Definition toJSON (c : t) : string :=
  "{" +:+ Text.quoted "name" +:+ ":" +:+ Text.quoted (name c) +:+ ","
  +:+ Text.quoted "id" +:+ ":" +:+ Text.quoted (id c) +:+ ","
  +:+ Text.quoted "category" +:+ ":" +:+ Text.quoted (category c) +:+ ","
  +:+ Text.quoted "initial_weight" +:+ ":" +:+ fixed2 (initial_weight c) +:+ ","
  +:+ Text.quoted "memory_strength" +:+ ":" +:+ fixed2 (memory_strength c) +:+ ","
  +:+ Text.quoted "last_revised_day" +:+ ":" +:+ show_int (last_revised_day c) +:+ ","
  +:+ Text.quoted "prerequisites" +:+ ":[" +:+ prerequisites_toJSON (prerequisites c)
  +:+ "]}".

End WithStream.

End Concept.

(** ** DATA STRUCTURE 2: MinHeap *)

Module MinHeap.

Record HeapNode : Type := mkHeapNode {
  concept_id : string;
  memory_strength : float
}.

(** The private vector [heap]. *)
Abbreviation t := (list HeapNode).

(** [heap[i].memory_strength < heap[j].memory_strength].  The source reads the
    vector unchecked; every index it reads is below [heap.size()] (see
    [heapifyUp], [heapifyDown]), and out of range the model answers [false]. *)
Definition less (heap : t) (i j : nat) : bool :=
  match heap !! i, heap !! j with
  | Some a, Some b => Double.lt (memory_strength a) (memory_strength b)
  | _, _ => false
  end.

(** [std::swap(heap[i], heap[j])] *)
Definition swap (heap : t) (i j : nat) : t :=
  match heap !! i, heap !! j with
  | Some a, Some b => <[j := a]> (<[i := b]> heap)
  | _, _ => heap
  end.

(** The loop of [heapifyUp]; [fuel] bounds the iterations, and [index]
    iterations are enough because the index halves ([heapifyUp_loop_fuel]). *)
Fixpoint heapifyUp_loop (fuel : nat) (heap : t) (index : nat) : t :=
  match fuel with
  | O => heap
  | S fuel' =>
      if (0 <? index)%nat && less heap index ((index - 1) / 2)
      then heapifyUp_loop fuel' (swap heap ((index - 1) / 2) index) ((index - 1) / 2)
      else heap
  end.

Definition heapifyUp (heap : t) (index : nat) : t :=
  heapifyUp_loop index heap index.

(** The index [heapifyDown] swaps with. *)
Definition minChild (heap : t) (index : nat) : nat :=
  let minIndex := index in
  let left := (2 * index + 1)%nat in
  let right := (2 * index + 2)%nat in
  let minIndex :=
    if (left <? length heap)%nat && less heap left minIndex then left else minIndex in
  let minIndex :=
    if (right <? length heap)%nat && less heap right minIndex then right else minIndex in
  minIndex.

(** The recursion of [heapifyDown]; [heap.size() - index] calls are enough
    because the index grows ([heapifyDown_rec_fuel]). *)
Fixpoint heapifyDown_rec (fuel : nat) (heap : t) (index : nat) : t :=
  match fuel with
  | O => heap
  | S fuel' =>
      let minIndex := minChild heap index in
      if (minIndex =? index)%nat then heap
      else heapifyDown_rec fuel' (swap heap index minIndex) minIndex
  end.

Definition heapifyDown (heap : t) (index : nat) : t :=
  heapifyDown_rec (length heap - index) heap index.

Definition insert (heap : t) (concept_id : string) (memory_strength : float) : t :=
  let heap := heap ++ [mkHeapNode concept_id memory_strength] in
  heapifyUp heap (length heap - 1).

Definition extractMin (heap : t) : t * outcome string :=
  match heap !! 0%nat, last heap with
  | Some root, Some back =>
      let min_id := concept_id root in
      let heap := <[0%nat := back]> heap in
      let heap := removelast heap in
      (match heap with [] => heap | _ :: _ => heapifyDown heap 0 end,
       Returned min_id)
  | _, _ => (heap, Thrown "Heap is empty")
  end.

Definition peekMin (heap : t) : outcome string :=
  match heap !! 0%nat with
  | Some root => Returned (concept_id root)
  | None => Thrown "Heap is empty"
  end.

Definition isEmpty (heap : t) : bool :=
  match heap with [] => true | _ :: _ => false end.

Definition size (heap : t) : nat := length heap.

(** The scan of [updateKey] stops at the first entry of that id. *)
Definition updateKey (heap : t) (id : string) (new_strength : float) : t :=
  match list_find (λ n, concept_id n = id) heap with
  | Some (i, n) =>
      let old_strength := memory_strength n in
      let heap := <[i := mkHeapNode (concept_id n) new_strength]> heap in
      if Double.lt new_strength old_strength then heapifyUp heap i
      else heapifyDown heap i
  | None => heap
  end.

(** [for (int i = heap.size() / 2 - 1; i >= 0; i--) heapifyDown(i);]
    started with [k = heap.size() / 2]. *)
Fixpoint rebuild_loop (k : nat) (heap : t) : t :=
  match k with
  | O => heap
  | S i => rebuild_loop i (heapifyDown heap i)
  end.

Definition rebuild (heap : t) (data : list (string * float)) : t :=
  let heap : t := [] in
  let heap := foldl (λ h item, h ++ [mkHeapNode item.1 item.2]) heap data in
  rebuild_loop (length heap / 2) heap.

Definition clear (heap : t) : t := [].

(** The min-heap property of the backing array. *)
Definition is_heap (heap : t) : Prop :=
  ∀ i p c, (0 < i)%nat →
    heap !! ((i - 1) / 2)%nat = Some p → heap !! i = Some c →
    Double.le (memory_strength p) (memory_strength c) = true.

Definition no_nan (heap : t) : Prop :=
  Forall (λ n, Double.not_nan (memory_strength n)) heap.

(** Auxiliary notions for the proofs: the order on nodes, the parent-child
    relation on indices without division, and the heap property with one
    index excepted, as it holds while [heapifyUp] (resp. [heapifyDown]) runs. *)
Definition node_le (a b : HeapNode) : Prop :=
  Double.le (memory_strength a) (memory_strength b) = true.

Definition child_of (q j : nat) : Prop := j = 2 * q + 1 ∨ j = 2 * q + 2.

Definition heap_from (k : nat) (heap : t) : Prop :=
  ∀ q j p c, child_of q j → k ≤ q →
    heap !! q = Some p → heap !! j = Some c → node_le p c.

Definition up_inv (heap : t) (i : nat) : Prop :=
  (∀ q j p c, child_of q j → j ≠ i →
     heap !! q = Some p → heap !! j = Some c → node_le p c) ∧
  (∀ g j p c, child_of g i → child_of i j →
     heap !! g = Some p → heap !! j = Some c → node_le p c).

Definition down_inv (k : nat) (heap : t) (i : nat) : Prop :=
  (∀ q j p c, child_of q j → k ≤ q → q ≠ i →
     heap !! q = Some p → heap !! j = Some c → node_le p c) ∧
  (∀ g j p c, child_of g i → k ≤ g → child_of i j →
     heap !! g = Some p → heap !! j = Some c → node_le p c).

(** [HeapNode(item.first, item.second)] *)
Definition node_of (item : string * float) : HeapNode := mkHeapNode item.1 item.2.

End MinHeap.

(** ** DATA STRUCTURE 3: MemoryGraph *)

Module MemoryGraph.

Record t : Type := mk {
  concepts : gmap string Concept.t;
  graph : gmap string (list string);
  priority_queue : MinHeap.t;
  current_day : Z;
  lambda : float;
  total_revisions : Z
}.

(** [for (const auto& prereq : l) if (prereq == x) { found = true; break; }] *)
Fixpoint lists (l : list string) (x : string) : bool :=
  match l with
  | [] => false
  | prereq :: l' => if String.eqb prereq x then true else lists l' x
  end.

(** The body of the scan of [reviseConcept]: [is_connected] for [other],
    with [concept] the revised concept. *)
Definition is_connected (concept_id : string) (concept other : Concept.t) : bool :=
  let is_connected := lists (Concept.prerequisites other) concept_id in
  if negb is_connected
  then lists (Concept.prerequisites concept) (Concept.id other)
  else is_connected.

(** The constructor [MemoryGraph(double decay_rate = 0.15)]. *)
Definition new (decay_rate : float) : t :=
  {| concepts := ∅; graph := ∅; priority_queue := [];
     current_day := 0; lambda := decay_rate; total_revisions := 0 |}.

Definition insertConcept (g : t) (name id category : string)
    (initial_weight : float) (prerequisites : list string) : t :=
  let new_concept :=
    Concept.new name id category initial_weight (current_day g) prerequisites in
  {| concepts := <[id := new_concept]> (concepts g);
     graph := <[id := prerequisites]> (graph g);
     priority_queue := MinHeap.insert (priority_queue g) id initial_weight;
     current_day := current_day g; lambda := lambda g;
     total_revisions := total_revisions g |}.

Definition getNextRevisionRecommendation (g : t) : outcome string :=
  if MinHeap.isEmpty (priority_queue g) then Returned ""%string
  else MinHeap.peekMin (priority_queue g).

Definition setDecayRate (g : t) (rate : float) : t :=
  {| concepts := concepts g; graph := graph g;
     priority_queue := priority_queue g; current_day := current_day g;
     lambda := rate; total_revisions := total_revisions g |}.

Definition getCurrentDay (g : t) : Z := current_day g.
Definition getTotalRevisions (g : t) : Z := total_revisions g.
Definition getTotalConcepts (g : t) : nat := size (concepts g).
Definition getConcept (g : t) (id : string) : option Concept.t := concepts g !! id.

Section Traversal.

(** The order in which [for (auto& pair : concepts)] visits the keys.  The
    theorems assume of it only that it lists the keys of the map, each once:
    [traversal m ≡ₚ (map_to_list m).*1]. *)
Variable traversal : gmap string Concept.t → list string.

(** One step of the scan of [reviseConcept] at the key [k]: [pair.second] and
    [concept] are pointers, so both are read from the store as it is now. *)
Definition boost_step (concept_id : string)
    (st : gmap string Concept.t * MinHeap.t) (k : string)
    : gmap string Concept.t * MinHeap.t :=
  match st.1 !! k, st.1 !! concept_id with
  | Some other, Some concept =>
      if is_connected concept_id concept other then
        let other := Concept.boostConnected other in
        (<[k := other]> st.1,
         MinHeap.updateKey st.2 (Concept.id other) (Concept.memory_strength other))
      else st
  | _, _ => st
  end.

Definition reviseConcept (g : t) (concept_id : string) (boost : float)
    : t * outcome unit :=
  match concepts g !! concept_id with
  | None => (g, Thrown ("Concept not found: " +:+ concept_id))
  | Some concept =>
      let concept := Concept.revise concept (current_day g) boost in
      let cs := <[concept_id := concept]> (concepts g) in
      let pq :=
        MinHeap.updateKey (priority_queue g) concept_id
          (Concept.memory_strength concept) in
      let st := foldl (boost_step concept_id) (cs, pq) (traversal cs) in
      ({| concepts := st.1; graph := graph g; priority_queue := st.2;
          current_day := current_day g; lambda := lambda g;
          total_revisions := Int32.add (total_revisions g) 1 |},
       Returned ())
  end.

Variable exp : float → float.

(** [data.push_back({pair.first, pair.second->memory_strength})] *)
Definition queue_data (cs : gmap string Concept.t) : list (string * float) :=
  omap (λ k, (λ c, (k, Concept.memory_strength c)) <$> cs !! k) (traversal cs).

Definition rebuildPriorityQueue (g : t) : t :=
  {| concepts := concepts g; graph := graph g;
     priority_queue := MinHeap.rebuild (priority_queue g) (queue_data (concepts g));
     current_day := current_day g; lambda := lambda g;
     total_revisions := total_revisions g |}.

Definition updateMemoryStrengths (g : t) : t :=
  let cs :=
    foldl (λ cs k,
             alter (λ c, Concept.updateMemoryStrength exp c (current_day g) (lambda g))
               k cs)
          (concepts g) (traversal (concepts g)) in
  rebuildPriorityQueue
    {| concepts := cs; graph := graph g; priority_queue := priority_queue g;
       current_day := current_day g; lambda := lambda g;
       total_revisions := total_revisions g |}.

Definition simulateTimePassage (g : t) (days : Z) : t :=
  updateMemoryStrengths
    {| concepts := concepts g; graph := graph g;
       priority_queue := priority_queue g;
       current_day := Int32.add (current_day g) days; lambda := lambda g;
       total_revisions := total_revisions g |}.

(** The public operations that change the graph, and runs of them from the
    constructor. *)
Inductive op : Type :=
  | InsertConcept (name id category : string) (initial_weight : float)
      (prerequisites : list string)
  | UpdateMemoryStrengths
  | ReviseConcept (concept_id : string) (boost : float)
  | SimulateTimePassage (days : Z)
  | SetDecayRate (rate : float).

Definition step (g : t) (o : op) : t :=
  match o with
  | InsertConcept name id category w prereqs =>
      insertConcept g name id category w prereqs
  | UpdateMemoryStrengths => updateMemoryStrengths g
  | ReviseConcept concept_id boost => (reviseConcept g concept_id boost).1
  | SimulateTimePassage days => simulateTimePassage g days
  | SetDecayRate rate => setDecayRate g rate
  end.

Definition run (decay_rate : float) (ops : list op) : t :=
  foldl step (new decay_rate) ops.

Definition reachable (g : t) : Prop := ∃ decay_rate ops, g = run decay_rate ops.

(** An operation that keeps the queue in order: an insertion under a fresh id
    with a weight that is a number, and a refresh whose decayed strengths are
    numbers. *)
Definition admissible (g : t) (o : op) : Prop :=
  match o with
  | InsertConcept _ id _ initial_weight _ =>
      concepts g !! id = None ∧ Double.not_nan initial_weight
  | UpdateMemoryStrengths =>
      map_Forall (λ _ c, Double.not_nan
                           (Concept.calculateMemory exp c (current_day g) (lambda g)))
        (concepts g)
  | SimulateTimePassage days =>
      map_Forall (λ _ c, Double.not_nan
                           (Concept.calculateMemory exp c
                              (Int32.add (current_day g) days) (lambda g)))
        (concepts g)
  | ReviseConcept _ _ | SetDecayRate _ => True
  end.

Fixpoint admissible_run (g : t) (ops : list op) : Prop :=
  match ops with
  | [] => True
  | o :: ops' => admissible g o ∧ admissible_run (step g o) ops'
  end.

(** [std::sort(sorted_concepts.begin(), sorted_concepts.end(), comp)] with
    [comp a b = a.second < b.second].  The algorithm is the library's and is
    not stable; the theorems assume of it what the standard promises: the
    result is a permutation of the input in which no element is followed by
    one that [comp] puts before it. *)
Variable sort : list (string * float) → list (string * float).

(** The vector [sorted_concepts] is filled by the loop of
    [rebuildPriorityQueue]; the last loop copies the ids at the indices below
    [limit]. *)
Definition getTopRevisionRecommendations (g : t) (count : Z) : list string :=
  let sorted_concepts := sort (queue_data (concepts g)) in
  let limit := Z.min count (Int32.wrap (Z.of_nat (length sorted_concepts))) in
  (take (Z.to_nat limit) sorted_concepts).*1.

(** [concepts.size()] converted to [double] for the division. *)
Definition size_to_double (n : nat) : float :=
  PrimFloat.of_uint63 (Uint63.of_Z (Z.of_nat n)).

Definition getAverageMemoryStrength (g : t) : float :=
  if (size (concepts g) =? 0)%nat then 0.0%float
  else
    let sum :=
      foldl (λ sum k,
               match concepts g !! k with
               | Some c => (sum + Concept.memory_strength c)%float
               | None => sum
               end)
            0.0%float (traversal (concepts g)) in
    (sum / size_to_double (size (concepts g)))%float.

Definition getUrgentCount (g : t) : Z :=
  foldl (λ count k,
           match concepts g !! k with
           | Some c =>
               if Double.lt (Concept.memory_strength c) 0.3
               then Int32.add count 1 else count
           | None => count
           end)
        0%Z (traversal (concepts g)).

Definition getAllConcepts (g : t) : list Concept.t :=
  omap (λ k, concepts g !! k) (traversal (concepts g)).

(** The formatting of numbers by [oss << x], as in [Concept.toJSON]. *)
Variable fixed2 : float → string.
Variable show_int : Z → string.

(** The body of the loop of [toJSON] at the key [k]: the state is the text
    written so far and the flag [first]. *)
Definition toJSON_step (cs : gmap string Concept.t) (st : string * bool) (k : string)
    : string * bool :=
  match cs !! k with
  | Some c =>
      ((st.1 +:+ (if st.2 then "" else ",")) +:+ Concept.toJSON fixed2 show_int c,
       false)
  | None => st
  end.

Definition toJSON (g : t) : string :=
  let st :=
    foldl (toJSON_step (concepts g)) ("["%string, true) (traversal (concepts g)) in
  st.1 +:+ "]".

(** [getTotalConcepts()] returns [concepts.size()] as an [int]. *)
Definition getStatsJSON (g : t) : string :=
  "{" +:+ Text.quoted "totalConcepts" +:+ ":"
  +:+ show_int (Int32.wrap (Z.of_nat (getTotalConcepts g))) +:+ ","
  +:+ Text.quoted "avgMemory" +:+ ":"
  +:+ fixed2 (getAverageMemoryStrength g * 100)%float +:+ ","
  +:+ Text.quoted "urgentCount" +:+ ":" +:+ show_int (getUrgentCount g) +:+ ","
  +:+ Text.quoted "totalRevisions" +:+ ":" +:+ show_int (total_revisions g) +:+ ","
  +:+ Text.quoted "currentDay" +:+ ":" +:+ show_int (current_day g)
  +:+ "}".

(** The body of the loop of [getRevisionQueueJSON] at the index [item.1],
    where [recommendations[i]] is [item.2] and [size] is
    [recommendations.size()]: a concept that is found is written, followed by
    a comma unless the index is the last one. *)
Definition getRevisionQueueJSON_step (g : t) (size : nat) (oss : string)
    (item : nat * string) : string :=
  match getConcept g item.2 with
  | Some c =>
      (oss +:+ Concept.toJSON fixed2 show_int c)
        +:+ (if (item.1 <? size - 1)%nat then "," else "")
  | None => oss
  end.

Definition getRevisionQueueJSON (g : t) (count : Z) : string :=
  let recommendations := getTopRevisionRecommendations g count in
  let oss :=
    foldl (getRevisionQueueJSON_step g (length recommendations))
          "["%string (imap (λ i id, (i, id)) recommendations) in
  oss +:+ "]".

End Traversal.

(** The traversal used to run examples: the order of [map_to_list]. *)
Definition key_order (m : gmap string Concept.t) : list string := (map_to_list m).*1.

(** Auxiliary notions for the statements.  [connected]: the two concepts are
    joined by a prerequisite edge, in either direction. *)
Definition connected (concept other : Concept.t) : Prop :=
  Concept.id concept ∈ Concept.prerequisites other ∨
  Concept.id other ∈ Concept.prerequisites concept.

(** What the scan of [reviseConcept] does to one concept, [prereqs] being the
    prerequisites of the revised concept. *)
Definition boost_if (concept_id : string) (prereqs : list string)
    (other : Concept.t) : Concept.t :=
  if lists (Concept.prerequisites other) concept_id || lists prereqs (Concept.id other)
  then Concept.boostConnected other else other.

(** Every concept is stored under its own id ([concepts[id] = new_concept]). *)
Definition ids_match (cs : gmap string Concept.t) : Prop :=
  map_Forall (λ k c, Concept.id c = k) cs.

(** The queue holds exactly one entry per concept, with its current strength. *)
Definition entry_of (kc : string * Concept.t) : MinHeap.HeapNode :=
  MinHeap.mkHeapNode kc.1 (Concept.memory_strength kc.2).

Definition synced (g : t) : Prop :=
  priority_queue g ≡ₚ entry_of <$> map_to_list (concepts g).

(** Every concept has at least one entry in the queue. *)
Definition covered (g : t) : Prop :=
  ∀ k, is_Some (concepts g !! k) →
    k ∈ MinHeap.concept_id <$> priority_queue g.

(** Every entry of the queue is for a concept of the map. *)
Definition known (g : t) : Prop :=
  ∀ id, id ∈ MinHeap.concept_id <$> priority_queue g → is_Some (concepts g !! id).

(** The entries the queue holds for one id. *)
Definition entries_of (id : string) (pq : MinHeap.t) : MinHeap.t :=
  filter (λ n, MinHeap.concept_id n = id) pq.

(** The state the scheduler is meant to be in. *)
Definition well_formed (g : t) : Prop :=
  ids_match (concepts g) ∧ synced g ∧
  MinHeap.is_heap (priority_queue g) ∧ MinHeap.no_nan (priority_queue g).

(** The pair [{pair.first, pair.second->memory_strength}] of a map entry, and
    the test of [getUrgentCount] at a key. *)
Definition strength_of (kc : string * Concept.t) : string * float :=
  (kc.1, Concept.memory_strength kc.2).

Definition weak_key (cs : gmap string Concept.t) (k : string) : bool :=
  match cs !! k with
  | Some c => Double.lt (Concept.memory_strength c) 0.3
  | None => false
  end.

End MemoryGraph.

(** ** [std::istream] as [std::getline] reads it *)

Module IStream.

(** The characters not read yet, and the state bits. *)
Record t : Type := mk { rest : string; eofbit : bool; failbit : bool }.

(** [std::istringstream iss(data);] *)
Definition of_string (data : string) : t := mk data false false.

(** [stream.good()], and the conversion to [bool] that a [while] tests:
    [!stream.fail()]. *)
Definition good (stream : t) : bool := negb (eofbit stream) && negb (failbit stream).
Definition to_bool (stream : t) : bool := negb (failbit stream).

(** The characters before the first [delim] and the input after it; [None]
    when the input ends before a [delim] is met. *)
Fixpoint until (delim : ascii) (s : string) : string * option string :=
  match s with
  | EmptyString => (EmptyString, None)
  | String c s' =>
      if Ascii.eqb c delim then (EmptyString, Some s')
      else let r := until delim s' in (String c r.1, r.2)
  end.

(** [std::getline(stream, str, delim)].  On a stream that is not good the call
    sets [failbit] and leaves [str] as it is.  Otherwise [str] is erased and
    receives the characters up to the delimiter, which is read and dropped;
    reaching the end of the input sets [eofbit], and [failbit] as well when
    no character was read. *)
Definition getline (stream : t) (str : string) (delim : ascii) : t * string :=
  if good stream then
    match until delim (rest stream) with
    | (line, Some rest') => (mk rest' false false, line)
    | (line, None) =>
        (mk EmptyString true (match line with EmptyString => true | _ => false end),
         line)
    end
  else (mk (rest stream) (eofbit stream) true, str).

End IStream.

(** ** [std::string]: [find] and [substr] *)

Module StdString.

(** [s.find(c)]: the index of the first [c], [None] for [npos]. *)
Fixpoint find (s : string) (c : ascii) : option nat :=
  match s with
  | EmptyString => None
  | String c' s' => if Ascii.eqb c' c then Some 0%nat else S <$> find s' c
  end.

(** [s.substr(0, pos)], where [npos] takes the whole string, and
    [s.substr(pos)]. *)
Definition substr_to (s : string) (pos : option nat) : string :=
  match pos with
  | Some n => String.substring 0 n s
  | None => s
  end.

Definition substr_from (s : string) (pos : nat) : string :=
  String.substring pos (String.length s - pos) s.

(** A text that is not empty and holds no [delim]. *)
Definition field (delim : ascii) (s : string) : Prop :=
  s ≠ ""%string ∧ find s delim = None.

End StdString.

(** ** MAIN PROGRAM: the sample data *)

Definition initializeSampleData : MemoryGraph.t :=
  let g := MemoryGraph.new 0.15 in
  let g := MemoryGraph.insertConcept g "Binary Search" "binary_search" "Algorithms" 0.85 ["arrays"%string] in
  let g := MemoryGraph.insertConcept g "Arrays" "arrays" "Data Structures" 0.45 [] in
  let g := MemoryGraph.insertConcept g "Sorting Algorithms" "sorting" "Algorithms" 0.62 ["arrays"%string] in
  let g := MemoryGraph.insertConcept g "Linked Lists" "linked_lists" "Data Structures" 0.28 [] in
  let g := MemoryGraph.insertConcept g "Binary Trees" "trees" "Data Structures" 0.75 ["linked_lists"%string] in
  let g := MemoryGraph.insertConcept g "Hash Tables" "hash_tables" "Data Structures" 0.55 ["arrays"%string] in
  let g := MemoryGraph.insertConcept g "Graph Traversal" "graphs" "Algorithms" 0.35 ["trees"%string] in
  MemoryGraph.insertConcept g "Dynamic Programming" "dp" "Algorithms" 0.90 ["sorting"%string].

(** ** MAIN PROGRAM: the commands *)

Section Program.

Variable traversal : gmap string Concept.t → list string.
Variable exp : float → float.
Variable sort : list (string * float) → list (string * float).
Variable fixed2 : float → string.
Variable show_int : Z → string.

(** [std::cout << rate] with the default formatting of a [double], and the
    conversions [std::stoi] and [std::stod], which return the number read or
    throw [std::invalid_argument] or [std::out_of_range]: library functions,
    parameters here. *)
Variable show_double : float → string.
Variable stoi : string → outcome Z.
Variable stod : string → outcome float.

(** The one-line answers: an opening brace, the status between quotes, a
    comma, a second field and the closing brace. *)
Definition status_line (status field value : string) : string :=
  "{" +:+ Text.quoted "status" +:+ ":" +:+ Text.quoted status +:+ ","
  +:+ Text.quoted field +:+ ":" +:+ value +:+ "}".

(** [while (std::getline(prereq_stream, prereq, ',')) prerequisites.push_back(prereq);]
    Every iteration but the last reads a character, so one iteration more
    than the text has characters is enough ([read_prerequisites_fuel]). *)
Fixpoint read_prerequisites (fuel : nat) (prereq_stream : IStream.t)
    (prereq : string) (prerequisites : list string) : list string :=
  match fuel with
  | O => prerequisites
  | S fuel' =>
      let r := IStream.getline prereq_stream prereq "," in
      if IStream.to_bool r.1
      then read_prerequisites fuel' r.1 r.2 (prerequisites ++ [r.2])
      else prerequisites
  end.

(** The arguments [ADD_CONCEPT] passes to [insertConcept], read from [data]. *)
Definition read_concept (data : string) : string * string * string * list string :=
  let iss := IStream.of_string data in
  let r := IStream.getline iss "" "|" in
  let name := r.2 in
  let r := IStream.getline r.1 "" "|" in
  let id := r.2 in
  let r := IStream.getline r.1 "" "|" in
  let category := r.2 in
  let r := IStream.getline r.1 "" "|" in
  let prereqs_str := r.2 in
  let prerequisites :=
    match prereqs_str with
    | EmptyString => []
    | String _ _ =>
        read_prerequisites (S (String.length prereqs_str))
          (IStream.of_string prereqs_str) "" []
    end in
  (name, id, category, prerequisites).

(** The graph the command leaves and the text it writes to [std::cout].  The
    body of the [try] yields the text or the exception; the [catch] turns an
    exception into an error line. *)
Definition processCommand (g : MemoryGraph.t) (command data : string)
    : MemoryGraph.t * string :=
  let r : MemoryGraph.t * outcome string :=
    if String.eqb command "GET_ALL_CONCEPTS" then
      (g, Returned (MemoryGraph.toJSON traversal fixed2 show_int g))
    else if String.eqb command "GET_STATS" then
      (g, Returned (MemoryGraph.getStatsJSON traversal fixed2 show_int g))
    else if String.eqb command "GET_REVISION_QUEUE" then
      (g, Returned (MemoryGraph.getRevisionQueueJSON traversal sort fixed2 show_int g 10))
    else if String.eqb command "REVISE_CONCEPT" then
      match MemoryGraph.reviseConcept traversal g data 0.4 with
      | (g', Returned _) =>
          (g', Returned (status_line "success" "message" (Text.quoted "Concept revised")))
      | (g', Thrown what) => (g', Thrown what)
      end
    else if String.eqb command "SIMULATE_TIME" then
      match stoi data with
      | Returned days =>
          (MemoryGraph.simulateTimePassage traversal exp g days,
           Returned (status_line "success" "days" (show_int days)))
      | Thrown what => (g, Thrown what)
      end
    else if String.eqb command "ADD_CONCEPT" then
      let '(name, id, category, prerequisites) := read_concept data in
      (MemoryGraph.insertConcept g name id category 1.0 prerequisites,
       Returned (status_line "success" "message" (Text.quoted "Concept added")))
    else if String.eqb command "SET_DECAY_RATE" then
      match stod data with
      | Returned rate =>
          (MemoryGraph.updateMemoryStrengths traversal exp
             (MemoryGraph.setDecayRate g rate),
           Returned (status_line "success" "rate" (show_double rate)))
      | Thrown what => (g, Thrown what)
      end
    else
      (g, Returned (status_line "error" "message" (Text.quoted "Unknown command"))) in
  match r.2 with
  | Returned text => (r.1, text +:+ Text.endl)
  | Thrown what =>
      (r.1, status_line "error" "message" (Text.quoted what) +:+ Text.endl)
  end.

(** [command] and [data] of a line: the text before the first space and the
    text after it. *)
Definition split_line (line : string) : string * string :=
  let pos := StdString.find line " " in
  let command := StdString.substr_to line pos in
  let data :=
    match pos with
    | Some pos => StdString.substr_from line (pos + 1)
    | None => ""%string
    end in
  (command, data).

(** The loop of [main] over the lines of [std::cin]; [cout] is the text
    written so far.  A line that is processed is not empty, so one iteration
    more than the input has characters is enough ([main_loop_fuel]). *)
Fixpoint main_loop (fuel : nat) (cin : IStream.t) (line : string)
    (g : MemoryGraph.t) (cout : string) : MemoryGraph.t * string :=
  match fuel with
  | O => (g, cout)
  | S fuel' =>
      let r := IStream.getline cin line Text.newline in
      if IStream.to_bool r.1 then
        let line := r.2 in
        if String.eqb line "" || String.eqb line "EXIT" then (g, cout)
        else
          let cd := split_line line in
          let p := processCommand g cd.1 cd.2 in
          main_loop fuel' r.1 line p.1 (cout +:+ p.2)
      else (g, cout)
  end.

(** [main]: [argv] holds the program name and the arguments, [input] is the
    text on [std::cin]; the result is the text written to [std::cout]. *)
Definition main (argv : list string) (input : string) : string :=
  let g := initializeSampleData in
  if (1 <? length argv)%nat then
    let command := default ""%string (argv !! 1%nat) in
    let data := if (2 <? length argv)%nat then default ""%string (argv !! 2%nat)
                else ""%string in
    (processCommand g command data).2
  else
    (main_loop (S (String.length input)) (IStream.of_string input) "" g "").2.

(** Auxiliary notions for the statements about [main].  [process_lines]: the
    commands of the lines one after the other, from a graph and the text
    written so far.  [command_line]: a line the loop processes.  [session]:
    the text of the lines, each ended by a newline, followed by [tail].
    [stops]: on the input [tail] the loop ends at once. *)
Definition process_lines (lines : list string) (st : MemoryGraph.t * string)
    : MemoryGraph.t * string :=
  foldl (λ st line,
           let cd := split_line line in
           let p := processCommand st.1 cd.1 cd.2 in
           (p.1, st.2 +:+ p.2))
        st lines.

Definition command_line (line : string) : Prop :=
  line ≠ ""%string ∧ line ≠ "EXIT"%string ∧ StdString.find line Text.newline = None.

Definition session (lines : list string) (tail : string) : string :=
  foldr (λ line text, line +:+ Text.endl +:+ text) tail lines.

Definition stops (tail : string) : Prop :=
  ∀ fuel line g cout,
    main_loop (S fuel) (IStream.of_string tail) line g cout = (g, cout).

End Program.

(** The order of [std::sort] used to run examples: a merge sort with the
    comparison of [getTopRevisionRecommendations]. *)
Definition sort_sample : list (string * float) → list (string * float) :=
  @merge_sort _ (λ a b : string * float, Double.lt b.2 a.2 = false)
    (λ a b, decide_rel eq _ _).

(** Stand-ins for the formatting and the conversions of the library, used
    only to run examples: an [int] in decimal, a [double] by its integer
    part, and numbers read from an optional minus sign and leading digits.
    Every theorem below holds for arbitrary ones. *)
Definition show_int_sample (z : Z) : string := pretty z.

Definition show_double_sample (x : float) : string :=
  match Prim2SF x with
  | S754_finite s m e =>
      (if s then "-" else "")
      +:+ pretty (if (e <? 0)%Z then (Z.pos m / 2 ^ (- e))%Z else (Z.pos m * 2 ^ e)%Z)
  | S754_zero s => if s then "-0" else "0"
  | S754_infinity s => if s then "-inf" else "inf"
  | S754_nan => "nan"
  end.

Fixpoint read_digits (s : string) (value : option Z) : option Z :=
  match s with
  | String c s' =>
      let d := (Z.of_nat (nat_of_ascii c) - 48)%Z in
      if (0 <=? d)%Z && (d <=? 9)%Z
      then read_digits s' (Some (10 * default 0%Z value + d)%Z)
      else value
  | EmptyString => value
  end.

Definition stoi_sample (s : string) : outcome Z :=
  let signed :=
    match s with
    | String "-" s' => (true, s')
    | _ => (false, s)
    end in
  match read_digits signed.2 None with
  | Some n =>
      let z := if signed.1 then (- n)%Z else n in
      if (- 2 ^ 31 <=? z)%Z && (z <? 2 ^ 31)%Z then Returned z else Thrown "stoi"
  | None => Thrown "stoi"
  end.

Definition stod_sample (s : string) : outcome float :=
  match stoi_sample s with
  | Returned z => Returned (Int32.to_double z)
  | Thrown _ => Thrown "stod"
  end.

(** A graph, a heap and a session to run the further properties on. *)
Definition sample_entries : MinHeap.t :=
  [MinHeap.mkHeapNode "graphs" 0.35; MinHeap.mkHeapNode "arrays" 0.9].

Definition sample_session : list string :=
  ["GET_STATS"%string; "REVISE_CONCEPT arrays"%string; "SIMULATE_TIME 7"%string].

(** A stand-in for [std::exp], used only to run examples: the degree-4 Taylor
    polynomial at [x / 1024], squared ten times.  Every theorem below holds
    for an arbitrary [exp]. *)
Definition exp_sample (x : float) : float :=
  let y := (x / 1024)%float in
  let p := (1 + y * (1 + y * (0.5 + y * (1 / 6 + y / 24))))%float in
  Nat.iter 10 (λ q, (q * q)%float) p.

(** Inputs of the examples. *)

(** The sample data as a run of public operations. *)
Definition sample_ops : list MemoryGraph.op :=
  [MemoryGraph.InsertConcept "Binary Search" "binary_search" "Algorithms" 0.85 ["arrays"%string];
   MemoryGraph.InsertConcept "Arrays" "arrays" "Data Structures" 0.45 [];
   MemoryGraph.InsertConcept "Sorting Algorithms" "sorting" "Algorithms" 0.62 ["arrays"%string];
   MemoryGraph.InsertConcept "Linked Lists" "linked_lists" "Data Structures" 0.28 [];
   MemoryGraph.InsertConcept "Binary Trees" "trees" "Data Structures" 0.75 ["linked_lists"%string];
   MemoryGraph.InsertConcept "Hash Tables" "hash_tables" "Data Structures" 0.55 ["arrays"%string];
   MemoryGraph.InsertConcept "Graph Traversal" "graphs" "Algorithms" 0.35 ["trees"%string];
   MemoryGraph.InsertConcept "Dynamic Programming" "dp" "Algorithms" 0.90 ["sorting"%string]].

(** [ADD_CONCEPT Linked Lists|linked_lists|Data Structures|] on the sample data. *)
Definition relearned : MemoryGraph.t :=
  MemoryGraph.insertConcept initializeSampleData
    "Linked Lists" "linked_lists" "Data Structures" 1.0 [].

(** Two concepts of the sample data. *)
Definition sample_arrays : Concept.t :=
  Concept.new "Arrays" "arrays" "Data Structures" 0.45 0 [].
Definition sample_sorting : Concept.t :=
  Concept.new "Sorting Algorithms" "sorting" "Algorithms" 0.62 0 ["arrays"%string].

(** A small heap to run the queue on. *)
Definition small_heap : MinHeap.t :=
  [MinHeap.mkHeapNode "linked_lists" 0.28; MinHeap.mkHeapNode "arrays" 0.45;
   MinHeap.mkHeapNode "graphs" 0.35].

(** The sample data ten days later, before the strengths are refreshed. *)
Definition sample_day10 : MemoryGraph.t :=
  {| MemoryGraph.concepts := MemoryGraph.concepts initializeSampleData;
     MemoryGraph.graph := MemoryGraph.graph initializeSampleData;
     MemoryGraph.priority_queue := MemoryGraph.priority_queue initializeSampleData;
     MemoryGraph.current_day := 10; MemoryGraph.lambda := 0.15;
     MemoryGraph.total_revisions := 0 |}.

(** The sample data after [SET_DECAY_RATE nan]: [setDecayRate] of a NaN
    followed by [updateMemoryStrengths]. *)
Definition sample_nan_rate : MemoryGraph.t :=
  MemoryGraph.run MemoryGraph.key_order exp_sample 0.15
    (sample_ops ++ [MemoryGraph.SetDecayRate nan; MemoryGraph.UpdateMemoryStrengths]).

(** * Properties *)

(** ** The order of [double] away from NaN, and the heap *)

Module MinHeapFacts.
Import MinHeap.

(** *** [<] and [<=] of [double]

    Through the specification of the primitive comparisons ([ltb_spec],
    [leb_spec]): away from NaN, [<=] is a total preorder and [<] its strict
    part. *)
Section DoubleOrder.

Lemma SFcompare_lt_gt (x y : spec_float) :
  SFcompare x y = Some Lt ↔ SFcompare y x = Some Gt.
Proof.
  destruct x as [[|]|[|]| |[|] mx ex], y as [[|]|[|]| |[|] my ey];
    simpl; try (split; congruence).
  all: rewrite ?Pos.compare_cont_spec; simpl.
  all: destruct (Z.compare_spec ex ey), (Z.compare_spec ey ex); try lia;
    try (split; congruence); subst.
  all: destruct (Pos.compare_spec mx my), (Pos.compare_spec my mx); simpl;
    try lia; split; congruence.
Qed.

Lemma SFcompare_total (x y : spec_float) :
  x ≠ S754_nan → y ≠ S754_nan → is_Some (SFcompare x y).
Proof. destruct x, y; simpl; intros; try congruence; eauto. Qed.

Lemma SFleb_trans (x y z : spec_float) :
  SFleb x y = true → SFleb y z = true → SFleb x z = true.
Proof.
  unfold SFleb.
  destruct x as [[|]|[|]| |[|] mx ex], y as [[|]|[|]| |[|] my ey],
    z as [[|]|[|]| |[|] mz ez]; simpl; try congruence.
  all: rewrite ?Pos.compare_cont_spec; simpl.
  all: destruct (Z.compare_spec ex ey), (Z.compare_spec ey ez), (Z.compare_spec ex ez);
    try lia; try congruence; subst.
  all: destruct (Pos.compare_spec mx my), (Pos.compare_spec my mz), (Pos.compare_spec mx mz);
    simpl; try lia; try congruence.
Qed.

Lemma not_nan_spec (a : float) : Double.not_nan a ↔ Prim2SF a ≠ S754_nan.
Proof.
  unfold Double.not_nan, is_nan. rewrite FloatAxioms.eqb_spec. unfold SFeqb.
  destruct (Prim2SF a) as [[|]|[|]| |[|] m e]; simpl; try (split; congruence).
  all: rewrite Z.compare_refl, Pos.compare_cont_refl; simpl; split; congruence.
Qed.

Lemma double_lt_le (a b : float) : Double.lt a b = true → Double.le a b = true.
Proof.
  unfold Double.lt, Double.le.
  rewrite FloatAxioms.ltb_spec, FloatAxioms.leb_spec. unfold SFltb, SFleb.
  destruct (SFcompare _ _) as [[| |]|]; congruence.
Qed.

Lemma double_not_lt_le (a b : float) :
  Double.not_nan a → Double.not_nan b → Double.lt a b = false → Double.le b a = true.
Proof.
  rewrite !not_nan_spec. unfold Double.lt, Double.le.
  rewrite FloatAxioms.ltb_spec, FloatAxioms.leb_spec.
  unfold SFltb, SFleb. intros Ha Hb.
  destruct (SFcompare_total _ _ Hb Ha) as [c Hc].
  pose proof (SFcompare_lt_gt (Prim2SF a) (Prim2SF b)) as Hs.
  rewrite Hc in Hs |- *. destruct c; try congruence.
  destruct Hs as [_ Hs]. rewrite (Hs eq_refl). congruence.
Qed.

Lemma double_le_trans (a b c : float) :
  Double.le a b = true → Double.le b c = true → Double.le a c = true.
Proof. unfold Double.le. rewrite !FloatAxioms.leb_spec. apply SFleb_trans. Qed.

Lemma double_le_refl (a : float) : Double.not_nan a → Double.le a a = true.
Proof.
  rewrite not_nan_spec. unfold Double.le. rewrite FloatAxioms.leb_spec. unfold SFleb.
  destruct (Prim2SF a) as [[|]|[|]| |[|] m e]; simpl; try congruence.
  all: rewrite Z.compare_refl, Pos.compare_cont_refl; simpl; congruence.
Qed.

Lemma double_lt_not_nan (a b : float) :
  Double.lt a b = true → Double.not_nan a ∧ Double.not_nan b.
Proof.
  rewrite !not_nan_spec. unfold Double.lt. rewrite FloatAxioms.ltb_spec. unfold SFltb.
  destruct (Prim2SF a), (Prim2SF b); simpl; split; congruence.
Qed.

End DoubleOrder.

(** *** The index of the parent, [(i - 1) / 2] *)
Section IndexArithmetic.

Lemma parent_bounds (j : nat) :
  2 * ((j - 1) / 2) ≤ j - 1 ∧ j - 1 ≤ 2 * ((j - 1) / 2) + 1.
Proof.
  pose proof (Nat.div_mod_eq (j - 1) 2).
  pose proof (Nat.mod_upper_bound (j - 1) 2). lia.
Qed.

Lemma half_bounds (n : nat) : 2 * (n / 2) ≤ n ∧ n ≤ 2 * (n / 2) + 1.
Proof.
  pose proof (Nat.div_mod_eq n 2). pose proof (Nat.mod_upper_bound n 2). lia.
Qed.

End IndexArithmetic.

(** *** [std::swap] permutes the vector *)
Section Swap.
Implicit Types heap : list HeapNode.

Lemma swap_length heap i j : length (swap heap i j) = length heap.
Proof.
  unfold swap. destruct (heap !! i), (heap !! j); try done.
  by rewrite !length_insert.
Qed.

Lemma swap_lookup heap i j a b k :
  heap !! i = Some a → heap !! j = Some b →
  swap heap i j !! k =
    if decide (k = j) then Some a else if decide (k = i) then Some b else heap !! k.
Proof.
  intros Hi Hj. unfold swap. rewrite Hi, Hj.
  pose proof (lookup_lt_Some _ _ _ Hi). pose proof (lookup_lt_Some _ _ _ Hj).
  destruct (decide (k = j)) as [->|].
  - rewrite list_lookup_insert_eq; [done|by rewrite length_insert].
  - rewrite list_lookup_insert_ne by done.
    destruct (decide (k = i)) as [->|].
    + by rewrite list_lookup_insert_eq.
    + by rewrite list_lookup_insert_ne.
Qed.

Lemma insert_perm heap i (a b : HeapNode) :
  heap !! i = Some a → <[i := b]> heap ≡ₚ b :: delete i heap.
Proof.
  revert i. induction heap as [|x heap IH]; intros [|i] Hi; simplify_eq/=; try done.
  rewrite (IH _ Hi). apply perm_swap.
Qed.

Lemma swap_perm heap i j : swap heap i j ≡ₚ heap.
Proof.
  unfold swap. destruct (heap !! i) as [a|] eqn:Hi; [|done].
  destruct (heap !! j) as [b|] eqn:Hj; [|done].
  destruct (decide (i = j)) as [->|Hne].
  - simplify_eq. by rewrite list_insert_insert_eq, list_insert_id.
  - assert (<[i:=b]> heap !! j = Some b) as Hj'
      by (by rewrite list_lookup_insert_ne).
    etrans; [apply (insert_perm _ _ b a Hj')|].
    etrans; [|symmetry; apply (delete_Permutation heap i a Hi)].
    apply perm_skip, (Permutation_cons_inv (a:=b)).
    etrans; [symmetry; apply (delete_Permutation _ j b Hj')|].
    apply (insert_perm _ _ a b Hi).
Qed.

Lemma swap_no_nan heap i j : no_nan heap → no_nan (swap heap i j).
Proof. unfold no_nan. by rewrite swap_perm. Qed.

End Swap.

(** *** [heapifyUp] and [heapifyDown] restore the order

    [heapifyUp] at [i] turns [up_inv heap i] into the heap property, and
    [heapifyDown] at [i] turns [down_inv k heap i] into the heap property from
    index [k] on. *)
Section HeapOrder.
Implicit Types heap : list HeapNode.

Lemma parent_child (i : nat) : 0 < i → child_of ((i - 1) / 2) i.
Proof. intros. unfold child_of. pose proof (parent_bounds i). lia. Qed.

Lemma child_parent (q j : nat) : child_of q j → 0 < j ∧ (j - 1) / 2 = q.
Proof.
  intros [-> | ->]; (split; [lia|]).
  - replace (2 * q + 1 - 1) with (q * 2) by lia. by apply Nat.div_mul.
  - replace (2 * q + 2 - 1) with (1 + q * 2) by lia. by rewrite Nat.div_add.
Qed.

Lemma node_le_trans a b c : node_le a b → node_le b c → node_le a c.
Proof. apply double_le_trans. Qed.

Lemma no_nan_lookup heap i a :
  no_nan heap → heap !! i = Some a → Double.not_nan (memory_strength a).
Proof. intros Hn Hi. exact (proj1 (Forall_lookup _ _) Hn _ _ Hi). Qed.

Lemma less_true heap i j :
  less heap i j = true →
  ∃ a b, heap !! i = Some a ∧ heap !! j = Some b ∧
    Double.lt (memory_strength a) (memory_strength b) = true.
Proof.
  unfold less. destruct (heap !! i) as [a|]; [|done].
  destruct (heap !! j) as [b|]; [|done]. eauto.
Qed.

Lemma less_false heap i j a b :
  no_nan heap → heap !! i = Some a → heap !! j = Some b →
  less heap i j = false → node_le b a.
Proof.
  intros Hn Hi Hj. unfold less. rewrite Hi, Hj. intros Hlt.
  apply double_not_lt_le; eauto using no_nan_lookup.
Qed.

Lemma is_heap_from heap : is_heap heap ↔ heap_from 0 heap.
Proof.
  unfold is_heap, heap_from. split.
  - intros H q j p c Hqj _ Hp Hc. apply child_parent in Hqj as [Hj <-].
    by apply (H j).
  - intros H j p c Hj Hp Hc. apply (H ((j - 1) / 2) j); auto using parent_child. lia.
Qed.

Lemma up_inv_heap heap i :
  up_inv heap i →
  (∀ q p c, child_of q i → heap !! q = Some p → heap !! i = Some c → node_le p c) →
  is_heap heap.
Proof.
  intros [Ha _] Hi. apply is_heap_from. intros q j p c Hqj _ Hp Hc.
  destruct (decide (j = i)) as [->|].
  - by apply (Hi q).
  - by apply (Ha q j).
Qed.

Lemma swap_lookup_Some heap i j a b k x :
  heap !! i = Some a → heap !! j = Some b → swap heap i j !! k = Some x →
  (k = j ∧ x = a) ∨ (k = i ∧ k ≠ j ∧ x = b) ∨ (k ≠ i ∧ k ≠ j ∧ heap !! k = Some x).
Proof.
  intros Hi Hj. rewrite (swap_lookup _ _ _ _ _ _ Hi Hj).
  repeat case_decide; naive_solver.
Qed.

Lemma heapifyUp_loop_heap fuel heap i :
  i ≤ fuel → no_nan heap → up_inv heap i → is_heap (heapifyUp_loop fuel heap i).
Proof.
  revert heap i. induction fuel as [|fuel IH]; intros heap i Hfuel Hn Hinv;
    cbn [heapifyUp_loop].
  { apply (up_inv_heap heap i); [done|]. unfold child_of. lia. }
  destruct (0 <? i) eqn:Hpos; cbn [andb];
    [apply Nat.ltb_lt in Hpos|apply Nat.ltb_ge in Hpos].
  2:{ apply (up_inv_heap heap i); [done|]. unfold child_of. lia. }
  pose proof (parent_child i Hpos) as Hpi.
  destruct (less heap i ((i - 1) / 2)) eqn:Hless.
  2:{ apply (up_inv_heap heap i); [done|]. intros q p c Hq Hp Hc.
      apply child_parent in Hq as [_ <-]. eapply less_false; eauto. }
  set (p := (i - 1) / 2) in *. clearbody p.
  apply less_true in Hless as (c & b & Hc & Hp & Hlt).
  assert (node_le c b) as Hcb by (by apply double_lt_le).
  destruct Hinv as [Ha Hb].
  apply IH; [unfold child_of in Hpi; lia|by apply swap_no_nan|].
  split.
  - intros q j x y Hqj Hne Hx Hy.
    apply (swap_lookup_Some _ _ _ _ _ _ _ Hp Hc) in Hx, Hy.
    unfold child_of in *.
    destruct Hx as [[? ->]|[[? [? ->]]|[? [? Hx]]]],
             Hy as [[? ->]|[[? [? ->]]|[? [? Hy]]]]; subst; try lia.
    + by apply (Hb p j).
    + done.
    + apply node_le_trans with b; [done|]. by apply (Ha p j).
    + by apply (Ha q j).
  - intros g j x y Hgp Hpj Hx Hy.
    apply (swap_lookup_Some _ _ _ _ _ _ _ Hp Hc) in Hx, Hy.
    unfold child_of in *.
    destruct Hx as [[? ->]|[[? [? ->]]|[? [? Hx]]]],
             Hy as [[? ->]|[[? [? ->]]|[? [? Hy]]]]; subst; try lia.
    + apply (Ha g p); auto; lia.
    + apply node_le_trans with b.
      * apply (Ha g p); auto; lia.
      * apply (Ha p j); auto.
Qed.

Lemma guarded_less_false heap j i c :
  (j <? length heap) && less heap j i = false → heap !! j = Some c →
  less heap j i = false.
Proof.
  intros H Hj. apply lookup_lt_Some in Hj. apply Nat.ltb_lt in Hj.
  by rewrite Hj in H.
Qed.

Lemma guarded_less_true heap j i :
  (j <? length heap) && less heap j i = true → less heap j i = true.
Proof. by intros [_ ?]%andb_prop. Qed.

Lemma minChild_cases heap i :
  no_nan heap →
  (minChild heap i = i ∧
     ∀ j a c, child_of i j → heap !! i = Some a → heap !! j = Some c → node_le a c)
  ∨ (∃ a c, child_of i (minChild heap i) ∧ heap !! i = Some a ∧
        heap !! minChild heap i = Some c ∧ node_le c a ∧
        ∀ j c', child_of i j → heap !! j = Some c' → node_le c c').
Proof.
  intros Hn. unfold minChild.
  destruct ((2 * i + 1 <? length heap) && less heap (2 * i + 1) i) eqn:Hl.
  - apply guarded_less_true, less_true in Hl as (cl & a & Hcl & Ha & Hlt).
    apply double_lt_le in Hlt.
    destruct ((2 * i + 2 <? length heap) && less heap (2 * i + 2) (2 * i + 1)) eqn:Hr.
    + apply guarded_less_true, less_true in Hr as (cr & cl' & Hcr & Hcl' & Hlt').
      apply double_lt_le in Hlt'. simplify_eq.
      right. exists a, cr. repeat split; [by right|done..| |].
      * by apply node_le_trans with cl.
      * intros j c' [-> | ->] Hj; simplify_eq; [done|].
        apply double_le_refl. eauto using no_nan_lookup.
    + right. exists a, cl. repeat split; [by left|done..|].
      intros j c' [-> | ->] Hj; simplify_eq.
      * apply double_le_refl. eauto using no_nan_lookup.
      * eapply less_false; eauto using guarded_less_false.
  - destruct ((2 * i + 2 <? length heap) && less heap (2 * i + 2) i) eqn:Hr.
    + apply guarded_less_true, less_true in Hr as (cr & a & Hcr & Ha & Hlt).
      apply double_lt_le in Hlt.
      right. exists a, cr. repeat split; [by right|done..|].
      intros j c' [-> | ->] Hj; simplify_eq.
      * apply node_le_trans with a; [done|].
        eapply less_false; eauto using guarded_less_false.
      * apply double_le_refl. eauto using no_nan_lookup.
    + left. split; [done|].
      intros j a c [-> | ->] Ha Hj; eapply less_false; eauto using guarded_less_false.
Qed.

Lemma heapifyDown_rec_heap k fuel heap i :
  length heap - i ≤ fuel → no_nan heap → down_inv k heap i →
  heap_from k (heapifyDown_rec fuel heap i).
Proof.
  revert heap i. induction fuel as [|fuel IH]; intros heap i Hfuel Hn [Ha Hb];
    cbn [heapifyDown_rec].
  { intros q j p c Hqj Hk Hp Hc. destruct (decide (q = i)) as [->|].
    - apply lookup_lt_Some in Hp. lia.
    - by apply (Ha q j). }
  destruct (minChild_cases heap i Hn) as [[-> Hmin]|(a & c & Hm & Hi & Hc & Hca & Hmin)].
  { rewrite Nat.eqb_refl. intros q j p x Hqj Hk Hp Hx.
    destruct (decide (q = i)) as [->|].
    - by apply (Hmin j).
    - by apply (Ha q j). }
  set (m := minChild heap i) in *. clearbody m.
  assert (m ≠ i) as Hne by (unfold child_of in Hm; lia).
  apply Nat.eqb_neq in Hne as ->.
  pose proof (lookup_lt_Some _ _ _ Hc) as Hlen.
  apply IH; [rewrite swap_length; unfold child_of in Hm; lia|by apply swap_no_nan|].
  split.
  - intros q j x y Hqj Hk Hne Hx Hy.
    apply (swap_lookup_Some _ _ _ _ _ _ _ Hi Hc) in Hx, Hy.
    unfold child_of in *.
    destruct Hx as [[? ->]|[[? [? ->]]|[? [? Hx]]]],
             Hy as [[? ->]|[[? [? ->]]|[? [? Hy]]]]; subst; try lia.
    + done.
    + by apply (Hmin j).
    + apply (Hb q m); auto.
    + by apply (Ha q j).
  - intros g j x y Hgm Hk Hmj Hx Hy.
    apply (swap_lookup_Some _ _ _ _ _ _ _ Hi Hc) in Hx, Hy.
    unfold child_of in *.
    destruct Hx as [[? ->]|[[? [? ->]]|[? [? Hx]]]],
             Hy as [[? ->]|[[? [? ->]]|[? [? Hy]]]]; subst; try lia.
    apply (Ha m j); auto; lia.
Qed.

Lemma heapifyDown_heap heap i :
  no_nan heap → down_inv 0 heap i → is_heap (heapifyDown heap i).
Proof.
  intros. apply is_heap_from, heapifyDown_rec_heap; auto.
Qed.

End HeapOrder.

(** *** The public operations

    First, the fuel is enough: more of it changes nothing, so the loop of
    [heapifyUp] has ended after [index] rounds and the recursion of
    [heapifyDown] after [heap.size() - index] calls. *)
Section HeapOperations.
Implicit Types heap : list HeapNode.

Lemma heapifyUp_loop_fuel fuel1 fuel2 heap i :
  i ≤ fuel1 → i ≤ fuel2 → heapifyUp_loop fuel1 heap i = heapifyUp_loop fuel2 heap i.
Proof.
  revert fuel2 heap i.
  induction fuel1 as [|fuel1 IH]; intros [|fuel2] heap i H1 H2;
    cbn [heapifyUp_loop]; try done.
  - replace i with 0 by lia. done.
  - replace i with 0 by lia. done.
  - destruct (0 <? i) eqn:Hpos; [|done]. apply Nat.ltb_lt in Hpos. cbn [andb].
    destruct (less heap i ((i - 1) / 2)); [|done].
    pose proof (parent_bounds i). apply IH; lia.
Qed.

Lemma minChild_range heap i :
  minChild heap i = i ∨ (i < minChild heap i ∧ minChild heap i < length heap).
Proof.
  unfold minChild.
  destruct (2 * i + 1 <? length heap) eqn:Hl, (2 * i + 2 <? length heap) eqn:Hr;
    cbn [andb]; try apply Nat.ltb_lt in Hl; try apply Nat.ltb_lt in Hr;
    repeat match goal with |- context [if less ?h ?a ?b then _ else _] =>
      destruct (less h a b) end; lia.
Qed.

Lemma heapifyDown_rec_fuel fuel1 fuel2 heap i :
  length heap - i ≤ fuel1 → length heap - i ≤ fuel2 →
  heapifyDown_rec fuel1 heap i = heapifyDown_rec fuel2 heap i.
Proof.
  revert fuel2 heap i.
  induction fuel1 as [|fuel1 IH]; intros [|fuel2] heap i H1 H2;
    cbn [heapifyDown_rec]; try done.
  - destruct (minChild_range heap i) as [->|?]; [|lia]. by rewrite Nat.eqb_refl.
  - destruct (minChild_range heap i) as [->|?]; [|lia]. by rewrite Nat.eqb_refl.
  - destruct (minChild_range heap i) as [->|[? ?]]; [by rewrite Nat.eqb_refl|].
    destruct (minChild heap i =? i); [done|].
    apply IH; rewrite swap_length; lia.
Qed.

Lemma heapifyUp_loop_perm fuel heap i : heapifyUp_loop fuel heap i ≡ₚ heap.
Proof.
  revert heap i. induction fuel as [|fuel IH]; intros heap i;
    cbn [heapifyUp_loop]; [done|].
  destruct (_ && _); [|done]. etrans; [apply IH|apply swap_perm].
Qed.

Lemma heapifyDown_rec_perm fuel heap i : heapifyDown_rec fuel heap i ≡ₚ heap.
Proof.
  revert heap i. induction fuel as [|fuel IH]; intros heap i;
    cbn [heapifyDown_rec]; [done|].
  destruct (_ =? _); [done|]. etrans; [apply IH|apply swap_perm].
Qed.

Lemma heapifyUp_perm heap i : heapifyUp heap i ≡ₚ heap.
Proof. apply heapifyUp_loop_perm. Qed.

Lemma heapifyDown_perm heap i : heapifyDown heap i ≡ₚ heap.
Proof. apply heapifyDown_rec_perm. Qed.

Lemma no_nan_perm heap heap' : heap ≡ₚ heap' → no_nan heap' → no_nan heap.
Proof. unfold no_nan. by intros ->. Qed.

(** *** insert *)

Lemma insert_perm_cons heap id s : insert heap id s ≡ₚ mkHeapNode id s :: heap.
Proof.
  unfold insert. etrans; [apply heapifyUp_perm|].
  by rewrite Permutation_app_comm.
Qed.

Lemma insert_is_heap heap id s :
  is_heap heap → no_nan heap → Double.not_nan s → is_heap (insert heap id s).
Proof.
  intros Hh Hn Hs. unfold insert, heapifyUp.
  rewrite length_app. cbn [length].
  replace (length heap + 1 - 1) with (length heap) by lia.
  apply is_heap_from in Hh.
  apply heapifyUp_loop_heap; [done| |].
  { apply Forall_app. split; [done|]. by apply Forall_singleton. }
  split.
  - intros q j p c Hqj Hne Hp Hc.
    assert (j < length heap) as Hj.
    { apply lookup_lt_Some in Hc. rewrite length_app in Hc. simpl in Hc. lia. }
    rewrite lookup_app_l in Hc by done.
    rewrite lookup_app_l in Hp by (unfold child_of in Hqj; lia).
    apply (Hh q j); auto. lia.
  - intros g j p c _ Hj _ Hc. apply lookup_lt_Some in Hc.
    rewrite length_app in Hc. simpl in Hc. unfold child_of in Hj. lia.
Qed.

(** *** extractMin *)

Lemma extractMin_nil : extractMin [] = ([], Thrown "Heap is empty").
Proof. done. Qed.

Lemma extractMin_singleton root : extractMin [root] = ([], Returned (concept_id root)).
Proof. done. Qed.

Lemma extractMin_snoc root heap back :
  extractMin (root :: heap ++ [back]) =
    (heapifyDown (back :: heap) 0, Returned (concept_id root)).
Proof.
  unfold extractMin. cbn [lookup list_lookup].
  rewrite app_comm_cons, last_snoc.
  change (<[0:=back]> ((root :: heap) ++ [back])) with ((back :: heap) ++ [back]).
  by rewrite removelast_last.
Qed.

Lemma heap_cases heap :
  heap = [] ∨ (∃ root, heap = [root]) ∨
  (∃ root heap' back, heap = root :: heap' ++ [back]).
Proof.
  destruct heap as [|root l]; [by left|]. right.
  destruct l as [|back l _] using rev_ind; eauto.
Qed.

Lemma extractMin_perm heap heap' id :
  extractMin heap = (heap', Returned id) →
  ∃ root, heap !! 0 = Some root ∧ concept_id root = id ∧ heap ≡ₚ root :: heap'.
Proof.
  destruct (heap_cases heap) as [->|[[root ->]|(root & l & back & ->)]].
  - done.
  - rewrite extractMin_singleton. intros [= <- <-]. eauto.
  - rewrite extractMin_snoc. intros [= <- <-]. exists root.
    repeat split; [done..|]. apply perm_skip.
    etrans; [|symmetry; apply heapifyDown_perm].
    by rewrite Permutation_app_comm.
Qed.


(** *** updateKey *)

Lemma updateKey_found heap id s i n :
  list_find (λ n, concept_id n = id) heap = Some (i, n) →
  updateKey heap id s =
    let heap' := <[i := mkHeapNode (concept_id n) s]> heap in
    if Double.lt s (memory_strength n) then heapifyUp heap' i else heapifyDown heap' i.
Proof. unfold updateKey. by intros ->. Qed.

Lemma updateKey_absent heap id s :
  list_find (λ n, concept_id n = id) heap = None → updateKey heap id s = heap.
Proof. unfold updateKey. by intros ->. Qed.

Lemma insert_no_nan_at heap i n :
  no_nan heap → Double.not_nan (memory_strength n) → no_nan (<[i := n]> heap).
Proof. intros. by apply Forall_insert. Qed.

Lemma updateKey_is_heap heap id s :
  is_heap heap → no_nan heap → Double.not_nan s → is_heap (updateKey heap id s).
Proof.
  intros Hh Hn Hs. destruct (list_find (λ n, concept_id n = id) heap)
    as [[i n]|] eqn:Hfind; [|by rewrite updateKey_absent].
  rewrite (updateKey_found _ _ _ _ _ Hfind). cbn zeta.
  apply list_find_Some in Hfind as (Hi & _ & _).
  apply is_heap_from in Hh.
  assert (no_nan (<[i := mkHeapNode (concept_id n) s]> heap)) as Hn'
    by (by apply insert_no_nan_at).
  destruct (Double.lt s (memory_strength n)) eqn:Hlt.
  - apply double_lt_le in Hlt.
    apply heapifyUp_loop_heap; [done..|]. split.
    + intros q j p c Hqj Hne Hp Hc.
      rewrite list_lookup_insert_ne in Hc by done.
      apply list_lookup_insert_Some in Hp as [(Heq & <- & _)|[? Hp]].
      * subst q. apply double_le_trans with (memory_strength n); [done|].
        apply (Hh i j); auto. lia.
      * apply (Hh q j); auto. lia.
    + intros g j p c Hg Hj Hp Hc.
      rewrite list_lookup_insert_ne in Hp by (unfold child_of in Hg; lia).
      rewrite list_lookup_insert_ne in Hc by (unfold child_of in Hj; lia).
      apply node_le_trans with n; [apply (Hh g i)|apply (Hh i j)]; auto; lia.
  - apply double_not_lt_le in Hlt; [|done|exact (no_nan_lookup _ _ _ Hn Hi)].
    apply heapifyDown_heap; [done|]. split.
    + intros q j p c Hqj _ Hne Hp Hc.
      rewrite list_lookup_insert_ne in Hp by done.
      apply list_lookup_insert_Some in Hc as [(Heq & <- & _)|[? Hc]].
      * subst j. apply double_le_trans with (memory_strength n); [|done].
        apply (Hh q i); auto. lia.
      * apply (Hh q j); auto. lia.
    + intros g j p c Hg _ Hj Hp Hc.
      rewrite list_lookup_insert_ne in Hp by (unfold child_of in Hg; lia).
      rewrite list_lookup_insert_ne in Hc by (unfold child_of in Hj; lia).
      apply node_le_trans with n; [apply (Hh g i)|apply (Hh i j)]; auto; lia.
Qed.

(** *** rebuild *)

Lemma push_back_all (acc : list HeapNode) data :
  foldl (λ h item, h ++ [mkHeapNode item.1 item.2]) acc data = acc ++ map node_of data.
Proof.
  revert acc. induction data as [|item data IH]; intros acc; simpl.
  - by rewrite app_nil_r.
  - rewrite IH. by rewrite <- app_assoc.
Qed.

Lemma rebuild_eq heap data :
  rebuild heap data = rebuild_loop (length data / 2) (map node_of data).
Proof. unfold rebuild. rewrite push_back_all. simpl. by rewrite length_map. Qed.

Lemma rebuild_loop_perm k heap : rebuild_loop k heap ≡ₚ heap.
Proof.
  revert heap. induction k as [|k IH]; intros heap; simpl; [done|].
  etrans; [apply IH|apply heapifyDown_perm].
Qed.

Lemma rebuild_loop_heap k heap :
  heap_from k heap → no_nan heap → is_heap (rebuild_loop k heap).
Proof.
  revert heap. induction k as [|k IH]; intros heap Hh Hn; simpl.
  { by apply is_heap_from. }
  apply IH.
  - apply heapifyDown_rec_heap; [done..|]. split.
    + intros q j p c Hqj Hk Hne. apply (Hh q j); auto. lia.
    + intros g j p c Hg Hk. unfold child_of in Hg. lia.
  - eapply no_nan_perm; [apply heapifyDown_perm|done].
Qed.

Lemma rebuild_is_heap heap data :
  Forall (λ item, Double.not_nan item.2) data → is_heap (rebuild heap data).
Proof.
  intros Hd. rewrite rebuild_eq. apply rebuild_loop_heap.
  - intros q j p c Hqj Hk _ Hc. apply lookup_lt_Some in Hc.
    rewrite length_map in Hc. pose proof (half_bounds (length data)).
    unfold child_of in Hqj. lia.
  - unfold no_nan. apply Forall_map. exact Hd.
Qed.

(** *** NaN-freedom is kept *)

Lemma insert_no_nan heap id s :
  no_nan heap → Double.not_nan s → no_nan (insert heap id s).
Proof.
  intros Hn Hs. eapply no_nan_perm; [apply insert_perm_cons|].
  by apply Forall_cons.
Qed.


Lemma updateKey_no_nan heap id s :
  no_nan heap → Double.not_nan s → no_nan (updateKey heap id s).
Proof.
  intros Hn Hs. destruct (list_find (λ n, concept_id n = id) heap)
    as [[i n]|] eqn:Hfind; [|by rewrite updateKey_absent].
  rewrite (updateKey_found _ _ _ _ _ Hfind). cbn zeta.
  assert (no_nan (<[i := mkHeapNode (concept_id n) s]> heap)) as Hn'
    by (by apply insert_no_nan_at).
  destruct (Double.lt _ _);
    (eapply no_nan_perm; [apply heapifyUp_perm || apply heapifyDown_perm|done]).
Qed.

Lemma rebuild_no_nan heap data :
  Forall (λ item, Double.not_nan item.2) data → no_nan (rebuild heap data).
Proof.
  intros Hd. rewrite rebuild_eq. eapply no_nan_perm; [apply rebuild_loop_perm|].
  unfold no_nan. apply Forall_map. exact Hd.
Qed.

End HeapOperations.

(** *** What the queue contains *)
Section HeapContents.
Implicit Types heap : list HeapNode.

Lemma root_minimal heap r i x :
  is_heap heap → no_nan heap → heap !! 0 = Some r → heap !! i = Some x →
  node_le r x.
Proof.
  intros Hh Hn Hr. revert x. induction (lt_wf i) as [i _ IH]. intros x Hx.
  destruct (decide (i = 0)) as [->|Hi].
  - simplify_eq. apply double_le_refl. by eapply no_nan_lookup.
  - pose proof (parent_bounds i) as Hb.
    destruct (lookup_lt_is_Some_2 heap ((i - 1) / 2)) as [p Hp].
    { apply lookup_lt_Some in Hx. lia. }
    apply node_le_trans with p.
    + apply (IH ((i - 1) / 2)); [lia|done].
    + apply (Hh i); [lia|done..].
Qed.

Lemma updateKey_perm heap id s i n :
  list_find (λ n, concept_id n = id) heap = Some (i, n) →
  updateKey heap id s ≡ₚ mkHeapNode id s :: delete i heap.
Proof.
  intros Hfind. rewrite (updateKey_found _ _ _ _ _ Hfind). cbn zeta.
  apply list_find_Some in Hfind as (Hi & <- & _).
  etrans; [|apply (insert_perm _ _ n _ Hi)].
  destruct (Double.lt _ _); [apply heapifyUp_perm|apply heapifyDown_perm].
Qed.

Lemma updateKey_ids heap id s :
  concept_id <$> updateKey heap id s ≡ₚ concept_id <$> heap.
Proof.
  destruct (list_find (λ n, concept_id n = id) heap)
    as [[i n]|] eqn:Hfind; [|by rewrite updateKey_absent].
  rewrite (updateKey_perm _ _ _ _ _ Hfind).
  apply list_find_Some in Hfind as (Hi & <- & _).
  rewrite (delete_Permutation heap i n Hi) at 2. done.
Qed.


Lemma updateKey_elem heap id s :
  id ∈ concept_id <$> heap → mkHeapNode id s ∈ updateKey heap id s.
Proof.
  intros (n & Hid & Hn)%list_elem_of_fmap.
  destruct (list_find (λ n, concept_id n = id) heap) as [[i n']|] eqn:Hfind.
  - rewrite (updateKey_perm _ _ _ _ _ Hfind). left.
  - apply list_find_None in Hfind. rewrite Forall_forall in Hfind.
    by destruct (Hfind n Hn).
Qed.

Lemma updateKey_other_elem heap id s x :
  x ∈ heap → concept_id x ≠ id → x ∈ updateKey heap id s.
Proof.
  intros Hx Hne.
  destruct (list_find (λ n, concept_id n = id) heap)
    as [[i n]|] eqn:Hfind; [|by rewrite updateKey_absent].
  rewrite (updateKey_perm _ _ _ _ _ Hfind). right.
  apply list_find_Some in Hfind as (Hi & Hid & _).
  rewrite (delete_Permutation heap i n Hi) in Hx.
  apply elem_of_cons in Hx as [->|Hx]; [done|done].
Qed.

Lemma insert_length heap id s : length (insert heap id s) = S (length heap).
Proof. by rewrite insert_perm_cons. Qed.

Lemma rebuild_perm heap data : rebuild heap data ≡ₚ node_of <$> data.
Proof. rewrite rebuild_eq. apply rebuild_loop_perm. Qed.

Lemma rebuild_length heap data : length (rebuild heap data) = length data.
Proof. by rewrite rebuild_perm, length_fmap. Qed.

Lemma peekMin_root heap id :
  peekMin heap = Returned id ↔ ∃ r, heap !! 0 = Some r ∧ concept_id r = id.
Proof.
  unfold peekMin. destruct (heap !! 0) as [r|]; split.
  - intros [= <-]. eauto.
  - by intros (r' & [= <-] & <-).
  - done.
  - by intros (r' & ? & _).
Qed.

End HeapContents.

End MinHeapFacts.

(** ** The scans of [MemoryGraph] *)

Module MemoryGraphFacts.
Import MemoryGraph MinHeapFacts.

Section DoubleFacts.

Lemma double_le_not_lt (a b : float) : Double.le a b = true → Double.lt b a = false.
Proof.
  unfold Double.lt, Double.le.
  rewrite FloatAxioms.ltb_spec, FloatAxioms.leb_spec. unfold SFltb, SFleb.
  pose proof (MinHeapFacts.SFcompare_lt_gt (Prim2SF b) (Prim2SF a)) as Hs.
  destruct (SFcompare (Prim2SF a) (Prim2SF b)) as [[| |]|]; try done;
    destruct (SFcompare (Prim2SF b) (Prim2SF a)) as [[| |]|]; try done;
    intros _; by destruct Hs as [Hs _]; specialize (Hs eq_refl).
Qed.

Lemma double_min_le (x : float) : Double.le (Double.min 1.0 x) 1.0 = true.
Proof.
  unfold Double.min. destruct (Double.lt x 1.0) eqn:Hlt.
  - by apply MinHeapFacts.double_lt_le.
  - reflexivity.
Qed.

End DoubleFacts.

Section Scan.

Lemma lists_spec l x : lists l x = true ↔ x ∈ l.
Proof.
  induction l as [|y l IH]; simpl.
  - split; [done|]. by intros ?%elem_of_nil.
  - rewrite elem_of_cons. destruct (String.eqb_spec y x) as [->|Hne].
    + split; [by left|done].
    + rewrite IH. split; [by right|]. by intros [?|?].
Qed.

Lemma is_connected_boost_if concept_id concept other :
  (if is_connected concept_id concept other
   then Concept.boostConnected other else other)
  = boost_if concept_id (Concept.prerequisites concept) other.
Proof.
  unfold is_connected, boost_if.
  by destruct (lists (Concept.prerequisites other) concept_id).
Qed.

Lemma boost_if_connected concept other :
  connected concept other →
  boost_if (Concept.id concept) (Concept.prerequisites concept) other
  = Concept.boostConnected other.
Proof.
  unfold connected, boost_if. rewrite <- !lists_spec.
  intros [-> | ->]; [done|]. by rewrite orb_true_r.
Qed.

Lemma boost_if_not_connected concept other :
  ¬ connected concept other →
  boost_if (Concept.id concept) (Concept.prerequisites concept) other = other.
Proof.
  unfold connected, boost_if. rewrite <- !lists_spec. intros Hn.
  destruct (lists (Concept.prerequisites other) (Concept.id concept)) eqn:H1;
    [by destruct Hn; left|].
  destruct (lists (Concept.prerequisites concept) (Concept.id other)) eqn:H2;
    [by destruct Hn; right|]. done.
Qed.

Lemma boost_if_id concept_id prereqs other :
  Concept.id (boost_if concept_id prereqs other) = Concept.id other.
Proof. unfold boost_if. by destruct (_ || _). Qed.

Lemma boost_if_prerequisites concept_id prereqs other :
  Concept.prerequisites (boost_if concept_id prereqs other)
  = Concept.prerequisites other.
Proof. unfold boost_if. by destruct (_ || _). Qed.

(** One step of the scan, on the concepts. *)
Lemma boost_step_concepts concept_id cs pq k concept :
  cs !! concept_id = Some concept →
  (boost_step concept_id (cs, pq) k).1
  = alter (boost_if concept_id (Concept.prerequisites concept)) k cs.
Proof.
  intros Hc. unfold boost_step. cbn [fst snd]. rewrite Hc.
  apply map_eq. intros k'. rewrite lookup_alter.
  destruct (cs !! k) as [other|] eqn:Hk.
  - destruct (decide (k = k')) as [<-|Hne].
    + cbn [fmap option_fmap option_map].
      rewrite <- is_connected_boost_if.
      destruct (is_connected concept_id concept other); cbn [fst];
        by rewrite ?lookup_insert_eq.
    + destruct (is_connected concept_id concept other); cbn [fst];
        by rewrite ?lookup_insert_ne.
  - case_decide; simplify_eq; by rewrite ?Hk.
Qed.

Lemma boost_fold_concepts concept_id prereqs l cs pq :
  (∃ concept, cs !! concept_id = Some concept ∧
     Concept.prerequisites concept = prereqs) →
  (foldl (boost_step concept_id) (cs, pq) l).1
  = foldl (λ cs k, alter (boost_if concept_id prereqs) k cs) cs l.
Proof.
  revert cs pq. induction l as [|k l IH]; intros cs pq (concept & Hc & Hp);
    cbn [foldl]; [done|].
  destruct (boost_step concept_id (cs, pq) k) as [cs' pq'] eqn:Hstep.
  assert (cs' = alter (boost_if concept_id prereqs) k cs) as ->.
  { rewrite <- Hp, <- (boost_step_concepts _ _ pq _ _ Hc). by rewrite Hstep. }
  apply IH. rewrite lookup_alter. case_decide; simplify_eq.
  - rewrite Hc. eexists. split; [done|]. apply boost_if_prerequisites.
  - eauto.
Qed.

Lemma alter_fold_lookup (f : Concept.t → Concept.t) (l : list string)
    (cs : gmap string Concept.t) (k : string) :
  NoDup l →
  foldl (λ cs k, alter f k cs) cs l !! k
  = if decide (k ∈ l) then f <$> cs !! k else cs !! k.
Proof.
  revert cs. induction l as [|k0 l IH]; intros cs Hnd; cbn [foldl].
  - by rewrite decide_False by apply not_elem_of_nil.
  - apply NoDup_cons in Hnd as [Hk0 Hnd]. rewrite IH by done.
    rewrite lookup_alter.
    destruct (decide (k0 = k)) as [->|Hne].
    + rewrite (decide_False (P := k ∈ l)) by done.
      rewrite decide_True; [done|]. apply elem_of_cons. by left.
    + destruct (decide (k ∈ l)) as [Hin|Hnin].
      * rewrite decide_True; [done|]. apply elem_of_cons. by right.
      * rewrite decide_False; [done|]. rewrite elem_of_cons. by intros [?|?].
Qed.

Lemma is_connected_orb concept_id concept other :
  is_connected concept_id concept other
  = lists (Concept.prerequisites other) concept_id
    || lists (Concept.prerequisites concept) (Concept.id other).
Proof.
  unfold is_connected.
  by destruct (lists (Concept.prerequisites other) concept_id).
Qed.

Lemma ids_match_alter (f : Concept.t → Concept.t) k cs :
  (∀ c, Concept.id (f c) = Concept.id c) →
  ids_match cs → ids_match (alter f k cs).
Proof.
  intros Hf Hcs k' c'. rewrite lookup_alter. case_decide; [|by apply Hcs].
  subst k'. destruct (cs !! k) as [c|] eqn:Hk; [|done].
  intros [= <-]. rewrite Hf. by apply Hcs.
Qed.

Lemma boost_step_ids_match concept_id cs pq k :
  ids_match cs → ids_match (boost_step concept_id (cs, pq) k).1.
Proof.
  intros Hcs. destruct (cs !! concept_id) as [concept|] eqn:Hc.
  - rewrite (boost_step_concepts _ _ _ _ _ Hc).
    apply ids_match_alter; [|done]. intros c. apply boost_if_id.
  - unfold boost_step. cbn [fst]. rewrite Hc. by destruct (cs !! k).
Qed.

Lemma boost_step_queue_ids concept_id cs pq k :
  MinHeap.concept_id <$> (boost_step concept_id (cs, pq) k).2
  ≡ₚ MinHeap.concept_id <$> pq.
Proof.
  unfold boost_step. cbn [fst snd].
  destruct (cs !! k) as [other|]; [|done].
  destruct (cs !! concept_id) as [concept|]; [|done].
  destruct (is_connected concept_id concept other); [|done].
  apply MinHeapFacts.updateKey_ids.
Qed.

Lemma boost_fold_queue_ids concept_id l cs pq :
  MinHeap.concept_id <$> (foldl (boost_step concept_id) (cs, pq) l).2
  ≡ₚ MinHeap.concept_id <$> pq.
Proof.
  revert cs pq. induction l as [|k l IH]; intros cs pq; cbn [foldl]; [done|].
  destruct (boost_step concept_id (cs, pq) k) as [cs' pq'] eqn:Hstep.
  rewrite IH. change pq' with (cs', pq').2. rewrite <- Hstep.
  apply boost_step_queue_ids.
Qed.

Lemma boost_step_keeps_entry concept_id cs pq k x :
  ids_match cs → MinHeap.concept_id x ≠ k → x ∈ pq →
  x ∈ (boost_step concept_id (cs, pq) k).2.
Proof.
  intros Hcs Hne Hx. unfold boost_step. cbn [fst snd].
  destruct (cs !! k) as [other|] eqn:Hk; [|done].
  destruct (cs !! concept_id) as [concept|]; [|done].
  destruct (is_connected concept_id concept other); [|done]. cbn [snd].
  apply MinHeapFacts.updateKey_other_elem; [done|].
  change (Concept.id (Concept.boostConnected other)) with (Concept.id other).
  by rewrite (Hcs _ _ Hk).
Qed.

Lemma boost_fold_keeps_entry concept_id l cs pq x :
  ids_match cs → MinHeap.concept_id x ∉ l → x ∈ pq →
  x ∈ (foldl (boost_step concept_id) (cs, pq) l).2.
Proof.
  revert cs pq. induction l as [|k l IH]; intros cs pq Hcs Hnl Hx;
    cbn [foldl]; [done|].
  apply not_elem_of_cons in Hnl as [Hne Hnl].
  pose proof (boost_step_ids_match concept_id cs pq k Hcs) as Hcs'.
  pose proof (boost_step_keeps_entry concept_id cs pq k x Hcs Hne Hx) as Hx'.
  destruct (boost_step concept_id (cs, pq) k) as [cs' pq']. by apply IH.
Qed.

Lemma boost_fold_entry concept_id prereqs l cs pq k other :
  NoDup l → ids_match cs →
  (∃ concept, cs !! concept_id = Some concept ∧
     Concept.prerequisites concept = prereqs) →
  k ∈ l → cs !! k = Some other →
  lists (Concept.prerequisites other) concept_id
    || lists prereqs (Concept.id other) = true →
  k ∈ MinHeap.concept_id <$> pq →
  MinHeap.mkHeapNode k (Concept.memory_strength (Concept.boostConnected other))
    ∈ (foldl (boost_step concept_id) (cs, pq) l).2.
Proof.
  revert cs pq. induction l as [|k0 l IH];
    intros cs pq Hnd Hcs (concept & Hc & Hp) Hkl Hk Hconn Hpq; cbn [foldl].
  { by apply elem_of_nil in Hkl. }
  apply NoDup_cons in Hnd as [Hk0 Hnd].
  pose proof (boost_step_ids_match concept_id cs pq k0 Hcs) as Hcs'.
  pose proof (boost_step_queue_ids concept_id cs pq k0) as Hids.
  pose proof (boost_step_concepts concept_id cs pq k0 concept Hc) as Hstep.
  destruct (decide (k = k0)) as [->|Hne].
  - assert (MinHeap.mkHeapNode k0
              (Concept.memory_strength (Concept.boostConnected other))
            ∈ (boost_step concept_id (cs, pq) k0).2) as Hin.
    { unfold boost_step. cbn [fst snd]. rewrite Hk, Hc.
      rewrite is_connected_orb, Hp, Hconn. cbn [snd].
      change (Concept.id (Concept.boostConnected other)) with (Concept.id other).
      rewrite (Hcs _ _ Hk). by apply MinHeapFacts.updateKey_elem. }
    destruct (boost_step concept_id (cs, pq) k0) as [cs' pq'].
    by apply boost_fold_keeps_entry.
  - apply elem_of_cons in Hkl as [?|Hkl]; [done|].
    destruct (boost_step concept_id (cs, pq) k0) as [cs' pq'].
    cbn [fst snd] in *. subst cs'. apply IH; try done.
    + rewrite lookup_alter. case_decide; simplify_eq.
      * rewrite Hc. eexists. split; [done|]. apply boost_if_prerequisites.
      * eauto.
    + by rewrite lookup_alter_ne.
    + by rewrite Hids.
Qed.

Lemma boost_fold_keeps_unconnected concept_id prereqs l cs pq x other :
  ids_match cs →
  (∃ concept, cs !! concept_id = Some concept ∧
     Concept.prerequisites concept = prereqs) →
  cs !! MinHeap.concept_id x = Some other →
  lists (Concept.prerequisites other) concept_id
    || lists prereqs (Concept.id other) = false →
  x ∈ pq → x ∈ (foldl (boost_step concept_id) (cs, pq) l).2.
Proof.
  revert cs pq. induction l as [|k0 l IH];
    intros cs pq Hcs (concept & Hc & Hp) Hk Hconn Hx; cbn [foldl]; [done|].
  pose proof (boost_step_ids_match concept_id cs pq k0 Hcs) as Hcs'.
  pose proof (boost_step_concepts concept_id cs pq k0 concept Hc) as Hstep.
  assert (x ∈ (boost_step concept_id (cs, pq) k0).2) as Hx'.
  { destruct (decide (MinHeap.concept_id x = k0)) as [<-|Hne].
    - unfold boost_step. cbn [fst snd]. rewrite Hk, Hc.
      by rewrite is_connected_orb, Hp, Hconn.
    - by apply boost_step_keeps_entry. }
  destruct (boost_step concept_id (cs, pq) k0) as [cs' pq'].
  cbn [fst snd] in *. subst cs'.
  apply (IH _ _ Hcs'); [| |done..].
  - rewrite lookup_alter. case_decide; simplify_eq.
    + rewrite Hc. eexists. split; [done|]. apply boost_if_prerequisites.
    + eauto.
  - rewrite lookup_alter. case_decide; [|done]. subst k0. rewrite Hk.
    cbn [fmap option_fmap option_map]. unfold boost_if. by rewrite Hp, Hconn.
Qed.

End Scan.

Section Traversal.

Variable traversal : gmap string Concept.t → list string.
Hypothesis traversal_keys : ∀ m, traversal m ≡ₚ (map_to_list m).*1.

Lemma traversal_NoDup m : NoDup (traversal m).
Proof. rewrite traversal_keys. apply NoDup_fst_map_to_list. Qed.

Lemma elem_of_traversal m k : k ∈ traversal m ↔ is_Some (m !! k).
Proof.
  rewrite traversal_keys, list_elem_of_fmap. split.
  - intros ([k' c] & -> & Hin). apply elem_of_map_to_list in Hin. eauto.
  - intros [c Hc]. exists (k, c). split; [done|]. by apply elem_of_map_to_list.
Qed.

Lemma alter_traversal (f : Concept.t → Concept.t) m :
  foldl (λ cs k, alter f k cs) m (traversal m) = f <$> m.
Proof.
  apply map_eq. intros k.
  rewrite alter_fold_lookup by apply traversal_NoDup. rewrite lookup_fmap.
  case_decide as Hk; [done|].
  rewrite elem_of_traversal in Hk. apply eq_None_not_Some in Hk. by rewrite Hk.
Qed.

Lemma reviseConcept_concepts g concept_id boost target :
  concepts g !! concept_id = Some target →
  concepts (reviseConcept traversal g concept_id boost).1
  = boost_if concept_id (Concept.prerequisites target)
      <$> <[concept_id := Concept.revise target (current_day g) boost]> (concepts g).
Proof.
  intros Hc. unfold reviseConcept. rewrite Hc. cbn [fst concepts].
  rewrite (boost_fold_concepts _ (Concept.prerequisites target)).
  - apply alter_traversal.
  - rewrite lookup_insert_eq. eauto.
Qed.

Lemma reviseConcept_returns g concept_id boost target :
  concepts g !! concept_id = Some target →
  (reviseConcept traversal g concept_id boost).2 = Returned ().
Proof. intros Hc. unfold reviseConcept. by rewrite Hc. Qed.

Lemma reviseConcept_queue_ids g concept_id boost :
  MinHeap.concept_id <$> priority_queue (reviseConcept traversal g concept_id boost).1
  ≡ₚ MinHeap.concept_id <$> priority_queue g.
Proof.
  unfold reviseConcept. destruct (concepts g !! concept_id); [|done].
  cbn [fst priority_queue]. rewrite boost_fold_queue_ids.
  apply MinHeapFacts.updateKey_ids.
Qed.

Lemma ids_match_revised g concept_id boost target :
  ids_match (concepts g) → concepts g !! concept_id = Some target →
  ids_match (<[concept_id := Concept.revise target (current_day g) boost]> (concepts g)).
Proof. intros Hids Hc. apply map_Forall_insert_2; [|done]. exact (Hids _ _ Hc). Qed.

Lemma reviseConcept_lookup_other g concept_id boost target k other :
  concepts g !! concept_id = Some target →
  concepts g !! k = Some other → k ≠ concept_id →
  concepts (reviseConcept traversal g concept_id boost).1 !! k
  = Some (boost_if concept_id (Concept.prerequisites target) other).
Proof.
  intros Hc Hk Hne. rewrite (reviseConcept_concepts _ _ _ _ Hc).
  by rewrite lookup_fmap, lookup_insert_ne, Hk.
Qed.

Lemma reviseConcept_entry g concept_id boost target k other :
  ids_match (concepts g) →
  concepts g !! concept_id = Some target →
  concepts g !! k = Some other → k ≠ concept_id →
  lists (Concept.prerequisites other) concept_id
    || lists (Concept.prerequisites target) (Concept.id other) = true →
  k ∈ MinHeap.concept_id <$> priority_queue g →
  MinHeap.mkHeapNode k (Concept.memory_strength (Concept.boostConnected other))
    ∈ priority_queue (reviseConcept traversal g concept_id boost).1.
Proof.
  intros Hids Hc Hk Hne Hconn Hpq. unfold reviseConcept. rewrite Hc.
  cbn [fst priority_queue].
  apply (boost_fold_entry _ (Concept.prerequisites target)).
  - apply traversal_NoDup.
  - by apply ids_match_revised.
  - rewrite lookup_insert_eq. eauto.
  - apply elem_of_traversal. rewrite lookup_insert_ne by done. eauto.
  - by rewrite lookup_insert_ne.
  - done.
  - by rewrite MinHeapFacts.updateKey_ids.
Qed.

Lemma reviseConcept_keeps_unconnected g concept_id boost target x other :
  ids_match (concepts g) →
  concepts g !! concept_id = Some target →
  concepts g !! MinHeap.concept_id x = Some other →
  MinHeap.concept_id x ≠ concept_id →
  lists (Concept.prerequisites other) concept_id
    || lists (Concept.prerequisites target) (Concept.id other) = false →
  x ∈ priority_queue g →
  x ∈ priority_queue (reviseConcept traversal g concept_id boost).1.
Proof.
  intros Hids Hc Hk Hne Hconn Hx. unfold reviseConcept. rewrite Hc.
  cbn [fst priority_queue].
  apply (boost_fold_keeps_unconnected _ (Concept.prerequisites target) _ _ _ _ other).
  - by apply ids_match_revised.
  - rewrite lookup_insert_eq. eauto.
  - by rewrite lookup_insert_ne.
  - done.
  - by apply MinHeapFacts.updateKey_other_elem.
Qed.

Variable exp : float → float.

Lemma updateMemoryStrengths_concepts g :
  concepts (updateMemoryStrengths traversal exp g)
  = (λ c, Concept.updateMemoryStrength exp c (current_day g) (lambda g))
      <$> concepts g.
Proof. unfold updateMemoryStrengths. cbn. apply alter_traversal. Qed.

Lemma queue_data_keys cs : (queue_data traversal cs).*1 = traversal cs.
Proof.
  unfold queue_data.
  assert (∀ k, k ∈ traversal cs → is_Some (cs !! k)) as Hall
    by (intros k; apply elem_of_traversal).
  induction (traversal cs) as [|k l IH]; [done|]. cbn.
  destruct (Hall k) as [c Hc]; [by left|]. rewrite Hc. cbn.
  f_equal. apply IH. intros k' ?. apply Hall. by right.
Qed.

End Traversal.

(** ** The queue and the map stay in step *)

Section Sync.

Lemma entry_of_insert (cs : gmap string Concept.t) k c :
  cs !! k = None →
  entry_of <$> map_to_list (<[k := c]> cs)
  ≡ₚ entry_of (k, c) :: (entry_of <$> map_to_list cs).
Proof. intros Hk. by rewrite map_to_list_insert. Qed.

Lemma entry_of_delete (cs : gmap string Concept.t) k c :
  cs !! k = Some c →
  entry_of <$> map_to_list cs
  ≡ₚ entry_of (k, c) :: (entry_of <$> map_to_list (delete k cs)).
Proof. intros Hk. by rewrite <- (map_to_list_delete cs k c Hk). Qed.

Lemma entry_of_replace (cs : gmap string Concept.t) k c c' :
  cs !! k = Some c →
  entry_of <$> map_to_list (<[k := c']> cs)
  ≡ₚ entry_of (k, c') :: (entry_of <$> map_to_list (delete k cs)).
Proof.
  intros Hk. rewrite <- insert_delete_eq.
  apply entry_of_insert, lookup_delete_eq.
Qed.

(** In a synced queue the entry [updateKey] finds is the concept's. *)
Lemma synced_find (cs : gmap string Concept.t) (pq : MinHeap.t) k c :
  pq ≡ₚ entry_of <$> map_to_list cs → cs !! k = Some c →
  ∃ i, list_find (λ n, MinHeap.concept_id n = k) pq = Some (i, entry_of (k, c)).
Proof.
  intros Hpq Hk.
  assert (entry_of (k, c) ∈ pq) as Hin.
  { rewrite Hpq. apply list_elem_of_fmap. exists (k, c). split; [done|].
    by apply elem_of_map_to_list. }
  destruct (list_find (λ n, MinHeap.concept_id n = k) pq) as [[i n]|] eqn:Hfind.
  - exists i. f_equal. f_equal.
    apply list_find_Some in Hfind as (Hi & Hid & _).
    assert (n ∈ pq) as Hn by (by eapply list_elem_of_lookup_2).
    rewrite Hpq in Hn. apply list_elem_of_fmap in Hn as ([k' c''] & -> & Hkc).
    apply elem_of_map_to_list in Hkc. cbn in Hid. subst k'.
    by simplify_eq.
  - apply list_find_None in Hfind. rewrite Forall_forall in Hfind.
    by destruct (Hfind _ Hin).
Qed.

Lemma updateKey_synced (cs : gmap string Concept.t) (pq : MinHeap.t) k c c' :
  pq ≡ₚ entry_of <$> map_to_list cs → cs !! k = Some c →
  MinHeap.updateKey pq k (Concept.memory_strength c')
  ≡ₚ entry_of <$> map_to_list (<[k := c']> cs).
Proof.
  intros Hpq Hk. destruct (synced_find cs pq k c Hpq Hk) as [i Hfind].
  rewrite (updateKey_perm _ _ _ _ _ Hfind), (entry_of_replace _ _ _ _ Hk).
  apply perm_skip. apply list_find_Some in Hfind as (Hi & _ & _).
  apply (Permutation_cons_inv (a := entry_of (k, c))).
  by rewrite <- (delete_Permutation pq i _ Hi), <- entry_of_delete.
Qed.

Lemma boost_step_synced concept_id cs pq k :
  ids_match cs → pq ≡ₚ entry_of <$> map_to_list cs →
  (boost_step concept_id (cs, pq) k).2
  ≡ₚ entry_of <$> map_to_list (boost_step concept_id (cs, pq) k).1.
Proof.
  intros Hids Hpq. unfold boost_step. cbn [fst snd].
  destruct (cs !! k) as [other|] eqn:Hk; [|done].
  destruct (cs !! concept_id) as [concept|]; [|done].
  destruct (is_connected concept_id concept other); [|done]. cbn [fst snd].
  change (Concept.id (Concept.boostConnected other)) with (Concept.id other).
  rewrite (Hids _ _ Hk). by apply (updateKey_synced cs pq k other).
Qed.

Lemma boost_fold_synced concept_id l cs pq :
  ids_match cs → pq ≡ₚ entry_of <$> map_to_list cs →
  (foldl (boost_step concept_id) (cs, pq) l).2
  ≡ₚ entry_of <$> map_to_list (foldl (boost_step concept_id) (cs, pq) l).1.
Proof.
  revert cs pq. induction l as [|k l IH]; intros cs pq Hids Hpq; cbn [foldl];
    [done|].
  pose proof (boost_step_ids_match concept_id cs pq k Hids) as Hids'.
  pose proof (boost_step_synced concept_id cs pq k Hids Hpq) as Hpq'.
  destruct (boost_step concept_id (cs, pq) k) as [cs' pq']. by apply IH.
Qed.

Lemma omap_lookup_pairs (cs : gmap string Concept.t) (l : list (string * Concept.t)) :
  (∀ k c, (k, c) ∈ l → cs !! k = Some c) →
  omap (λ k, (λ c, (k, Concept.memory_strength c)) <$> cs !! k) l.*1
  = (λ kc, (kc.1, Concept.memory_strength kc.2)) <$> l.
Proof.
  induction l as [|[k c] l IH]; intros Hl; [done|]. cbn.
  rewrite (Hl k c) by left. cbn. f_equal. apply IH. intros k' c' ?.
  apply Hl. by right.
Qed.

Lemma double_min_not_nan (x : float) : Double.not_nan (Double.min 1.0 x).
Proof.
  unfold Double.min. destruct (Double.lt x 1.0) eqn:Hlt; [|reflexivity].
  by apply double_lt_not_nan in Hlt as [? _].
Qed.

Lemma boost_step_heap concept_id cs pq k :
  MinHeap.is_heap pq → MinHeap.no_nan pq →
  MinHeap.is_heap (boost_step concept_id (cs, pq) k).2
  ∧ MinHeap.no_nan (boost_step concept_id (cs, pq) k).2.
Proof.
  intros Hh Hn. unfold boost_step. cbn [fst snd].
  destruct (cs !! k) as [other|]; [|done].
  destruct (cs !! concept_id) as [concept|]; [|done].
  destruct (is_connected concept_id concept other); [|done]. cbn [snd].
  split; [apply updateKey_is_heap|apply updateKey_no_nan]; try done;
    apply double_min_not_nan.
Qed.

Lemma boost_fold_heap concept_id l cs pq :
  MinHeap.is_heap pq → MinHeap.no_nan pq →
  MinHeap.is_heap (foldl (boost_step concept_id) (cs, pq) l).2
  ∧ MinHeap.no_nan (foldl (boost_step concept_id) (cs, pq) l).2.
Proof.
  revert cs pq. induction l as [|k l IH]; intros cs pq Hh Hn; cbn [foldl];
    [done|].
  destruct (boost_step_heap concept_id cs pq k Hh Hn) as [Hh' Hn'].
  destruct (boost_step concept_id (cs, pq) k) as [cs' pq']. by apply IH.
Qed.

Lemma synced_size g : synced g → MinHeap.size (priority_queue g) = size (concepts g).
Proof.
  unfold synced, MinHeap.size. intros ->.
  by rewrite length_fmap, length_map_to_list.
Qed.

Lemma synced_covered g : synced g → covered g.
Proof.
  unfold synced. intros Hs k [c Hk]. rewrite Hs, <- list_fmap_compose.
  apply list_elem_of_fmap. exists (k, c). split; [done|].
  by apply elem_of_map_to_list.
Qed.

Lemma getNextRevisionRecommendation_returns g :
  ∃ id, getNextRevisionRecommendation g = Returned id.
Proof.
  unfold getNextRevisionRecommendation, MinHeap.isEmpty, MinHeap.peekMin.
  destruct (priority_queue g) as [|root heap]; eauto.
Qed.

Lemma recommendation_of_empty_graph g :
  synced g → concepts g = ∅ → getNextRevisionRecommendation g = Returned ""%string.
Proof.
  unfold synced. intros Hs Hempty. unfold getNextRevisionRecommendation.
  rewrite Hempty, map_to_list_empty in Hs. by apply Permutation_nil_r in Hs as ->.
Qed.

Lemma recommendation_is_weakest g id :
  synced g → MinHeap.is_heap (priority_queue g) → MinHeap.no_nan (priority_queue g) →
  concepts g ≠ ∅ →
  getNextRevisionRecommendation g = Returned id →
  ∃ c0, concepts g !! id = Some c0 ∧
    ∀ k c, concepts g !! k = Some c →
      Double.le (Concept.memory_strength c0) (Concept.memory_strength c) = true.
Proof.
  unfold synced. intros Hs Hh Hn Hne. unfold getNextRevisionRecommendation.
  destruct (priority_queue g) as [|root heap].
  { symmetry in Hs. apply Permutation_nil_r in Hs.
    by apply fmap_nil_inv, map_to_list_empty_iff in Hs. }
  cbn. intros [= <-].
  assert (root ∈ entry_of <$> map_to_list (concepts g)) as Hroot
    by (rewrite <- Hs; left).
  apply list_elem_of_fmap in Hroot as ([k0 c0] & -> & Hk0).
  apply elem_of_map_to_list in Hk0. exists c0. split; [done|].
  intros k c Hk.
  assert (entry_of (k, c) ∈ entry_of (k0, c0) :: heap) as Hin.
  { rewrite Hs. apply list_elem_of_fmap. exists (k, c). split; [done|].
    by apply elem_of_map_to_list. }
  apply list_elem_of_lookup in Hin as [i Hi].
  by apply (root_minimal (entry_of (k0, c0) :: heap) (entry_of (k0, c0)) i
              (entry_of (k, c))).
Qed.

End Sync.

Section Invariants.

Variable traversal : gmap string Concept.t → list string.
Hypothesis traversal_keys : ∀ m, traversal m ≡ₚ (map_to_list m).*1.
Variable exp : float → float.

Lemma queue_data_entries cs :
  MinHeap.node_of <$> queue_data traversal cs ≡ₚ entry_of <$> map_to_list cs.
Proof.
  unfold queue_data. rewrite (traversal_keys cs).
  rewrite omap_lookup_pairs by (intros k c; apply elem_of_map_to_list).
  by rewrite <- list_fmap_compose.
Qed.

Lemma insertConcept_synced g name id category w prereqs :
  concepts g !! id = None → synced g →
  synced (insertConcept g name id category w prereqs).
Proof.
  intros Hfresh Hs. unfold synced, insertConcept. cbn [priority_queue concepts].
  rewrite insert_perm_cons, (entry_of_insert _ _ _ Hfresh). by apply perm_skip.
Qed.

Lemma updateMemoryStrengths_synced g : synced (updateMemoryStrengths traversal exp g).
Proof.
  unfold synced, updateMemoryStrengths, rebuildPriorityQueue.
  cbn [priority_queue concepts]. rewrite rebuild_perm. apply queue_data_entries.
Qed.

Lemma reviseConcept_synced g concept_id boost :
  ids_match (concepts g) → synced g →
  synced (reviseConcept traversal g concept_id boost).1.
Proof.
  intros Hids Hs. unfold synced, reviseConcept.
  destruct (concepts g !! concept_id) as [target|] eqn:Hc; [|done].
  cbn [fst priority_queue concepts]. apply boost_fold_synced.
  - by apply ids_match_revised.
  - by apply (updateKey_synced _ _ _ target).
Qed.

Lemma queue_data_no_nan g :
  admissible exp g UpdateMemoryStrengths →
  Forall (λ item, Double.not_nan item.2)
    (queue_data traversal (concepts (updateMemoryStrengths traversal exp g))).
Proof.
  intros Hadm. apply Forall_forall. intros item Hitem.
  apply list_elem_of_omap in Hitem as (k & _ & Hk).
  rewrite (updateMemoryStrengths_concepts _ traversal_keys), lookup_fmap in Hk.
  destruct (concepts g !! k) as [c|] eqn:Hc; [|done].
  cbn in Hk. injection Hk as <-. exact (Hadm k c Hc).
Qed.

Lemma updateMemoryStrengths_well_formed g :
  ids_match (concepts g) →
  admissible exp g UpdateMemoryStrengths →
  well_formed (updateMemoryStrengths traversal exp g).
Proof.
  intros Hids Hadm. split; [|split; [apply updateMemoryStrengths_synced|]].
  - rewrite (updateMemoryStrengths_concepts _ traversal_keys).
    intros k c'. rewrite lookup_fmap.
    destruct (concepts g !! k) as [c|] eqn:Hc; [|done].
    intros [= <-]. exact (Hids k c Hc).
  - pose proof (queue_data_no_nan g Hadm) as Hdata.
    split; [by apply rebuild_is_heap|by apply rebuild_no_nan].
Qed.

Lemma reviseConcept_ids_match g concept_id boost :
  ids_match (concepts g) →
  ids_match (concepts (reviseConcept traversal g concept_id boost).1).
Proof.
  intros Hids. destruct (concepts g !! concept_id) as [target|] eqn:Hc.
  - rewrite (reviseConcept_concepts _ traversal_keys _ _ _ _ Hc).
    intros k c'. rewrite lookup_fmap.
    destruct (_ !! k) as [c|] eqn:Hk; [|done]. intros [= <-].
    rewrite boost_if_id. exact (ids_match_revised g concept_id boost target Hids Hc k c Hk).
  - unfold reviseConcept. by rewrite Hc.
Qed.

Lemma reviseConcept_well_formed g concept_id boost :
  well_formed g → well_formed (reviseConcept traversal g concept_id boost).1.
Proof.
  intros (Hids & Hs & Hh & Hn).
  split; [by apply reviseConcept_ids_match|].
  split; [by apply reviseConcept_synced|].
  unfold reviseConcept. destruct (concepts g !! concept_id) as [target|]; [|done].
  cbn [fst priority_queue]. apply boost_fold_heap.
  - apply updateKey_is_heap; [done..|apply double_min_not_nan].
  - apply updateKey_no_nan; [done|apply double_min_not_nan].
Qed.

Lemma insertConcept_well_formed g name id category w prereqs :
  well_formed g → admissible exp g (InsertConcept name id category w prereqs) →
  well_formed (insertConcept g name id category w prereqs).
Proof.
  intros (Hids & Hs & Hh & Hn) [Hfresh Hw].
  split; [by apply map_Forall_insert_2|].
  split; [by apply insertConcept_synced|].
  split; [by apply insert_is_heap|by apply insert_no_nan].
Qed.

Theorem well_formed_step g o :
  well_formed g → admissible exp g o → well_formed (step traversal exp g o).
Proof.
  intros Hwf Hadm. destruct o; cbn [step].
  - by apply insertConcept_well_formed.
  - apply updateMemoryStrengths_well_formed; [apply Hwf|done].
  - by apply reviseConcept_well_formed.
  - apply updateMemoryStrengths_well_formed; [apply Hwf|done].
  - done.
Qed.

Lemma well_formed_new decay_rate : well_formed (new decay_rate).
Proof.
  split; [apply map_Forall_empty|]. split; [by unfold synced; cbn; rewrite map_to_list_empty|].
  split; [|by constructor]. intros i p c _ Hp. cbn [priority_queue new] in Hp.
  by rewrite lookup_nil in Hp.
Qed.

Theorem admissible_run_well_formed decay_rate ops :
  admissible_run traversal exp (new decay_rate) ops →
  well_formed (run traversal exp decay_rate ops).
Proof.
  unfold run. generalize (well_formed_new decay_rate).
  generalize (new decay_rate). induction ops as [|o ops IH]; intros g Hwf Hadm;
    cbn [foldl]; [done|].
  destruct Hadm as [Ho Hops]. apply IH; [by apply well_formed_step|done].
Qed.

(** Whatever was run, every concept is stored under its own id and has an
    entry in the queue. *)
Lemma step_ids_match g o :
  ids_match (concepts g) → ids_match (concepts (step traversal exp g o)).
Proof.
  intros Hids. destruct o; cbn [step].
  - by apply map_Forall_insert_2.
  - rewrite (updateMemoryStrengths_concepts _ traversal_keys).
    intros k c'. rewrite lookup_fmap.
    destruct (concepts g !! k) as [c|] eqn:Hc; [|done].
    intros [= <-]. exact (Hids k c Hc).
  - by apply reviseConcept_ids_match.
  - unfold simulateTimePassage.
    rewrite (updateMemoryStrengths_concepts _ traversal_keys).
    intros k c'. rewrite lookup_fmap. cbn [concepts].
    destruct (concepts g !! k) as [c|] eqn:Hc; [|done].
    intros [= <-]. exact (Hids k c Hc).
  - done.
Qed.

Lemma step_covered g o : covered g → covered (step traversal exp g o).
Proof.
  intros Hcov. destruct o; cbn [step].
  - intros k. unfold insertConcept. cbn [concepts priority_queue].
    rewrite insert_perm_cons, fmap_cons. cbn [MinHeap.concept_id].
    rewrite lookup_insert_is_Some, elem_of_cons.
    intros [->|[_ Hk]]; [by left|right; by apply Hcov].
  - apply synced_covered, updateMemoryStrengths_synced.
  - intros k. rewrite reviseConcept_queue_ids.
    destruct (concepts g !! concept_id) as [target|] eqn:Hc.
    + rewrite (reviseConcept_concepts _ traversal_keys _ _ _ _ Hc).
      rewrite lookup_fmap, fmap_is_Some, lookup_insert_is_Some.
      intros [<-|[_ Hk]]; apply Hcov; eauto.
    + unfold reviseConcept. rewrite Hc. apply Hcov.
  - apply synced_covered, updateMemoryStrengths_synced.
  - done.
Qed.

Theorem reachable_ids_match_covered g :
  reachable traversal exp g → ids_match (concepts g) ∧ covered g.
Proof.
  intros (decay_rate & ops & ->). unfold run.
  assert (ids_match (concepts (new decay_rate)) ∧ covered (new decay_rate)) as Hnew.
  { split; [apply map_Forall_empty|]. intros k [c Hk]. cbn [concepts new] in Hk.
    by rewrite lookup_empty in Hk. }
  revert Hnew. generalize (new decay_rate).
  induction ops as [|o ops IH]; intros g [Hids Hcov]; cbn [foldl]; [done|].
  apply IH. split; [by apply step_ids_match|by apply step_covered].
Qed.

(** The sizes of the queue and of the map, operation by operation. *)
Lemma insertConcept_sizes g name id category w prereqs :
  MinHeap.size (priority_queue (insertConcept g name id category w prereqs))
  = S (MinHeap.size (priority_queue g))
  ∧ getTotalConcepts (insertConcept g name id category w prereqs)
    = match concepts g !! id with
      | Some _ => getTotalConcepts g
      | None => S (getTotalConcepts g)
      end.
Proof.
  unfold insertConcept, MinHeap.size, getTotalConcepts.
  cbn [priority_queue concepts]. split; [apply insert_length|].
  rewrite map_size_insert. by destruct (concepts g !! id).
Qed.

Lemma updateMemoryStrengths_sizes g :
  MinHeap.size (priority_queue (updateMemoryStrengths traversal exp g))
  = getTotalConcepts (updateMemoryStrengths traversal exp g).
Proof. apply synced_size, updateMemoryStrengths_synced. Qed.

Lemma reviseConcept_sizes g concept_id boost :
  MinHeap.size (priority_queue (reviseConcept traversal g concept_id boost).1)
  = MinHeap.size (priority_queue g)
  ∧ getTotalConcepts (reviseConcept traversal g concept_id boost).1
    = getTotalConcepts g.
Proof.
  split.
  - unfold MinHeap.size.
    rewrite <- (length_fmap MinHeap.concept_id), reviseConcept_queue_ids.
    apply length_fmap.
  - unfold getTotalConcepts.
    destruct (concepts g !! concept_id) as [target|] eqn:Hc.
    + rewrite (reviseConcept_concepts _ traversal_keys _ _ _ _ Hc).
      rewrite map_size_fmap. apply map_size_insert_Some. eauto.
    + unfold reviseConcept. by rewrite Hc.
Qed.

(** X18.  On a run from the constructor in which every [insertConcept] uses
    an id not yet present and every weight and refreshed strength is a
    number, the id [getNextRevisionRecommendation] returns for a graph that
    is not empty is the id of a concept of the graph whose strength is less
    than or equal to that of every concept: the recommendation is a weakest
    concept. *)
Theorem recommendation_is_weakest_on_admissible_runs decay_rate ops id :
  admissible_run traversal exp (new decay_rate) ops →
  concepts (run traversal exp decay_rate ops) ≠ ∅ →
  getNextRevisionRecommendation (run traversal exp decay_rate ops) = Returned id →
  ∃ c0, concepts (run traversal exp decay_rate ops) !! id = Some c0 ∧
    ∀ k c, concepts (run traversal exp decay_rate ops) !! k = Some c →
      Double.le (Concept.memory_strength c0) (Concept.memory_strength c) = true.
Proof.
  intros Hadm Hne Hrec.
  destruct (admissible_run_well_formed decay_rate ops Hadm) as (_ & Hs & Hh & Hn).
  by apply recommendation_is_weakest.
Qed.

End Invariants.

(** ** The queue has no entry for an unknown concept *)

Section Known.

Variable traversal : gmap string Concept.t → list string.
Hypothesis traversal_keys : ∀ m, traversal m ≡ₚ (map_to_list m).*1.
Variable exp : float → float.

Lemma known_of_synced g : synced g → known g.
Proof.
  unfold synced, known. intros Hs id. rewrite Hs, <- list_fmap_compose.
  intros ([k c] & -> & Hkc)%list_elem_of_fmap.
  apply elem_of_map_to_list in Hkc. cbn. eauto.
Qed.

Lemma step_known g o : known g → known (step traversal exp g o).
Proof.
  intros Hknown. destruct o; cbn [step].
  - intros k. unfold insertConcept. cbn [concepts priority_queue].
    rewrite insert_perm_cons, fmap_cons. cbn [MinHeap.concept_id].
    rewrite lookup_insert_is_Some, elem_of_cons.
    intros [->|Hk]; [by left|].
    destruct (decide (id = k)); [by left|right]. split; [done|by apply Hknown].
  - apply known_of_synced, updateMemoryStrengths_synced. done.
  - intros k. rewrite reviseConcept_queue_ids. intros Hk%Hknown.
    destruct (concepts g !! concept_id) as [target|] eqn:Hc.
    + rewrite (reviseConcept_concepts _ traversal_keys _ _ _ _ Hc).
      rewrite lookup_fmap, fmap_is_Some, lookup_insert_is_Some.
      destruct (decide (concept_id = k)); [by left|by right].
    + unfold reviseConcept. by rewrite Hc.
  - apply known_of_synced, updateMemoryStrengths_synced. done.
  - done.
Qed.

Theorem reachable_known g : reachable traversal exp g → known g.
Proof.
  intros (decay_rate & ops & ->). unfold run.
  assert (known (new decay_rate)) as Hnew.
  { intros k Hk. cbn [priority_queue new] in Hk. by apply elem_of_nil in Hk. }
  revert Hnew. generalize (new decay_rate).
  induction ops as [|o ops IH]; intros g Hknown; cbn [foldl]; [done|].
  by apply IH, step_known.
Qed.

(** With no concept the recommendation is empty, in every reachable state. *)
Theorem recommendation_of_reachable_empty_graph g :
  reachable traversal exp g → concepts g = ∅ →
  getNextRevisionRecommendation g = Returned ""%string.
Proof.
  intros Hknown%reachable_known Hempty. unfold getNextRevisionRecommendation.
  destruct (priority_queue g) as [|root heap] eqn:Hpq; [done|].
  destruct (Hknown (MinHeap.concept_id root)) as [c Hc].
  - rewrite Hpq. left.
  - by rewrite Hempty, lookup_empty in Hc.
Qed.

End Known.

End MemoryGraphFacts.

(** ** The entries of one id in the queue during [reviseConcept] *)

Section NeighbourEntries.
Import MemoryGraph MinHeapFacts MemoryGraphFacts.

Lemma entries_of_perm (k : string) (pq pq' : MinHeap.t) :
  pq ≡ₚ pq' → entries_of k pq ≡ₚ entries_of k pq'.
Proof. intros Hp. unfold entries_of. by rewrite Hp. Qed.

Lemma entries_of_cons_other (k : string) (x : MinHeap.HeapNode) (pq : MinHeap.t) :
  MinHeap.concept_id x ≠ k → entries_of k (x :: pq) = entries_of k pq.
Proof. intros Hx. unfold entries_of. by rewrite filter_cons, decide_False. Qed.

Lemma entries_of_cons_same (k : string) (x : MinHeap.HeapNode) (pq : MinHeap.t) :
  MinHeap.concept_id x = k → entries_of k (x :: pq) = x :: entries_of k pq.
Proof. intros Hx. unfold entries_of. by rewrite filter_cons, decide_True. Qed.

Lemma elem_of_entries_of (k : string) (x : MinHeap.HeapNode) (pq : MinHeap.t) :
  x ∈ entries_of k pq ↔ MinHeap.concept_id x = k ∧ x ∈ pq.
Proof.
  unfold entries_of.
  apply (list_elem_of_filter (λ n : MinHeap.HeapNode, MinHeap.concept_id n = k)).
Qed.

Lemma entry_of_entries (k : string) (pq pq' : MinHeap.t) (x : MinHeap.HeapNode) :
  entries_of k pq' ≡ₚ entries_of k pq → x ∈ pq' → MinHeap.concept_id x = k → x ∈ pq.
Proof.
  intros Hp Hx Hid.
  assert (x ∈ entries_of k pq') as Hin by (by apply elem_of_entries_of).
  rewrite Hp in Hin. by apply elem_of_entries_of in Hin as [_ ?].
Qed.

(** [updateKey] leaves the entries of every other id, and replaces one entry
    of its own id. *)
Lemma updateKey_entries_other (pq : MinHeap.t) (id k : string) (s : float) :
  id ≠ k → entries_of k (MinHeap.updateKey pq id s) ≡ₚ entries_of k pq.
Proof.
  intros Hne.
  destruct (list_find (λ n, MinHeap.concept_id n = id) pq) as [[i n]|] eqn:Hf.
  - pose proof (updateKey_perm _ _ s _ _ Hf) as Hp.
    apply list_find_Some in Hf as (Hi & Hn & _).
    etrans; [exact (entries_of_perm _ _ _ Hp)|].
    rewrite entries_of_cons_other by done.
    etrans; [|symmetry; exact (entries_of_perm _ _ _ (delete_Permutation _ _ _ Hi))].
    by rewrite entries_of_cons_other by (by rewrite Hn).
  - by rewrite updateKey_absent.
Qed.

Lemma updateKey_entries_same (pq : MinHeap.t) (k : string) (s : float) :
  k ∈ MinHeap.concept_id <$> pq →
  ∃ old, old ∈ pq ∧ MinHeap.concept_id old = k ∧
    old :: entries_of k (MinHeap.updateKey pq k s)
    ≡ₚ MinHeap.mkHeapNode k s :: entries_of k pq.
Proof.
  intros Hk.
  destruct (list_find (λ n, MinHeap.concept_id n = k) pq) as [[i n]|] eqn:Hf.
  - pose proof (updateKey_perm _ _ s _ _ Hf) as Hp.
    apply list_find_Some in Hf as (Hi & Hn & _).
    exists n. split; [by eapply list_elem_of_lookup_2|]. split; [done|].
    etrans; [apply perm_skip; exact (entries_of_perm _ _ _ Hp)|].
    rewrite entries_of_cons_same by done.
    etrans; [apply perm_swap|]. apply perm_skip.
    etrans; [|symmetry; exact (entries_of_perm _ _ _ (delete_Permutation _ _ _ Hi))].
    by rewrite entries_of_cons_same.
  - exfalso. apply list_find_None in Hf. rewrite Forall_forall in Hf.
    apply list_elem_of_fmap in Hk as (x & -> & Hx). exact (Hf x Hx eq_refl).
Qed.

(** The scan of [reviseConcept] touches the entries of an id only at that
    id's own key. *)
Lemma boost_step_entries_other concept_id cs pq k0 k :
  ids_match cs → k0 ≠ k →
  entries_of k (boost_step concept_id (cs, pq) k0).2 ≡ₚ entries_of k pq.
Proof.
  intros Hcs Hne. unfold boost_step. cbn [fst snd].
  destruct (cs !! k0) as [other|] eqn:Hk0; [|done].
  destruct (cs !! concept_id) as [concept|]; [|done].
  destruct (is_connected concept_id concept other); [|done].
  cbn [snd]. apply updateKey_entries_other.
  change (Concept.id (Concept.boostConnected other)) with (Concept.id other).
  by rewrite (Hcs _ _ Hk0).
Qed.

Lemma boost_fold_entries_other concept_id l cs pq k :
  ids_match cs → k ∉ l →
  entries_of k (foldl (boost_step concept_id) (cs, pq) l).2 ≡ₚ entries_of k pq.
Proof.
  revert cs pq. induction l as [|k0 l IH]; intros cs pq Hcs Hk; cbn [foldl]; [done|].
  apply not_elem_of_cons in Hk as [Hne Hk].
  pose proof (boost_step_ids_match concept_id cs pq k0 Hcs) as Hcs'.
  pose proof (boost_step_entries_other concept_id cs pq k0 k Hcs ltac:(done)) as Hstep.
  destruct (boost_step concept_id (cs, pq) k0) as [cs' pq'].
  etrans; [by apply IH|done].
Qed.

Lemma boost_fold_entries_unconnected concept_id prereqs l cs pq k other :
  ids_match cs →
  (∃ concept, cs !! concept_id = Some concept ∧
     Concept.prerequisites concept = prereqs) →
  cs !! k = Some other →
  lists (Concept.prerequisites other) concept_id
    || lists prereqs (Concept.id other) = false →
  entries_of k (foldl (boost_step concept_id) (cs, pq) l).2 ≡ₚ entries_of k pq.
Proof.
  revert cs pq. induction l as [|k0 l IH];
    intros cs pq Hcs (concept & Hc & Hp) Hk Hconn; cbn [foldl]; [done|].
  pose proof (boost_step_ids_match concept_id cs pq k0 Hcs) as Hcs'.
  pose proof (boost_step_concepts concept_id cs pq k0 concept Hc) as Hstep.
  assert (entries_of k (boost_step concept_id (cs, pq) k0).2 ≡ₚ entries_of k pq) as Hx'.
  { destruct (decide (k0 = k)) as [->|Hne].
    - unfold boost_step. cbn [fst snd]. rewrite Hk, Hc.
      by rewrite is_connected_orb, Hp, Hconn.
    - by apply boost_step_entries_other. }
  destruct (boost_step concept_id (cs, pq) k0) as [cs' pq'].
  cbn [fst snd] in *. subst cs'.
  etrans; [|exact Hx'].
  apply (IH _ _ Hcs'); [| |done].
  - rewrite lookup_alter. case_decide; simplify_eq.
    + rewrite Hc. eexists. split; [done|]. apply boost_if_prerequisites.
    + eauto.
  - rewrite lookup_alter. case_decide; [|done]. subst k0. rewrite Hk.
    cbn [fmap option_fmap option_map]. unfold boost_if. by rewrite Hp, Hconn.
Qed.

Lemma boost_fold_entries_connected concept_id prereqs l cs pq k other :
  NoDup l → ids_match cs →
  (∃ concept, cs !! concept_id = Some concept ∧
     Concept.prerequisites concept = prereqs) →
  k ∈ l → cs !! k = Some other →
  lists (Concept.prerequisites other) concept_id
    || lists prereqs (Concept.id other) = true →
  k ∈ MinHeap.concept_id <$> pq →
  ∃ old, old ∈ pq ∧ MinHeap.concept_id old = k ∧
    old :: entries_of k (foldl (boost_step concept_id) (cs, pq) l).2
    ≡ₚ MinHeap.mkHeapNode k (Concept.memory_strength (Concept.boostConnected other))
         :: entries_of k pq.
Proof.
  revert cs pq. induction l as [|k0 l IH];
    intros cs pq Hnd Hcs (concept & Hc & Hp) Hkl Hk Hconn Hpq; cbn [foldl].
  { by apply elem_of_nil in Hkl. }
  apply NoDup_cons in Hnd as [Hk0 Hnd].
  pose proof (boost_step_ids_match concept_id cs pq k0 Hcs) as Hcs'.
  pose proof (boost_step_queue_ids concept_id cs pq k0) as Hids.
  pose proof (boost_step_concepts concept_id cs pq k0 concept Hc) as Hstep.
  destruct (decide (k = k0)) as [->|Hne].
  - assert ((boost_step concept_id (cs, pq) k0).2
            = MinHeap.updateKey pq k0
                (Concept.memory_strength (Concept.boostConnected other))) as Hpq'.
    { unfold boost_step. cbn [fst snd]. rewrite Hk, Hc.
      rewrite is_connected_orb, Hp, Hconn. cbn [snd].
      change (Concept.id (Concept.boostConnected other)) with (Concept.id other).
      by rewrite (Hcs _ _ Hk). }
    destruct (updateKey_entries_same pq k0
                (Concept.memory_strength (Concept.boostConnected other)) Hpq)
      as (old & Hold & Hid & Hperm).
    exists old. split; [done|]. split; [done|].
    destruct (boost_step concept_id (cs, pq) k0) as [cs' pq'].
    cbn [fst snd] in *. subst pq'.
    etrans; [|exact Hperm]. apply perm_skip.
    by apply boost_fold_entries_other.
  - apply elem_of_cons in Hkl as [?|Hkl]; [done|].
    pose proof (boost_step_entries_other concept_id cs pq k0 k Hcs ltac:(done)) as He.
    destruct (boost_step concept_id (cs, pq) k0) as [cs' pq'].
    cbn [fst snd] in *. subst cs'.
    destruct (IH (alter (boost_if concept_id (Concept.prerequisites concept)) k0 cs) pq')
      as (old & Hold & Hid & Hperm); try done.
    + rewrite lookup_alter. case_decide; simplify_eq.
      * rewrite Hc. eexists. split; [done|]. apply boost_if_prerequisites.
      * eauto.
    + by rewrite lookup_alter_ne.
    + by rewrite Hids.
    + exists old. split; [by eapply entry_of_entries|]. split; [done|].
      etrans; [exact Hperm|]. by apply perm_skip.
Qed.

Variable traversal : gmap string Concept.t → list string.
Hypothesis traversal_keys : ∀ m, traversal m ≡ₚ (map_to_list m).*1.

Lemma reviseConcept_replaces_entry g concept_id boost target k other :
  ids_match (concepts g) →
  concepts g !! concept_id = Some target →
  concepts g !! k = Some other → k ≠ concept_id →
  lists (Concept.prerequisites other) concept_id
    || lists (Concept.prerequisites target) (Concept.id other) = true →
  k ∈ MinHeap.concept_id <$> priority_queue g →
  ∃ old, old ∈ priority_queue g ∧ MinHeap.concept_id old = k ∧
    old :: entries_of k (priority_queue (reviseConcept traversal g concept_id boost).1)
    ≡ₚ MinHeap.mkHeapNode k (Concept.memory_strength (Concept.boostConnected other))
         :: entries_of k (priority_queue g).
Proof.
  intros Hids Hc Hk Hne Hconn Hpq. unfold reviseConcept. rewrite Hc.
  cbn [fst priority_queue].
  pose proof (updateKey_entries_other (priority_queue g) concept_id k
                (Concept.memory_strength (Concept.revise target (current_day g) boost))
                ltac:(done)) as H0.
  destruct (boost_fold_entries_connected concept_id (Concept.prerequisites target)
              (traversal (<[concept_id := Concept.revise target (current_day g) boost]>
                            (concepts g)))
              (<[concept_id := Concept.revise target (current_day g) boost]> (concepts g))
              (MinHeap.updateKey (priority_queue g) concept_id
                 (Concept.memory_strength (Concept.revise target (current_day g) boost)))
              k other) as (old & Hold & Hid & Hperm).
  - by apply traversal_NoDup.
  - by apply ids_match_revised.
  - rewrite lookup_insert_eq. eauto.
  - apply (elem_of_traversal _ traversal_keys). rewrite lookup_insert_ne by done. eauto.
  - by rewrite lookup_insert_ne.
  - done.
  - by rewrite MinHeapFacts.updateKey_ids.
  - exists old. split; [by eapply entry_of_entries|]. split; [done|].
    etrans; [exact Hperm|]. by apply perm_skip.
Qed.

Lemma reviseConcept_keeps_entries g concept_id boost target k other :
  ids_match (concepts g) →
  concepts g !! concept_id = Some target →
  concepts g !! k = Some other → k ≠ concept_id →
  lists (Concept.prerequisites other) concept_id
    || lists (Concept.prerequisites target) (Concept.id other) = false →
  entries_of k (priority_queue (reviseConcept traversal g concept_id boost).1)
  ≡ₚ entries_of k (priority_queue g).
Proof.
  intros Hids Hc Hk Hne Hconn. unfold reviseConcept. rewrite Hc.
  cbn [fst priority_queue].
  etrans; [|by apply (updateKey_entries_other (priority_queue g) concept_id k)].
  apply (boost_fold_entries_unconnected _ (Concept.prerequisites target) _ _ _ _ other).
  - by apply ids_match_revised.
  - rewrite lookup_insert_eq. eauto.
  - by rewrite lookup_insert_ne.
  - done.
Qed.

End NeighbourEntries.

(** ** The claims of the specification *)

Section Claims.
Import MinHeapFacts MemoryGraphFacts.

Variable traversal : gmap string Concept.t → list string.
Hypothesis traversal_keys : ∀ m, traversal m ≡ₚ (map_to_list m).*1.
Variable exp : float → float.

Lemma calculateMemory_clamped (c : Concept.t) (current_day : Z) (lambda : float) :
  Double.clamped 0.1 1.0
    (Concept.initial_weight c
     * exp (- lambda
            * Int32.to_double (Int32.sub current_day (Concept.last_revised_day c))))%float
    (Concept.calculateMemory exp c current_day lambda).
Proof.
  unfold Concept.calculateMemory, Concept.decay. cbn zeta.
  set (x := (_ * _)%float). change (Double.gt x 1.0) with (Double.lt 1.0 x).
  assert (Double.le 0.1 1.0 = true) as H01 by reflexivity.
  repeat split.
  - by intros ->.
  - intros Hhi. destruct (Double.lt x 0.1) eqn:Hlo; [|by rewrite Hhi].
    apply double_lt_le in Hhi.
    by rewrite (double_le_not_lt _ _ (double_le_trans _ _ _ H01 Hhi)) in Hlo.
  - intros Hlo Hhi. by rewrite (double_le_not_lt _ _ Hlo), (double_le_not_lt _ _ Hhi).
  - destruct (Double.lt x 0.1) eqn:Hlo; [done|].
    destruct (Double.lt 1.0 x) eqn:Hhi; [done|].
    by apply double_not_lt_le.
  - destruct (Double.lt x 0.1) eqn:Hlo; [done|].
    destruct (Double.lt 1.0 x) eqn:Hhi; [done|].
    by apply double_not_lt_le.
Qed.

Lemma wrap_in_range (z : Z) : Int32.in_range z → Int32.wrap z = z.
Proof.
  unfold Int32.in_range, Int32.wrap. intros Hz.
  rewrite Z.mod_small; lia.
Qed.

Lemma calculateMemory_of_nan (c : Concept.t) (current_day : Z) (lambda : float) :
  PrimFloat.is_nan (Concept.decay exp c current_day lambda) = true →
  Concept.calculateMemory exp c current_day lambda
  = Concept.decay exp c current_day lambda.
Proof.
  intros Hnan. unfold Concept.calculateMemory. cbn zeta.
  destruct (Double.lt (Concept.decay exp c current_day lambda) 0.1) eqn:Hlo.
  { apply double_lt_not_nan in Hlo as [Hx _]. unfold Double.not_nan in Hx. congruence. }
  change (Double.gt (Concept.decay exp c current_day lambda) 1.0)
    with (Double.lt 1.0 (Concept.decay exp c current_day lambda)).
  destruct (Double.lt 1.0 (Concept.decay exp c current_day lambda)) eqn:Hhi; [|done].
  apply double_lt_not_nan in Hhi as [_ Hx]. unfold Double.not_nan in Hx. congruence.
Qed.

(** NaN goes through the arithmetic of [calculateMemory]: a product with a
    NaN factor and the opposite of a NaN are NaN.  So the value is NaN for a
    NaN [initial_weight], whatever [exp] is, and for a NaN [lambda] when
    [exp] of a NaN is NaN, as it is for [std::exp]. *)
Lemma is_nan_spec (a : float) : PrimFloat.is_nan a = true ↔ Prim2SF a = S754_nan.
Proof.
  pose proof (not_nan_spec a) as H. unfold Double.not_nan in H.
  destruct (PrimFloat.is_nan a), (Prim2SF a); split; try done; intros; exfalso.
  all: try (by assert (true = false) as ? by (by apply H)).
  by destruct (proj1 H eq_refl).
Qed.

Lemma mul_nan_l (x y : float) :
  PrimFloat.is_nan x = true → PrimFloat.is_nan (x * y) = true.
Proof.
  rewrite !is_nan_spec, FloatAxioms.mul_spec. intros ->. done.
Qed.

Lemma mul_nan_r (x y : float) :
  PrimFloat.is_nan y = true → PrimFloat.is_nan (x * y) = true.
Proof.
  rewrite !is_nan_spec, FloatAxioms.mul_spec. intros ->. by destruct (Prim2SF x).
Qed.

Lemma opp_nan (x : float) : PrimFloat.is_nan x = true → PrimFloat.is_nan (- x) = true.
Proof.
  rewrite !is_nan_spec, FloatAxioms.opp_spec. intros ->. done.
Qed.

Lemma calculateMemory_nan_weight (c : Concept.t) (current_day : Z) (lambda : float) :
  PrimFloat.is_nan (Concept.initial_weight c) = true →
  PrimFloat.is_nan (Concept.calculateMemory exp c current_day lambda) = true.
Proof.
  intros Hw.
  assert (PrimFloat.is_nan (Concept.decay exp c current_day lambda) = true) as Hd
    by (by apply mul_nan_l).
  by rewrite calculateMemory_of_nan.
Qed.

Lemma calculateMemory_nan_rate (c : Concept.t) (current_day : Z) (lambda : float) :
  (∀ x, PrimFloat.is_nan x = true → PrimFloat.is_nan (exp x) = true) →
  PrimFloat.is_nan lambda = true →
  PrimFloat.is_nan (Concept.calculateMemory exp c current_day lambda) = true.
Proof.
  intros Hexp Hl.
  assert (PrimFloat.is_nan (Concept.decay exp c current_day lambda) = true) as Hd
    by (by apply mul_nan_r, Hexp, mul_nan_l, opp_nan).
  by rewrite calculateMemory_of_nan.
Qed.

(** C1, as amended.  [calculateMemory(current_day, lambda)] computes the
    product [initial_weight * exp(-lambda * (current_day - last_revised_day))],
    the difference being that of two [int] (the exact difference whenever it
    fits an [int]), and returns the product clamped to [[0.1, 1.0]] when it is
    a number, and the product itself, a NaN, when it is NaN: both comparisons
    of the clamp are then false.  It is a function of the concept and changes
    nothing.  After [updateMemoryStrengths()] every concept [c0] of the graph
    is stored under its key with [memory_strength] equal to that value for
    the graph's current day and lambda and with every other field as before;
    the call adds and removes no concept and leaves the day and lambda. *)
Theorem calculateMemory_clamps_decay (c : Concept.t) (current_day : Z)
    (lambda : float) (g : MemoryGraph.t) (k : string) (c0 : Concept.t) :
  MemoryGraph.concepts g !! k = Some c0 →
  let decay :=
    (Concept.initial_weight c
     * exp (- lambda
            * Int32.to_double (Int32.sub current_day (Concept.last_revised_day c))))%float in
  let g' := MemoryGraph.updateMemoryStrengths traversal exp g in
  Double.clamped 0.1 1.0 decay (Concept.calculateMemory exp c current_day lambda)
  ∧ (PrimFloat.is_nan decay = true →
     Concept.calculateMemory exp c current_day lambda = decay)
  ∧ (Int32.in_range (current_day - Concept.last_revised_day c) →
     Int32.sub current_day (Concept.last_revised_day c)
     = (current_day - Concept.last_revised_day c)%Z)
  ∧ MemoryGraph.concepts g' !! k
    = Some {| Concept.name := Concept.name c0; Concept.id := Concept.id c0;
              Concept.category := Concept.category c0;
              Concept.initial_weight := Concept.initial_weight c0;
              Concept.memory_strength :=
                Concept.calculateMemory exp c0 (MemoryGraph.current_day g)
                  (MemoryGraph.lambda g);
              Concept.last_revised_day := Concept.last_revised_day c0;
              Concept.prerequisites := Concept.prerequisites c0 |}
  ∧ (∀ k', is_Some (MemoryGraph.concepts g' !! k')
           ↔ is_Some (MemoryGraph.concepts g !! k'))
  ∧ MemoryGraph.current_day g' = MemoryGraph.current_day g
  ∧ MemoryGraph.lambda g' = MemoryGraph.lambda g.
Proof.
  intros Hk decay g'. subst g'.
  split; [apply calculateMemory_clamped|].
  split; [apply calculateMemory_of_nan|].
  split; [intros Hr; unfold Int32.sub; by apply wrap_in_range|].
  rewrite (updateMemoryStrengths_concepts _ traversal_keys).
  split; [by rewrite lookup_fmap, Hk|].
  split; [intros k'; by rewrite lookup_fmap, fmap_is_Some|].
  done.
Qed.

(** C3.  For a present id, [reviseConcept(id, boost)] boosts exactly the
    other concepts joined to the target by a prerequisite edge, in either
    direction: such a neighbour's strength becomes [min(1.0, strength + 0.1)],
    its [initial_weight] is reset to that strength, its [last_revised_day] is
    as before, and its entry in the priority structure is updated: one entry
    of the neighbour's id gives way to an entry with the new strength, the
    other entries of that id, if any, staying.  Another concept that is not
    connected is unchanged, and so are its entries.  The queue has as many
    entries of every id as before. *)
Theorem reviseConcept_boosts_connected_concepts (g : MemoryGraph.t)
    (concept_id : string) (boost : float) (target : Concept.t)
    (k : string) (other : Concept.t) :
  MemoryGraph.ids_match (MemoryGraph.concepts g) →
  MemoryGraph.concepts g !! concept_id = Some target →
  MemoryGraph.concepts g !! k = Some other →
  k ≠ concept_id →
  let g' := (MemoryGraph.reviseConcept traversal g concept_id boost).1 in
  let boosted := Double.min 1.0 (Concept.memory_strength other + 0.1) in
  (MemoryGraph.connected target other →
     MemoryGraph.concepts g' !! k
       = Some {| Concept.name := Concept.name other; Concept.id := Concept.id other;
                 Concept.category := Concept.category other;
                 Concept.initial_weight := boosted;
                 Concept.memory_strength := boosted;
                 Concept.last_revised_day := Concept.last_revised_day other;
                 Concept.prerequisites := Concept.prerequisites other |}
     ∧ (k ∈ MinHeap.concept_id <$> MemoryGraph.priority_queue g →
        MinHeap.mkHeapNode k boosted ∈ MemoryGraph.priority_queue g'
        ∧ ∃ old, old ∈ MemoryGraph.priority_queue g ∧ MinHeap.concept_id old = k ∧
            old :: MemoryGraph.entries_of k (MemoryGraph.priority_queue g')
            ≡ₚ MinHeap.mkHeapNode k boosted
                 :: MemoryGraph.entries_of k (MemoryGraph.priority_queue g)))
  ∧ (¬ MemoryGraph.connected target other →
     MemoryGraph.concepts g' !! k = Some other
     ∧ (∀ x, MinHeap.concept_id x = k → x ∈ MemoryGraph.priority_queue g →
          x ∈ MemoryGraph.priority_queue g')
     ∧ MemoryGraph.entries_of k (MemoryGraph.priority_queue g')
       ≡ₚ MemoryGraph.entries_of k (MemoryGraph.priority_queue g))
  ∧ MinHeap.concept_id <$> MemoryGraph.priority_queue g'
    ≡ₚ MinHeap.concept_id <$> MemoryGraph.priority_queue g.
Proof.
  intros Hids Hc Hk Hne g' boosted.
  pose proof (reviseConcept_lookup_other _ traversal_keys g concept_id boost
                target k other Hc Hk Hne) as Hlookup.
  fold g' in Hlookup. rewrite <- (Hids _ _ Hc) in Hlookup at 1.
  split; [|split; [|apply reviseConcept_queue_ids]].
  - intros Hconn. rewrite (boost_if_connected _ _ Hconn) in Hlookup.
    split; [done|]. intros Hpq.
    assert (MemoryGraph.lists (Concept.prerequisites other) concept_id
            || MemoryGraph.lists (Concept.prerequisites target) (Concept.id other)
            = true) as Hl.
    { unfold MemoryGraph.connected in Hconn. rewrite <- !lists_spec in Hconn.
      rewrite (Hids _ _ Hc) in Hconn.
      destruct Hconn as [-> | ->]; [done|apply orb_true_r]. }
    split.
    + by apply (reviseConcept_entry _ traversal_keys g concept_id boost target k other).
    + by apply (reviseConcept_replaces_entry _ traversal_keys g concept_id boost
                  target k other).
  - intros Hconn. rewrite (boost_if_not_connected _ _ Hconn) in Hlookup.
    assert (MemoryGraph.lists (Concept.prerequisites other) concept_id
            || MemoryGraph.lists (Concept.prerequisites target) (Concept.id other)
            = false) as Hl.
    { unfold MemoryGraph.connected in Hconn. rewrite <- !lists_spec in Hconn.
      rewrite (Hids _ _ Hc) in Hconn.
      destruct (MemoryGraph.lists (Concept.prerequisites other) concept_id);
        [by destruct Hconn; left|].
      destruct (MemoryGraph.lists (Concept.prerequisites target) (Concept.id other));
        [by destruct Hconn; right|done]. }
    split; [done|]. split.
    + intros x <- Hx.
      by apply reviseConcept_keeps_unconnected with (target := target) (other := other).
    + by apply (reviseConcept_keeps_entries traversal g concept_id boost
                  target k other).
Qed.

(** C4, as amended.  When A lists B as a prerequisite, [reviseConcept] on B
    boosts A: A's strength becomes [min(1.0, strength + 0.1)], its
    [initial_weight] is reset to that strength and its [last_revised_day] is
    as before (whether or not B lists A). *)
Theorem reviseConcept_boosts_dependants (g : MemoryGraph.t) (B : string)
    (boost : float) (b : Concept.t) (A : string) (a : Concept.t) :
  MemoryGraph.concepts g !! B = Some b →
  MemoryGraph.concepts g !! A = Some a →
  A ≠ B →
  B ∈ Concept.prerequisites a →
  ∃ a', MemoryGraph.concepts (MemoryGraph.reviseConcept traversal g B boost).1 !! A
          = Some a'
    ∧ Concept.memory_strength a' = Double.min 1.0 (Concept.memory_strength a + 0.1)
    ∧ Concept.initial_weight a' = Concept.memory_strength a'
    ∧ Concept.last_revised_day a' = Concept.last_revised_day a.
Proof.
  intros Hb Ha Hne Hlists.
  rewrite (reviseConcept_lookup_other _ traversal_keys g B boost b A a Hb Ha Hne).
  eexists. split; [done|]. unfold MemoryGraph.boost_if.
  apply lists_spec in Hlists as ->. done.
Qed.

(** C5.  For an id absent from the concept map, [reviseConcept] throws
    "Concept not found: <id>" and leaves the graph as it was: every concept,
    every entry of the priority structure and every counter. *)
Theorem reviseConcept_unknown_id_throws (g : MemoryGraph.t) (concept_id : string)
    (boost : float) :
  MemoryGraph.concepts g !! concept_id = None →
  MemoryGraph.reviseConcept traversal g concept_id boost
    = (g, Thrown ("Concept not found: " +:+ concept_id)).
Proof. intros Hc. unfold MemoryGraph.reviseConcept. by rewrite Hc. Qed.

(** C7.  [revise(current_day, boost)] sets [memory_strength] to
    [min(1.0, memory_strength + boost)], [initial_weight] to that same value
    and [last_revised_day] to [current_day]; it is a total function (no error
    path), leaves the other fields alone, and the value decay is computed from
    afterwards is the boosted one. *)
Theorem Concept_revise_resets_baseline (c : Concept.t) (current_day : Z)
    (boost : float) :
  let c' := Concept.revise c current_day boost in
  Concept.memory_strength c' = Double.min 1.0 (Concept.memory_strength c + boost)
  ∧ Double.le (Concept.memory_strength c') 1.0 = true
  ∧ Concept.initial_weight c' = Concept.memory_strength c'
  ∧ Concept.last_revised_day c' = current_day
  ∧ Concept.name c' = Concept.name c ∧ Concept.id c' = Concept.id c
  ∧ Concept.category c' = Concept.category c
  ∧ Concept.prerequisites c' = Concept.prerequisites c
  ∧ ∀ (later_day : Z) (lambda : float),
      Concept.decay exp c' later_day lambda
      = (Double.min 1.0 (Concept.memory_strength c + boost)
         * exp (- lambda * Int32.to_double (Int32.sub later_day current_day)))%float.
Proof. repeat split. apply double_min_le. Qed.

(** C8, as amended.  [insertConcept] stores the [initial_weight] it is given
    as it is, as the baseline and as the strength: nothing clamps it. *)
Theorem insertConcept_stores_weight_unclamped (g : MemoryGraph.t)
    (name id category : string) (initial_weight : float)
    (prerequisites : list string) :
  MemoryGraph.concepts
    (MemoryGraph.insertConcept g name id category initial_weight prerequisites) !! id
  = Some {| Concept.name := name; Concept.id := id; Concept.category := category;
            Concept.initial_weight := initial_weight;
            Concept.memory_strength := initial_weight;
            Concept.last_revised_day := MemoryGraph.current_day g;
            Concept.prerequisites := prerequisites |}.
Proof. unfold MemoryGraph.insertConcept. cbn. apply lookup_insert_eq. Qed.

(** C9, as amended.  [simulateTimePassage(days)] moves [current_day] to
    [current_day + days] (when that is an [int]): the day does not decrease
    when [days >= 0] and decreases when [days] is negative, which is not
    refused; no other public operation changes [current_day]. *)
Theorem simulateTimePassage_moves_current_day (g : MemoryGraph.t) (days : Z) :
  Int32.in_range (MemoryGraph.current_day g + days) →
  MemoryGraph.getCurrentDay (MemoryGraph.simulateTimePassage traversal exp g days)
    = (MemoryGraph.getCurrentDay g + days)%Z
  ∧ ((0 ≤ days)%Z →
     (MemoryGraph.getCurrentDay g
      ≤ MemoryGraph.getCurrentDay (MemoryGraph.simulateTimePassage traversal exp g days))%Z)
  ∧ ((days < 0)%Z →
     (MemoryGraph.getCurrentDay (MemoryGraph.simulateTimePassage traversal exp g days)
      < MemoryGraph.getCurrentDay g)%Z)
  ∧ ∀ o, (∀ d, o ≠ MemoryGraph.SimulateTimePassage d) →
      MemoryGraph.getCurrentDay (MemoryGraph.step traversal exp g o)
      = MemoryGraph.getCurrentDay g.
Proof.
  intros Hr.
  assert (MemoryGraph.getCurrentDay (MemoryGraph.simulateTimePassage traversal exp g days)
          = (MemoryGraph.getCurrentDay g + days)%Z) as Hday
    by (by cbn; unfold Int32.add; rewrite wrap_in_range).
  rewrite Hday. unfold MemoryGraph.getCurrentDay in *.
  repeat split; try lia.
  intros [] Ho; cbn; try done.
  - unfold MemoryGraph.reviseConcept.
    by destruct (MemoryGraph.concepts g !! concept_id).
  - by destruct (Ho days0).
Qed.







End Claims.

(** ** The claims at concrete inputs *)

Section Examples.
Import MinHeapFacts MemoryGraphFacts.

(** [key_order] is a traversal. *)
Lemma key_order_keys (m : gmap string Concept.t) :
  MemoryGraph.key_order m ≡ₚ (map_to_list m).*1.
Proof. done. Qed.

(** The sample data with "linked_lists" learned a second time is a state the
    public operations reach. *)
Lemma relearned_reachable :
  MemoryGraph.reachable MemoryGraph.key_order exp_sample relearned.
Proof.
  exists 0.15%float,
    (sample_ops ++ [MemoryGraph.InsertConcept "Linked Lists" "linked_lists"
                      "Data Structures" 1.0 []]).
  reflexivity.
Qed.

(** C2, on the code.  The claim is that the priority structure has one entry
    per concept after every public operation, also after [insertConcept] with
    an id already present.  On the sample data (8 concepts, 8 entries),
    inserting "linked_lists" again leaves 8 concepts and 9 entries, two of
    them for "linked_lists": the sizes differ. *)
Lemma insertConcept_existing_id_desyncs_queue :
  MemoryGraph.reachable MemoryGraph.key_order exp_sample relearned
  ∧ MemoryGraph.getTotalConcepts initializeSampleData = 8
  ∧ MinHeap.size (MemoryGraph.priority_queue initializeSampleData) = 8
  ∧ MemoryGraph.getTotalConcepts relearned = 8
  ∧ MinHeap.size (MemoryGraph.priority_queue relearned) = 9
  ∧ filter (λ n, MinHeap.concept_id n = "linked_lists"%string)
      (MemoryGraph.priority_queue relearned)
    = [MinHeap.mkHeapNode "linked_lists" 0.28; MinHeap.mkHeapNode "linked_lists" 1.0].
Proof. split; [exact relearned_reachable|]. by vm_compute. Qed.

(** C6, on the code.  The claim is that in every reachable state the
    recommendation is an id of least strength.  After "linked_lists" is
    inserted a second time, [getNextRevisionRecommendation] still answers
    "linked_lists" (the stale entry 0.28 is at the root) although that concept
    now has strength 1.0 and "graphs" has 0.35. *)
Lemma recommendation_after_relearning_is_not_weakest :
  MemoryGraph.reachable MemoryGraph.key_order exp_sample relearned
  ∧ MemoryGraph.getNextRevisionRecommendation relearned = Returned "linked_lists"%string
  ∧ Concept.memory_strength <$> MemoryGraph.concepts relearned !! "linked_lists"%string
    = Some 1.0%float
  ∧ Concept.memory_strength <$> MemoryGraph.concepts relearned !! "graphs"%string
    = Some 0.35%float
  ∧ Double.le 1.0 0.35 = false.
Proof. split; [exact relearned_reachable|]. by vm_compute. Qed.

(** The sample data stores every concept under its own id. *)
Lemma sample_ids_match : MemoryGraph.ids_match (MemoryGraph.concepts initializeSampleData).
Proof. unfold MemoryGraph.ids_match. apply (bool_decide_unpack _). by vm_compute. Qed.

(** C4, the claim as stated fails.  In the sample data "sorting" lists
    "arrays" and "arrays" lists nothing; revising "arrays" raises the strength
    and the baseline of "sorting" from 0.62 to 0.62 + 0.1. *)
Lemma revising_prerequisite_changes_dependant :
  let g := initializeSampleData in
  let g' := (MemoryGraph.reviseConcept MemoryGraph.key_order g "arrays" 0.4).1 in
  MemoryGraph.concepts g !! "sorting"%string = Some sample_sorting
  ∧ MemoryGraph.concepts g !! "arrays"%string = Some sample_arrays
  ∧ Concept.prerequisites sample_sorting = ["arrays"%string]
  ∧ Concept.prerequisites sample_arrays = []
  ∧ Concept.memory_strength sample_sorting = 0.62%float
  ∧ Concept.memory_strength <$> MemoryGraph.concepts g' !! "sorting"%string
    = Some (0.62 + 0.1)%float
  ∧ Concept.initial_weight <$> MemoryGraph.concepts g' !! "sorting"%string
    = Some (0.62 + 0.1)%float
  ∧ Double.lt 0.62 (0.62 + 0.1) = true.
Proof. by vm_compute. Qed.

(** C3 at a concrete input: revising "arrays" in the sample data boosts
    "sorting", which lists it, and replaces an entry of "sorting". *)
Lemma reviseConcept_boosts_connected_concepts_witness :
  let g' := (MemoryGraph.reviseConcept MemoryGraph.key_order initializeSampleData
               "arrays" 0.4).1 in
  let boosted := Double.min 1.0 (0.62 + 0.1) in
  MemoryGraph.concepts g' !! "sorting"%string
  = Some {| Concept.name := "Sorting Algorithms"; Concept.id := "sorting";
            Concept.category := "Algorithms";
            Concept.initial_weight := boosted; Concept.memory_strength := boosted;
            Concept.last_revised_day := 0;
            Concept.prerequisites := ["arrays"%string] |}
  ∧ MinHeap.mkHeapNode "sorting" boosted ∈ MemoryGraph.priority_queue g'
  ∧ ∃ old, old ∈ MemoryGraph.priority_queue initializeSampleData
      ∧ MinHeap.concept_id old = "sorting"%string
      ∧ old :: MemoryGraph.entries_of "sorting" (MemoryGraph.priority_queue g')
        ≡ₚ MinHeap.mkHeapNode "sorting" boosted
             :: MemoryGraph.entries_of "sorting"
                  (MemoryGraph.priority_queue initializeSampleData).
Proof.
  destruct (reviseConcept_boosts_connected_concepts MemoryGraph.key_order
              key_order_keys initializeSampleData "arrays" 0.4 sample_arrays
              "sorting" sample_sorting sample_ids_match) as [Hconn _].
  - by vm_compute.
  - by vm_compute.
  - done.
  - destruct Hconn as [Hlookup Hentry].
    + left. cbn. apply elem_of_cons. by left.
    + split; [exact Hlookup|]. apply Hentry.
      apply (bool_decide_unpack _). by vm_compute.
Defined.

(** C4 as amended, at a concrete input. *)
Lemma reviseConcept_boosts_dependants_witness :
  ∃ a', MemoryGraph.concepts
          (MemoryGraph.reviseConcept MemoryGraph.key_order initializeSampleData
             "arrays" 0.4).1 !! "sorting"%string = Some a'
    ∧ Concept.memory_strength a' = Double.min 1.0 (0.62 + 0.1)
    ∧ Concept.initial_weight a' = Concept.memory_strength a'
    ∧ Concept.last_revised_day a' = 0%Z.
Proof.
  apply (reviseConcept_boosts_dependants MemoryGraph.key_order key_order_keys
           initializeSampleData "arrays" 0.4 sample_arrays "sorting" sample_sorting).
  - by vm_compute.
  - by vm_compute.
  - done.
  - cbn. apply elem_of_cons. by left.
Defined.

(** C5 at a concrete input: "heaps" is not in the sample data. *)
Lemma reviseConcept_unknown_id_throws_witness :
  MemoryGraph.concepts initializeSampleData !! "heaps"%string = None
  ∧ MemoryGraph.reviseConcept MemoryGraph.key_order initializeSampleData "heaps" 0.4
    = (initializeSampleData, Thrown "Concept not found: heaps").
Proof.
  split; [by vm_compute|].
  apply (reviseConcept_unknown_id_throws MemoryGraph.key_order initializeSampleData
           "heaps" 0.4).
  by vm_compute.
Defined.

(** C8, the claim as stated fails: an [initial_weight] of 1.5 is stored as
    1.5, which is not in [[0.0, 1.0]]. *)
Lemma insertConcept_stores_weight_above_one :
  Concept.initial_weight
    <$> MemoryGraph.concepts
          (MemoryGraph.insertConcept initializeSampleData "Heaps" "heaps"
             "Data Structures" 1.5 []) !! "heaps"%string
  = Some 1.5%float
  ∧ Double.le 1.5 1.0 = false.
Proof. by vm_compute. Qed.

(** C9, the claim as stated fails: [simulateTimePassage(-3)] on the sample
    data moves [getCurrentDay()] from 0 to -3. *)
Lemma simulateTimePassage_negative_days_decrease_day :
  MemoryGraph.getCurrentDay initializeSampleData = 0%Z
  ∧ MemoryGraph.getCurrentDay
      (MemoryGraph.simulateTimePassage MemoryGraph.key_order exp_sample
         initializeSampleData (-3)) = (-3)%Z.
Proof. by vm_compute. Qed.

(** C9 as amended, at a concrete input: ten days on the sample data. *)
Lemma simulateTimePassage_moves_current_day_witness :
  Int32.in_range (MemoryGraph.current_day initializeSampleData + 10)
  ∧ MemoryGraph.getCurrentDay
      (MemoryGraph.simulateTimePassage MemoryGraph.key_order exp_sample
         initializeSampleData 10) = 10%Z.
Proof.
  assert (Int32.in_range (MemoryGraph.current_day initializeSampleData + 10)) as Hr
    by (by vm_compute).
  split; [exact Hr|].
  exact (proj1 (simulateTimePassage_moves_current_day MemoryGraph.key_order
                  exp_sample initializeSampleData 10 Hr)).
Defined.

(** [small_heap] has the min-heap property. *)
Lemma small_heap_is_heap : MinHeap.is_heap small_heap.
Proof.
  intros [|[|[|i]]] p c Hi Hp Hc; [lia|..]; cbn in Hp, Hc; by simplify_eq.
Qed.




(** C1, the claim as stated fails on a NaN.  For "arrays" of the sample data
    at day 0 and a NaN lambda [calculateMemory] returns NaN, which is not in
    [[0.1, 1.0]]: both comparisons of the clamp are false.  The public
    operations reach it: after [SET_DECAY_RATE nan] on the sample data, that
    is [setDecayRate] and [updateMemoryStrengths], the stored strength of
    "arrays" is this value. *)
Lemma calculateMemory_returns_NaN :
  let r := Concept.calculateMemory exp_sample sample_arrays 0 nan in
  PrimFloat.is_nan r = true
  ∧ Double.le 0.1 r = false
  ∧ Double.le r 1.0 = false
  ∧ MemoryGraph.concepts initializeSampleData !! "arrays"%string = Some sample_arrays
  ∧ MemoryGraph.current_day sample_nan_rate = 0%Z
  ∧ PrimFloat.is_nan (MemoryGraph.lambda sample_nan_rate) = true
  ∧ Concept.memory_strength <$> MemoryGraph.concepts sample_nan_rate !! "arrays"%string
    = Some r.
Proof. by vm_compute. Qed.

(** C1 as amended, at a concrete input: "sorting" of the sample data after
    ten days at lambda 0.15 (the scenario of the specification: about
    0.138). *)
Lemma calculateMemory_clamps_decay_witness :
  Double.clamped 0.1 1.0
    (0.62 * exp_sample (- 0.15 * Int32.to_double (Int32.sub 10 0)))%float
    (Concept.calculateMemory exp_sample sample_sorting 10 0.15)
  ∧ MemoryGraph.concepts
      (MemoryGraph.updateMemoryStrengths MemoryGraph.key_order exp_sample sample_day10)
      !! "sorting"%string
    = Some {| Concept.name := "Sorting Algorithms"; Concept.id := "sorting";
              Concept.category := "Algorithms";
              Concept.initial_weight := 0.62;
              Concept.memory_strength :=
                Concept.calculateMemory exp_sample sample_sorting 10 0.15;
              Concept.last_revised_day := 0;
              Concept.prerequisites := ["arrays"%string] |}.
Proof.
  destruct (calculateMemory_clamps_decay MemoryGraph.key_order key_order_keys
              exp_sample sample_sorting 10 0.15 sample_day10 "sorting" sample_sorting)
    as (Hcl & _ & _ & Hms & _).
  - by vm_compute.
  - split; [exact Hcl|exact Hms].
Defined.

End Examples.

(** * Further properties of the code *)

(** ** The queue: what each operation does to the entries *)

Section QueueOperations.
Import MinHeap MinHeapFacts.

Lemma elem_of_ids (heap : MinHeap.t) id :
  id ∈ concept_id <$> heap ↔ ∃ x, x ∈ heap ∧ concept_id x = id.
Proof.
  rewrite list_elem_of_fmap. split; intros (x & H1 & H2); exists x; by split.
Qed.

Lemma list_find_first (l1 l2 : MinHeap.t) n :
  Forall (λ x, concept_id x ≠ concept_id n) l1 →
  list_find (λ x, concept_id x = concept_id n) (l1 ++ n :: l2) = Some (length l1, n).
Proof.
  intros Hl1. apply list_find_Some. split; [|split; [done|]].
  - by rewrite list_lookup_middle.
  - intros j y Hj Hlt. rewrite lookup_app_l in Hj by done.
    rewrite Forall_lookup in Hl1. exact (Hl1 _ _ Hj).
Qed.

(** X1.  [insert] adds exactly one entry: the entries afterwards are the
    new entry [(concept_id, memory_strength)] together with all the entries
    there were, whatever their ids (an entry of the same id is not replaced),
    and [size()] grows by one. *)
Theorem insert_adds_one_entry (heap : MinHeap.t) (id : string) (s : float) :
  insert heap id s ≡ₚ mkHeapNode id s :: heap ∧
  size (insert heap id s) = S (size heap).
Proof. split; [apply insert_perm_cons | apply insert_length]. Qed.

(** X2.  [extractMin] on an empty heap throws "Heap is empty" and leaves the
    heap empty; on any other heap it returns the id at the root, index 0, and
    removes that one entry: the root together with the entries left are the
    entries there were, and [size()] is one less. *)
Theorem extractMin_removes_root (heap : MinHeap.t) :
  match heap with
  | [] => extractMin heap = ([], Thrown "Heap is empty")
  | root :: _ =>
      (extractMin heap).2 = Returned (concept_id root) ∧
      root :: (extractMin heap).1 ≡ₚ heap ∧
      size (extractMin heap).1 = (size heap - 1)%nat
  end.
Proof.
  destruct heap as [|root rest]; [done|].
  destruct (extractMin (root :: rest)) as [heap' o] eqn:He.
  assert (o = Returned (concept_id root)) as ->.
  { revert He. unfold extractMin. cbn [lookup list_lookup].
    destruct (last (root :: rest)) eqn:Hl; [by intros [= _ <-]|].
    by apply last_None in Hl. }
  destruct (extractMin_perm _ _ _ He) as (r & Hr & _ & Hp).
  cbn in Hr. injection Hr as <-. cbn [fst snd].
  split; [done|]. split; [done|].
  unfold size. rewrite Hp. cbn. lia.
Qed.

(** X3.  On a heap that has the min-heap property and holds no NaN, the id
    [extractMin] returns is the id of an entry whose strength is less than or
    equal to the strength of every entry of the heap, and so of every entry
    that is left. *)
Theorem extractMin_returns_a_least_entry (heap heap' : MinHeap.t) (id : string) :
  is_heap heap → no_nan heap → extractMin heap = (heap', Returned id) →
  ∃ root, root ∈ heap ∧ concept_id root = id ∧
    (∀ x, x ∈ heap → Double.le (memory_strength root) (memory_strength x) = true) ∧
    (∀ x, x ∈ heap' → Double.le (memory_strength root) (memory_strength x) = true).
Proof.
  intros Hh Hn He.
  destruct (extractMin_perm _ _ _ He) as (root & Hr & Hid & Hp).
  exists root. split; [by eapply list_elem_of_lookup_2|]. split; [done|].
  assert (∀ x, x ∈ heap →
            Double.le (memory_strength root) (memory_strength x) = true) as Hmin.
  { intros x [i Hi]%list_elem_of_lookup. exact (root_minimal _ _ _ _ Hh Hn Hr Hi). }
  split; [done|]. intros x Hx. apply Hmin. rewrite Hp. by right.
Qed.

(** X4.  [peekMin] answers what [extractMin] would answer, the same id or
    the same exception, and it throws exactly when [isEmpty()] holds. *)
Theorem peekMin_previews_extractMin (heap : MinHeap.t) :
  peekMin heap = (extractMin heap).2 ∧
  (peekMin heap = Thrown "Heap is empty" ↔ isEmpty heap = true).
Proof.
  destruct heap as [|root rest]; [done|].
  split; [|done].
  unfold peekMin, extractMin. cbn [lookup list_lookup].
  destruct (last (root :: rest)) eqn:Hl; [done|]. by apply last_None in Hl.
Qed.

(** X5.  [updateKey] with an id that no entry carries changes nothing: it
    adds no entry and reports nothing. *)
Theorem updateKey_unknown_id_changes_nothing
    (heap : MinHeap.t) (id : string) (s : float) :
  id ∉ concept_id <$> heap → updateKey heap id s = heap.
Proof.
  intros Hid. apply updateKey_absent. apply list_find_None.
  apply Forall_forall. intros x Hx Heq. apply Hid, elem_of_ids. by exists x.
Qed.

(** X6.  [updateKey] changes the first entry of the id and no other: when
    [n] is the first entry with its id, the entries afterwards are those
    before with [n] replaced by [(id, new_strength)]; later entries of the
    same id keep their strength. *)
Theorem updateKey_changes_first_entry_only
    (l1 l2 : MinHeap.t) (n : HeapNode) (s : float) :
  Forall (λ x, concept_id x ≠ concept_id n) l1 →
  updateKey (l1 ++ n :: l2) (concept_id n) s
  ≡ₚ l1 ++ mkHeapNode (concept_id n) s :: l2.
Proof.
  intros Hl1. rewrite (updateKey_perm _ _ _ _ _ (list_find_first l1 l2 n Hl1)).
  rewrite delete_middle. apply Permutation_middle.
Qed.

(** X7.  [rebuild] forgets the entries there were: afterwards the heap holds
    one entry per item of [data], with the item's id and strength, and
    [size()] is the number of items. *)
Theorem rebuild_replaces_contents (heap : MinHeap.t) (data : list (string * float)) :
  rebuild heap data ≡ₚ node_of <$> data ∧ size (rebuild heap data) = length data.
Proof. split; [apply rebuild_perm | apply rebuild_length]. Qed.

(** X8.  [rebuild] followed by [peekMin]: when [data] is not empty and
    holds no NaN, [peekMin] returns the id of an item of [data] whose
    strength is less than or equal to that of every item. *)
Theorem rebuild_then_peekMin_finds_a_least_item (heap : MinHeap.t)
    (data : list (string * float)) :
  data ≠ [] → Forall (λ item, Double.not_nan item.2) data →
  ∃ item, item ∈ data ∧ peekMin (rebuild heap data) = Returned item.1 ∧
    ∀ other, other ∈ data → Double.le item.2 other.2 = true.
Proof.
  intros Hne Hnn.
  pose proof (rebuild_is_heap heap data Hnn) as Hh.
  pose proof (rebuild_no_nan heap data Hnn) as Hn.
  pose proof (rebuild_perm heap data) as Hp.
  destruct (rebuild heap data) as [|root rest] eqn:Hr.
  { symmetry in Hp. apply Permutation_nil_r, fmap_nil_inv in Hp. done. }
  assert (root ∈ node_of <$> data) as Hroot by (rewrite <- Hp; left).
  apply list_elem_of_fmap in Hroot as (item & -> & Hitem).
  exists item. split; [done|]. split; [done|].
  intros other Ho.
  assert (node_of other ∈ node_of item :: rest) as Hin.
  { rewrite Hp. apply list_elem_of_fmap. by exists other. }
  apply list_elem_of_lookup in Hin as [i Hi].
  exact (root_minimal _ _ i _ Hh Hn eq_refl Hi).
Qed.

End QueueOperations.

(** ** The queue: the number of steps of [heapifyUp] and [heapifyDown] *)

Section QueueCost.
Import MinHeap MinHeapFacts.

Lemma parent_log2 i : 0 < i → Nat.log2 ((i - 1) / 2 + 1) < Nat.log2 (i + 1).
Proof.
  intros Hi.
  destruct (parent_bounds i) as [Hlo Hhi].
  set (q := (i - 1) / 2) in *.
  assert (2 ^ S (Nat.log2 (q + 1)) ≤ i + 1) as Hpow.
  { pose proof (Nat.log2_spec (q + 1) ltac:(lia)) as [H1 _].
    rewrite Nat.pow_succ_r'. lia. }
  apply Nat.log2_le_pow2 in Hpow; lia.
Qed.

Lemma child_log2 i j : child_of i j → Nat.log2 (j + 1) = S (Nat.log2 (i + 1)).
Proof.
  intros [-> | ->].
  - replace (2 * i + 1 + 1) with (2 * (i + 1)) by lia. apply Nat.log2_double. lia.
  - replace (2 * i + 2 + 1) with (2 * (i + 1) + 1) by lia.
    apply Nat.log2_succ_double. lia.
Qed.

Lemma minChild_child heap i :
  minChild heap i = i ∨
  (child_of i (minChild heap i) ∧ minChild heap i < length heap).
Proof.
  unfold minChild, child_of.
  destruct ((2 * i + 1 <? length heap) && less heap (2 * i + 1) i) eqn:Hl;
    [apply andb_true_iff in Hl as [Hl%Nat.ltb_lt _]|];
    (destruct ((2 * i + 2 <? length heap) && less heap (2 * i + 2) _) eqn:Hr;
       [apply andb_true_iff in Hr as [Hr%Nat.ltb_lt _]|]); cbn zeta; lia.
Qed.

Lemma heapifyUp_loop_log fuel1 fuel2 heap i :
  Nat.log2 (i + 1) ≤ fuel1 → Nat.log2 (i + 1) ≤ fuel2 →
  heapifyUp_loop fuel1 heap i = heapifyUp_loop fuel2 heap i.
Proof.
  revert fuel2 heap i. induction fuel1 as [|fuel1 IH]; intros fuel2 heap i H1 H2.
  - assert (i = 0) as ->.
    { destruct i; [done|]. pose proof (Nat.log2_pos (S i + 1)). lia. }
    by destruct fuel2.
  - destruct fuel2 as [|fuel2].
    { assert (i = 0) as ->.
      { destruct i; [done|]. pose proof (Nat.log2_pos (S i + 1)). lia. }
      done. }
    cbn [heapifyUp_loop].
    destruct ((0 <? i) && less heap i ((i - 1) / 2)) eqn:Hc; [|done].
    apply andb_true_iff in Hc as [Hi%Nat.ltb_lt _].
    pose proof (parent_log2 i Hi). apply IH; lia.
Qed.

Lemma heapifyDown_rec_log fuel1 fuel2 heap i :
  Nat.log2 (length heap) - Nat.log2 (i + 1) < fuel1 →
  Nat.log2 (length heap) - Nat.log2 (i + 1) < fuel2 →
  heapifyDown_rec fuel1 heap i = heapifyDown_rec fuel2 heap i.
Proof.
  revert fuel2 heap i. induction fuel1 as [|fuel1 IH]; intros fuel2 heap i H1 H2; [lia|].
  destruct fuel2 as [|fuel2]; [lia|].
  cbn [heapifyDown_rec]. cbn zeta.
  destruct (minChild heap i =? i) eqn:Hm; [done|].
  apply Nat.eqb_neq in Hm.
  destruct (minChild_child heap i) as [|[Hch Hlt]]; [done|].
  pose proof (child_log2 _ _ Hch) as Hlog.
  assert (Nat.log2 (minChild heap i + 1) ≤ Nat.log2 (length heap)) as Hle
    by (apply Nat.log2_le_mono; lia).
  apply IH; rewrite swap_length; lia.
Qed.

(** X9.  The loop of [heapifyUp] started at [index] ends after at most
    [log2 (index + 1)] iterations (rounded down): that many iterations give
    the result of the whole loop. *)
Theorem heapifyUp_makes_logarithmically_many_steps
    (heap : MinHeap.t) (index fuel : nat) :
  Nat.log2 (index + 1) ≤ fuel →
  heapifyUp_loop fuel heap index = heapifyUp heap index.
Proof.
  intros Hf. unfold heapifyUp.
  rewrite (heapifyUp_loop_log fuel (fuel `max` index)) by lia.
  apply heapifyUp_loop_fuel; lia.
Qed.

(** X10.  The recursion of [heapifyDown] started at [index] ends after at
    most [log2 (heap.size()) - log2 (index + 1) + 1] calls (logarithms
    rounded down): that many calls give the result of the whole recursion. *)
Theorem heapifyDown_makes_logarithmically_many_calls
    (heap : MinHeap.t) (index fuel : nat) :
  Nat.log2 (length heap) - Nat.log2 (index + 1) < fuel →
  heapifyDown_rec fuel heap index = heapifyDown heap index.
Proof.
  intros Hf. unfold heapifyDown.
  rewrite (heapifyDown_rec_log fuel (fuel `max` (length heap - index))) by lia.
  apply heapifyDown_rec_fuel; lia.
Qed.

End QueueCost.

(** ** The graph: what each operation does *)

Section GraphOperations.
Import MemoryGraph MinHeapFacts MemoryGraphFacts.

Variable traversal : gmap string Concept.t → list string.
Hypothesis traversal_keys : ∀ m, traversal m ≡ₚ (map_to_list m).*1.
Variable exp : float → float.

Lemma wrap_add_l (a b : Z) : Int32.wrap (Int32.wrap a + b) = Int32.wrap (a + b).
Proof.
  unfold Int32.wrap. f_equal.
  replace ((a + 2 ^ 31) mod 2 ^ 32 - 2 ^ 31 + b + 2 ^ 31)%Z
    with ((a + 2 ^ 31) mod 2 ^ 32 + b)%Z by lia.
  rewrite Zplus_mod_idemp_l. f_equal. lia.
Qed.

Lemma int32_add_assoc (a b c : Z) :
  Int32.add (Int32.add a b) c = Int32.add a (Int32.add b c).
Proof.
  unfold Int32.add. rewrite wrap_add_l.
  rewrite (Z.add_comm a (Int32.wrap _)), wrap_add_l. f_equal. lia.
Qed.

Lemma updateMemoryStrengths_unfold g :
  updateMemoryStrengths traversal exp g =
  let cs := (λ c, Concept.updateMemoryStrength exp c (current_day g) (lambda g))
              <$> concepts g in
  {| concepts := cs; graph := graph g;
     priority_queue := MinHeap.rebuild [] (queue_data traversal cs);
     current_day := current_day g; lambda := lambda g;
     total_revisions := total_revisions g |}.
Proof.
  unfold updateMemoryStrengths, rebuildPriorityQueue. cbn.
  by rewrite (alter_traversal traversal traversal_keys).
Qed.

Lemma fmap_updateMemoryStrength_twice (cs : gmap string Concept.t)
    day1 lambda1 day2 lambda2 :
  (λ c, Concept.updateMemoryStrength exp c day2 lambda2)
    <$> ((λ c, Concept.updateMemoryStrength exp c day1 lambda1) <$> cs)
  = (λ c, Concept.updateMemoryStrength exp c day2 lambda2) <$> cs.
Proof.
  apply map_eq. intros k. rewrite !lookup_fmap. by destruct (cs !! k).
Qed.

(** X11.  [insertConcept] followed by [getConcept]: the id now leads to the
    concept built from the arguments, stamped with the current day, and its
    prerequisites are the adjacency list of the id; the prerequisites are not
    looked up, so they need not exist.  Every other id leads to what it led
    to before, and the day, the decay rate and the revision counter are
    unchanged. *)
Theorem insertConcept_then_getConcept (g : t) (name id category : string)
    (initial_weight : float) (prerequisites : list string) :
  let g' := insertConcept g name id category initial_weight prerequisites in
  getConcept g' id
    = Some (Concept.new name id category initial_weight (current_day g) prerequisites)
  ∧ graph g' !! id = Some prerequisites
  ∧ (∀ k, k ≠ id → getConcept g' k = getConcept g k ∧ graph g' !! k = graph g !! k)
  ∧ current_day g' = current_day g ∧ lambda g' = lambda g
  ∧ total_revisions g' = total_revisions g.
Proof.
  cbn. unfold getConcept. cbn. rewrite !lookup_insert_eq.
  repeat split; try done; by rewrite lookup_insert_ne.
Qed.

(** X12.  [reviseConcept] on a concept of the graph returns normally and
    leaves the target revised: strength min(1.0, strength + boost), baseline
    equal to it, last revision today.  A target that lists its own id among
    its prerequisites is met again by the scan of connected concepts and
    gains the further 0.1 of a neighbour.  The revision counter grows by one
    (as an [int]); the day, the decay rate and the adjacency lists are
    unchanged. *)
Theorem reviseConcept_revises_the_target (g : t) (concept_id : string)
    (boost : float) (target : Concept.t) :
  concepts g !! concept_id = Some target → Concept.id target = concept_id →
  let g' := (reviseConcept traversal g concept_id boost).1 in
  let revised := Concept.revise target (current_day g) boost in
  (reviseConcept traversal g concept_id boost).2 = Returned ()
  ∧ getConcept g' concept_id
    = Some (if bool_decide (concept_id ∈ Concept.prerequisites target)
            then Concept.boostConnected revised else revised)
  ∧ total_revisions g' = Int32.add (total_revisions g) 1
  ∧ current_day g' = current_day g ∧ lambda g' = lambda g ∧ graph g' = graph g.
Proof.
  intros Hc Hid g' revised. subst g'.
  split; [by eapply reviseConcept_returns|].
  split.
  - unfold getConcept.
    rewrite (reviseConcept_concepts traversal traversal_keys _ _ _ _ Hc).
    rewrite lookup_fmap, lookup_insert_eq. cbn [fmap option_fmap option_map]. f_equal.
    unfold boost_if. cbn [Concept.revise Concept.prerequisites Concept.id].
    rewrite Hid, orb_diag.
    destruct (lists (Concept.prerequisites target) concept_id) eqn:Hl.
    + apply lists_spec in Hl. by rewrite bool_decide_eq_true_2.
    + rewrite bool_decide_eq_false_2; [done|].
      intros Hin%lists_spec. congruence.
  - unfold reviseConcept. by rewrite Hc.
Qed.

(** X13.  [reviseConcept] neither adds nor removes anything, whether it
    returns or throws: the graph has the same ids afterwards, the queue has
    entries for the same ids, as many of each, and no concept changes its
    name, id, category or prerequisites. *)
Theorem reviseConcept_adds_and_removes_nothing (g : t) (concept_id : string)
    (boost : float) :
  let g' := (reviseConcept traversal g concept_id boost).1 in
  (∀ k, is_Some (concepts g' !! k) ↔ is_Some (concepts g !! k))
  ∧ MinHeap.concept_id <$> priority_queue g' ≡ₚ MinHeap.concept_id <$> priority_queue g
  ∧ (∀ k c c', concepts g !! k = Some c → concepts g' !! k = Some c' →
       Concept.name c' = Concept.name c ∧ Concept.id c' = Concept.id c ∧
       Concept.category c' = Concept.category c ∧
       Concept.prerequisites c' = Concept.prerequisites c).
Proof.
  cbn zeta. split; [|split].
  - intros k. destruct (concepts g !! concept_id) as [target|] eqn:Hc.
    + rewrite (reviseConcept_concepts traversal traversal_keys _ _ _ _ Hc).
      rewrite lookup_fmap, fmap_is_Some, lookup_insert_is_Some.
      split.
      * intros [<-|[_ H]]; [by rewrite Hc|done].
      * intros Hk. destruct (decide (concept_id = k)); [by left|by right].
    + unfold reviseConcept. by rewrite Hc.
  - apply reviseConcept_queue_ids.
  - intros k c c' Hk Hk'. destruct (concepts g !! concept_id) as [target|] eqn:Hc.
    + rewrite (reviseConcept_concepts traversal traversal_keys _ _ _ _ Hc) in Hk'.
      rewrite lookup_fmap in Hk'.
      destruct (decide (k = concept_id)) as [->|Hne].
      * rewrite lookup_insert_eq in Hk'. cbn in Hk'. injection Hk' as <-.
        rewrite Hc in Hk. injection Hk as <-.
        unfold boost_if. by destruct (_ || _).
      * rewrite lookup_insert_ne, Hk in Hk' by done. cbn in Hk'. injection Hk' as <-.
        unfold boost_if. by destruct (_ || _).
    + unfold reviseConcept in Hk'. rewrite Hc in Hk'. cbn in Hk'.
      rewrite Hk in Hk'. by injection Hk' as <-.
Qed.

(** X14.  [updateMemoryStrengths] puts the queue in step with the map from
    any state, also one in which the queue holds stale or duplicate entries:
    afterwards the queue holds exactly one entry per concept, with the
    concept's current strength, so the two sizes agree and no id occurs
    twice. *)
Theorem updateMemoryStrengths_puts_the_queue_in_step (g : t) :
  let g' := updateMemoryStrengths traversal exp g in
  priority_queue g' ≡ₚ entry_of <$> map_to_list (concepts g')
  ∧ MinHeap.size (priority_queue g') = getTotalConcepts g'
  ∧ NoDup (MinHeap.concept_id <$> priority_queue g').
Proof.
  cbn zeta.
  pose proof (updateMemoryStrengths_synced traversal traversal_keys exp g) as Hs.
  split; [exact Hs|]. split; [by apply synced_size|].
  unfold synced in Hs. rewrite Hs, <- list_fmap_compose.
  apply (NoDup_fst_map_to_list (concepts (updateMemoryStrengths traversal exp g))).
Qed.

(** X15.  [updateMemoryStrengths] is idempotent: a second call right after
    the first changes nothing, because the strength is computed from the
    baseline and the day of the last revision, which the call does not
    touch. *)
Theorem updateMemoryStrengths_is_idempotent (g : t) :
  updateMemoryStrengths traversal exp (updateMemoryStrengths traversal exp g)
  = updateMemoryStrengths traversal exp g.
Proof.
  rewrite (updateMemoryStrengths_unfold (updateMemoryStrengths traversal exp g)).
  rewrite (updateMemoryStrengths_unfold g). cbn.
  by rewrite fmap_updateMemoryStrength_twice.
Qed.

(** X16.  Two passages of time add up: [simulateTimePassage(days1)] followed
    by [simulateTimePassage(days2)] leaves the graph, queue included, that a
    single [simulateTimePassage] of the [int] sum of the two leaves. *)
Theorem simulateTimePassage_adds_up (g : t) (days1 days2 : Z) :
  simulateTimePassage traversal exp (simulateTimePassage traversal exp g days1) days2
  = simulateTimePassage traversal exp g (Int32.add days1 days2).
Proof.
  unfold simulateTimePassage.
  rewrite !updateMemoryStrengths_unfold. cbn.
  by rewrite fmap_updateMemoryStrength_twice, int32_add_assoc.
Qed.

End GraphOperations.

(** ** The graph: invariants of the states the operations reach *)

Section GraphInvariants.
Import MemoryGraph MinHeapFacts MemoryGraphFacts.

Variable traversal : gmap string Concept.t → list string.
Hypothesis traversal_keys : ∀ m, traversal m ≡ₚ (map_to_list m).*1.
Variable exp : float → float.

Lemma covered_size g : covered g → getTotalConcepts g ≤ MinHeap.size (priority_queue g).
Proof.
  intros Hc. unfold getTotalConcepts, MinHeap.size.
  rewrite <- length_map_to_list, <- (length_fmap fst (map_to_list _)).
  rewrite <- (length_fmap MinHeap.concept_id (priority_queue g)).
  apply submseteq_length, NoDup_submseteq; [apply NoDup_fst_map_to_list|].
  intros k Hk. apply Hc.
  apply list_elem_of_fmap in Hk as ([k' c] & -> & Hkc).
  apply elem_of_map_to_list in Hkc. by exists c.
Qed.

(** X17.  On a run from the constructor in which every [insertConcept] uses
    an id not yet present and every weight and refreshed strength is a
    number, the queue stays in step with the map: it holds exactly one entry
    per concept, with the concept's current strength, it has the min-heap
    property, the two sizes agree, and every concept is stored under its own
    id with a strength that is a number. *)
Theorem admissible_runs_keep_the_queue_in_step (decay_rate : float) (ops : list op) :
  admissible_run traversal exp (new decay_rate) ops →
  let g := run traversal exp decay_rate ops in
  priority_queue g ≡ₚ entry_of <$> map_to_list (concepts g)
  ∧ MinHeap.is_heap (priority_queue g)
  ∧ MinHeap.size (priority_queue g) = getTotalConcepts g
  ∧ ∀ k c, concepts g !! k = Some c →
      Concept.id c = k ∧ Double.not_nan (Concept.memory_strength c).
Proof.
  intros Ha g.
  destruct (admissible_run_well_formed traversal traversal_keys exp _ _ Ha)
    as (Hids & Hs & Hh & Hn).
  fold g in Hids, Hs, Hh, Hn.
  split; [exact Hs|]. split; [exact Hh|]. split; [by apply synced_size|].
  intros k c Hk. split; [exact (Hids _ _ Hk)|].
  assert (entry_of (k, c) ∈ priority_queue g) as Hin.
  { unfold synced in Hs. rewrite Hs. apply list_elem_of_fmap.
    exists (k, c). split; [done|]. by apply elem_of_map_to_list. }
  unfold MinHeap.no_nan in Hn. rewrite Forall_forall in Hn.
  exact (Hn _ Hin).
Qed.

(** X19.  In every state the public operations reach from the constructor,
    with no condition on the ids or the weights: every concept is stored
    under its own id, the ids that have an entry in the queue are exactly the
    ids of the map, and the queue has at least as many entries as the map has
    concepts. *)
Theorem reachable_states_are_consistent (g : t) :
  reachable traversal exp g →
  (∀ k c, concepts g !! k = Some c → Concept.id c = k)
  ∧ (∀ k, is_Some (concepts g !! k) ↔ k ∈ MinHeap.concept_id <$> priority_queue g)
  ∧ getTotalConcepts g ≤ MinHeap.size (priority_queue g).
Proof.
  intros Hr.
  destruct (reachable_ids_match_covered traversal traversal_keys exp g Hr) as [Hids Hc].
  pose proof (reachable_known traversal traversal_keys exp g Hr) as Hk.
  split; [exact Hids|]. split; [|by apply covered_size].
  intros k. split; [apply Hc | apply Hk].
Qed.

(** X20.  In every reachable state [getNextRevisionRecommendation] returns
    without throwing; it returns the empty string when the graph has no
    concept, and otherwise the id of a concept of the graph. *)
Theorem recommendation_names_a_stored_concept (g : t) :
  reachable traversal exp g →
  ∃ id, getNextRevisionRecommendation g = Returned id ∧
    if decide (concepts g = ∅) then id = ""%string
    else is_Some (concepts g !! id).
Proof.
  intros Hr.
  destruct (reachable_ids_match_covered traversal traversal_keys exp g Hr) as [_ Hc].
  pose proof (reachable_known traversal traversal_keys exp g Hr) as Hk.
  destruct (getNextRevisionRecommendation_returns g) as [id Hid].
  exists id. split; [done|].
  destruct (decide (concepts g = ∅)) as [He|Hne].
  - rewrite (recommendation_of_reachable_empty_graph traversal traversal_keys exp g Hr He)
      in Hid.
    by injection Hid as <-.
  - unfold getNextRevisionRecommendation in Hid.
    destruct (priority_queue g) as [|root rest] eqn:Hq.
    + exfalso. apply Hne. apply map_empty. intros k.
      destruct (concepts g !! k) eqn:Hk'; [|done].
      assert (is_Some (concepts g !! k)) as Hs by (by rewrite Hk').
      apply Hc in Hs. rewrite Hq in Hs. by apply elem_of_nil in Hs.
    + cbn in Hid. injection Hid as <-. apply Hk. rewrite Hq. cbn. left.
Qed.

End GraphInvariants.

(** ** The graph: the queries *)

Section Queries.
Import MemoryGraph MinHeapFacts MemoryGraphFacts.

Variable traversal : gmap string Concept.t → list string.
Hypothesis traversal_keys : ∀ m, traversal m ≡ₚ (map_to_list m).*1.

Lemma queue_data_perm (cs : gmap string Concept.t) :
  queue_data traversal cs ≡ₚ strength_of <$> map_to_list cs.
Proof.
  unfold queue_data. rewrite (traversal_keys cs).
  by rewrite omap_lookup_pairs by (intros k c; apply elem_of_map_to_list).
Qed.

Lemma elem_of_strengths (cs : gmap string Concept.t) k s :
  (k, s) ∈ strength_of <$> map_to_list cs
  ↔ ∃ c, cs !! k = Some c ∧ Concept.memory_strength c = s.
Proof.
  rewrite list_elem_of_fmap. split.
  - intros ([k' c] & [= -> ->] & Hin). exists c. by apply elem_of_map_to_list in Hin.
  - intros (c & Hk & <-). exists (k, c). split; [done|]. by apply elem_of_map_to_list.
Qed.

Lemma strengths_keys (cs : gmap string Concept.t) :
  (strength_of <$> map_to_list cs).*1 = (map_to_list cs).*1.
Proof. by rewrite <- list_fmap_compose. Qed.

Section Sort.

(** What [std::sort] promises for the comparison [a.second < b.second]: the
    result is a permutation of the input, and when no strength is NaN (the
    comparison is then a strict weak ordering) no element is followed by one
    that the comparison puts before it. *)
Variable sort : list (string * float) → list (string * float).
Hypothesis sort_perm : ∀ l, sort l ≡ₚ l.
Hypothesis sort_sorted : ∀ l,
  Forall (λ item, Double.not_nan item.2) l →
  Sorted (λ a b, Double.lt b.2 a.2 = false) (sort l).

Lemma not_lt_sorted (l : list (string * float)) :
  Forall (λ item, Double.not_nan item.2) l →
  Sorted (λ a b, Double.lt b.2 a.2 = false) l →
  StronglySorted (λ a b, Double.le a.2 b.2 = true) l.
Proof.
  intros Hn Hs. induction Hs as [|x l Hs IH Hhd]; [constructor|].
  apply Forall_cons in Hn as [Hx Hn]. specialize (IH Hn).
  constructor; [done|].
  destruct Hhd as [|y l Hxy]; [constructor|].
  apply Forall_cons in Hn as [Hy Hn].
  assert (Double.le x.2 y.2 = true) as Hle by (by apply double_not_lt_le).
  constructor; [done|].
  apply StronglySorted_inv in IH as [_ Hall].
  eapply Forall_impl; [exact Hall|]. intros z Hz. cbn beta in Hz.
  eapply double_le_trans; eauto.
Qed.

Lemma sorted_lookup_le (l : list (string * float)) i j x y :
  Forall (λ item, Double.not_nan item.2) l →
  StronglySorted (λ a b, Double.le a.2 b.2 = true) l →
  i ≤ j → l !! i = Some x → l !! j = Some y → Double.le x.2 y.2 = true.
Proof.
  intros Hn Hs Hij Hi Hj.
  destruct (decide (i = j)) as [->|Hne].
  - rewrite Hi in Hj. injection Hj as <-. apply double_le_refl.
    rewrite Forall_lookup in Hn. exact (Hn _ _ Hi).
  - rewrite <- (take_drop j l) in Hs.
    eapply (StronglySorted_app_1_elem_of _ _ _ x y Hs).
    + apply list_elem_of_lookup. exists i. rewrite lookup_take_lt by lia. done.
    + apply list_elem_of_lookup. exists 0. by rewrite lookup_drop, Nat.add_0_r.
Qed.

Lemma recommendations_known (g : t) (count : Z) id :
  id ∈ getTopRevisionRecommendations traversal sort g count →
  is_Some (getConcept g id).
Proof.
  unfold getTopRevisionRecommendations. cbn zeta.
  intros ([k s] & -> & Hin)%list_elem_of_fmap.
  apply elem_of_take in Hin as (i & Hin & _). apply list_elem_of_lookup_2 in Hin.
  rewrite sort_perm, queue_data_perm in Hin.
  apply elem_of_strengths in Hin as (c & Hc & _). by exists c.
Qed.

(** X21.  [getTopRevisionRecommendations(count)] on a graph of fewer than
    2^31 concepts whose strengths are numbers: it returns min(count, number
    of concepts) ids, none for a count of zero or less; no id occurs twice;
    the ids come in ascending order of the strength of their concepts; and
    every id returned is that of a concept at most as strong as every
    concept that is not returned. *)
Theorem getTopRevisionRecommendations_lists_the_weakest (g : t) (count : Z) :
  (Z.of_nat (size (concepts g)) < 2 ^ 31)%Z →
  map_Forall (λ _ c, Double.not_nan (Concept.memory_strength c)) (concepts g) →
  let recommendations := getTopRevisionRecommendations traversal sort g count in
  length recommendations = Z.to_nat (Z.min count (Z.of_nat (size (concepts g))))
  ∧ NoDup recommendations
  ∧ (∀ i j a b ca cb, i ≤ j →
       recommendations !! i = Some a → recommendations !! j = Some b →
       concepts g !! a = Some ca → concepts g !! b = Some cb →
       Double.le (Concept.memory_strength ca) (Concept.memory_strength cb) = true)
  ∧ (∀ a, a ∈ recommendations →
       ∃ ca, concepts g !! a = Some ca ∧
         ∀ k c, concepts g !! k = Some c → k ∉ recommendations →
           Double.le (Concept.memory_strength ca) (Concept.memory_strength c) = true).
Proof.
  intros Hsize Hnn. unfold getTopRevisionRecommendations. cbn zeta.
  set (data := queue_data traversal (concepts g)).
  pose proof (queue_data_perm (concepts g)) as Hdata. fold data in Hdata.
  assert (sort data ≡ₚ strength_of <$> map_to_list (concepts g)) as Hperm
    by (by rewrite sort_perm).
  assert (length (sort data) = size (concepts g)) as Hlen
    by (by rewrite Hperm, length_fmap, length_map_to_list).
  assert (Forall (λ item, Double.not_nan item.2) data) as Hdn.
  { rewrite Hdata. apply Forall_forall. intros [k s] (c & Hk & <-)%elem_of_strengths.
    exact (Hnn _ _ Hk). }
  assert (Forall (λ item : string * float, Double.not_nan item.2) (sort data)) as Hsn
    by (by rewrite sort_perm).
  pose proof (not_lt_sorted _ Hsn (sort_sorted _ Hdn)) as Hss.
  assert (NoDup (sort data).*1) as Hnd.
  { rewrite Hperm, strengths_keys. apply NoDup_fst_map_to_list. }
  assert (∀ k s c, (k, s) ∈ sort data → concepts g !! k = Some c →
            s = Concept.memory_strength c) as Hval.
  { intros k s c Hin Hk. rewrite Hperm in Hin.
    apply elem_of_strengths in Hin as (c' & Hk' & <-). congruence. }
  rewrite Hlen, wrap_in_range by (unfold Int32.in_range; lia).
  set (n := Z.to_nat (Z.min count (Z.of_nat (size (concepts g))))).
  assert (n ≤ length (sort data)) as Hn by lia.
  assert (∀ i a, (take n (sort data)).*1 !! i = Some a →
            ∃ s, sort data !! i = Some (a, s) ∧ i < n) as Hidx.
  { intros i a Hi. rewrite list_lookup_fmap in Hi.
    destruct (take n (sort data) !! i) as [[a' s]|] eqn:Ht; [|done].
    injection Hi as ->. exists s.
    apply lookup_take_Some in Ht. done. }
  split; [by rewrite length_fmap, length_take; lia|].
  split.
  { rewrite fmap_take. eapply sublist_NoDup; [exact Hnd|]. apply sublist_take. }
  split.
  - intros i j a b ca cb Hij Hi Hj Ha Hb.
    apply Hidx in Hi as (sa & Hi & _). apply Hidx in Hj as (sb & Hj & _).
    rewrite <- (Hval a sa ca), <- (Hval b sb cb);
      [|by eapply list_elem_of_lookup_2..|done|by eapply list_elem_of_lookup_2|done].
    exact (sorted_lookup_le _ _ _ _ _ Hsn Hss Hij Hi Hj).
  - intros a [i Hi]%list_elem_of_lookup.
    apply Hidx in Hi as (sa & Hi & Hlt).
    assert ((a, sa) ∈ strength_of <$> map_to_list (concepts g)) as Hin
      by (rewrite <- Hperm; by eapply list_elem_of_lookup_2).
    apply elem_of_strengths in Hin as (ca & Ha & <-).
    exists ca. split; [done|]. intros k c Hk Hnot.
    assert ((k, Concept.memory_strength c) ∈ sort data) as Hkin.
    { rewrite Hperm. apply elem_of_strengths. by exists c. }
    apply list_elem_of_lookup in Hkin as [j Hj].
    assert (n ≤ j) as Hnj.
    { destruct (decide (n ≤ j)); [done|]. exfalso. apply Hnot.
      apply list_elem_of_lookup. exists j.
      rewrite list_lookup_fmap, lookup_take_lt by lia. by rewrite Hj. }
    apply (sorted_lookup_le _ i j _ _ Hsn Hss ltac:(lia) Hi Hj).
Qed.

End Sort.

Lemma count_fold (cs : gmap string Concept.t) (l : list string) (count : Z) :
  (0 ≤ count)%Z → (count + Z.of_nat (length l) < 2 ^ 31)%Z →
  foldl (λ count k,
           match cs !! k with
           | Some c =>
               if Double.lt (Concept.memory_strength c) 0.3
               then Int32.add count 1 else count
           | None => count
           end) count l
  = (count + Z.of_nat (length (filter (λ k, weak_key cs k = true) l)))%Z.
Proof.
  revert count. induction l as [|k l IH]; intros count H0 Hb; [cbn; lia|].
  cbn [foldl]. rewrite filter_cons.
  cbn [length] in Hb.
  pose proof (eq_refl : weak_key cs k = weak_key cs k) as Hw.
  unfold weak_key at 2 in Hw.
  destruct (cs !! k) as [c|]; [destruct (Double.lt _ _)|].
  - unfold Int32.add. rewrite wrap_in_range by (unfold Int32.in_range; lia).
    rewrite IH by lia. rewrite decide_True by done. cbn [length]. lia.
  - rewrite IH by lia. rewrite decide_False; [done|]. by rewrite Hw.
  - rewrite IH by lia. rewrite decide_False; [done|]. by rewrite Hw.
Qed.

Lemma weak_keys_length (cs : gmap string Concept.t) (l : list (string * Concept.t)) :
  (∀ k c, (k, c) ∈ l → cs !! k = Some c) →
  length (filter (λ k, weak_key cs k = true) l.*1)
  = length (filter (λ kc : string * Concept.t,
                      Double.lt (Concept.memory_strength kc.2) 0.3 = true) l).
Proof.
  induction l as [|[k c] l IH]; intros Hl; [done|].
  rewrite fmap_cons, !filter_cons. cbn [fst snd].
  assert (weak_key cs k = Double.lt (Concept.memory_strength c) 0.3) as Hw
    by (unfold weak_key; by rewrite (Hl k c) by left).
  specialize (IH (λ k' c' Hin, Hl k' c' (proj2 (elem_of_cons _ _ _) (or_intror Hin)))).
  destruct (Double.lt _ _).
  - rewrite !decide_True by done. cbn [length]. by rewrite IH.
  - rewrite !decide_False; [done|done|by rewrite Hw].
Qed.

(** X22.  [getUrgentCount] on a graph of fewer than 2^31 concepts is the
    number of concepts whose strength is below 0.3, whatever the order in
    which the map is visited; it lies between 0 and [getTotalConcepts()]. *)
Theorem getUrgentCount_counts_the_weak_concepts (g : t) :
  (Z.of_nat (getTotalConcepts g) < 2 ^ 31)%Z →
  getUrgentCount traversal g
  = Z.of_nat (length (filter (λ kc : string * Concept.t,
                                Double.lt (Concept.memory_strength kc.2) 0.3 = true)
                             (map_to_list (concepts g))))
  ∧ (0 ≤ getUrgentCount traversal g ≤ Z.of_nat (getTotalConcepts g))%Z.
Proof.
  unfold getTotalConcepts. intros Hsize.
  assert (length (traversal (concepts g)) = size (concepts g)) as Hlen
    by (by rewrite traversal_keys, length_fmap, length_map_to_list).
  assert (getUrgentCount traversal g
          = Z.of_nat (length (filter (λ kc : string * Concept.t,
                                Double.lt (Concept.memory_strength kc.2) 0.3 = true)
                             (map_to_list (concepts g))))) as ->.
  { unfold getUrgentCount. rewrite count_fold by lia.
    rewrite (traversal_keys (concepts g)), weak_keys_length; [lia|].
    intros k c. apply elem_of_map_to_list. }
  split; [done|].
  pose proof (length_filter (λ kc : string * Concept.t,
                Double.lt (Concept.memory_strength kc.2) 0.3 = true)
                (map_to_list (concepts g))) as Hle.
  rewrite length_map_to_list in Hle. lia.
Qed.

End Queries.

(** ** Texts: [std::string] and [std::getline] *)

Section Strings.

Lemma append_cons (x : ascii) (a b : string) : String x a +:+ b = String x (a +:+ b).
Proof. done. Qed.

Lemma append_char (x : ascii) (b : string) : String x "" +:+ b = String x b.
Proof. done. Qed.

Lemma append_assoc (a b c : string) : (a +:+ b) +:+ c = a +:+ (b +:+ c).
Proof. induction a as [|x a IH]; [done|]. by rewrite !append_cons, IH. Qed.

Lemma append_nil_r (a : string) : a +:+ "" = a.
Proof. induction a as [|x a IH]; [done|]. by rewrite append_cons, IH. Qed.

Lemma length_append (a b : string) :
  String.length (a +:+ b) = String.length a + String.length b.
Proof. induction a as [|x a IH]; [done|]. rewrite append_cons. cbn. by rewrite IH. Qed.

Lemma find_none_cons c x s :
  StdString.find (String x s) c = None ↔ x ≠ c ∧ StdString.find s c = None.
Proof.
  cbn. destruct (Ascii.eqb_spec x c) as [->|Hne].
  - split; [done|]. by intros [? _].
  - destruct (StdString.find s c); cbn; split; try done. by intros [_ ?].
Qed.

Lemma find_none_append c a b :
  StdString.find (a +:+ b) c = None
  ↔ StdString.find a c = None ∧ StdString.find b c = None.
Proof.
  induction a as [|x a IH]; [change ("" +:+ b) with b; cbn; tauto|].
  rewrite append_cons, !find_none_cons, IH. tauto.
Qed.

Lemma find_first c a b :
  StdString.find a c = None →
  StdString.find (a +:+ String c b) c = Some (String.length a).
Proof.
  induction a as [|x a IH]; intros Ha.
  - change ("" +:+ String c b) with (String c b). cbn. by rewrite Ascii.eqb_refl.
  - apply find_none_cons in Ha as [Hx Ha]. rewrite append_cons. cbn.
    apply Ascii.eqb_neq in Hx. by rewrite Hx, (IH Ha).
Qed.

Lemma substring_prefix a b :
  String.substring 0 (String.length a) (a +:+ b) = a.
Proof.
  induction a as [|x a IH]; [by destruct b|].
  rewrite append_cons. cbn. by rewrite IH.
Qed.

Lemma substring_all b : String.substring 0 (String.length b) b = b.
Proof. induction b as [|x b IH]; [done|]. cbn. by rewrite IH. Qed.

Lemma substring_suffix a b n :
  n = String.length b →
  String.substring (String.length a) n (a +:+ b) = b.
Proof.
  intros ->. induction a as [|x a IH]; [apply substring_all|].
  rewrite append_cons. cbn. exact IH.
Qed.

Lemma concat_cons sep x y ys :
  String.concat sep (x :: y :: ys) = x +:+ sep +:+ String.concat sep (y :: ys).
Proof. done. Qed.

Lemma concat_empty_cons (a : string) (l : list string) :
  String.concat "" (a :: l) = a +:+ String.concat "" l.
Proof. destruct l; [by rewrite append_nil_r|done]. Qed.

Lemma concat_comma (x : string) (rest : list string) :
  String.concat "," (x :: rest)
  = x +:+ String.concat "" ((λ y, "," +:+ y) <$> rest).
Proof.
  revert x. induction rest as [|y rest IH]; intros x; [by rewrite append_nil_r|].
  by rewrite concat_cons, IH, fmap_cons, concat_empty_cons, append_assoc.
Qed.

Lemma until_delim delim s r :
  StdString.find s delim = None →
  IStream.until delim (s +:+ String delim r) = (s, Some r).
Proof.
  induction s as [|x s IH]; intros Hs.
  - change ("" +:+ String delim r) with (String delim r). cbn.
    by rewrite Ascii.eqb_refl.
  - apply find_none_cons in Hs as [Hx Hs]. rewrite append_cons. cbn.
    apply Ascii.eqb_neq in Hx. rewrite Hx, (IH Hs). done.
Qed.

Lemma until_end delim s :
  StdString.find s delim = None → IStream.until delim s = (s, None).
Proof.
  induction s as [|x s IH]; intros Hs; [done|].
  apply find_none_cons in Hs as [Hx Hs]. cbn.
  apply Ascii.eqb_neq in Hx. rewrite Hx, (IH Hs). done.
Qed.

Lemma getline_delim delim s r str :
  StdString.find s delim = None →
  IStream.getline (IStream.of_string (s +:+ String delim r)) str delim
  = (IStream.of_string r, s).
Proof. intros Hs. unfold IStream.getline. cbn. by rewrite until_delim. Qed.

Lemma getline_end delim s str :
  StdString.find s delim = None →
  IStream.getline (IStream.of_string s) str delim
  = (IStream.mk "" true (match s with EmptyString => true | _ => false end), s).
Proof. intros Hs. unfold IStream.getline. cbn. by rewrite until_end. Qed.

Lemma getline_not_good rest eofbit failbit str delim :
  eofbit || failbit = true →
  IStream.getline (IStream.mk rest eofbit failbit) str delim
  = (IStream.mk rest eofbit true, str).
Proof.
  intros H. unfold IStream.getline, IStream.good. cbn.
  by destruct eofbit, failbit.
Qed.

Lemma length_concat_fields delim sep (l : list string) :
  Forall (StdString.field delim) l → length l ≤ String.length (String.concat sep l).
Proof.
  induction l as [|x [|y l] IH]; intros Hl; [done|..].
  - apply Forall_cons in Hl as [[Hx _] _]. destruct x; [done|cbn; lia].
  - apply Forall_cons in Hl as [[Hx _] Hl]. specialize (IH Hl).
    rewrite concat_cons, !length_append. cbn [length] in *.
    destruct x; [done|cbn [String.length]; lia].
Qed.

Lemma find_none_concat delim (l : list string) :
  StdString.find "," delim = None →
  Forall (λ p, StdString.find p delim = None) l →
  StdString.find (String.concat "," l) delim = None.
Proof.
  intros Hsep. induction l as [|x [|y l] IH]; intros Hl; [done|..].
  - by apply Forall_cons in Hl as [Hx _].
  - apply Forall_cons in Hl as [Hx Hl]. rewrite concat_cons.
    rewrite !find_none_append. by auto.
Qed.

Lemma read_prerequisites_fields (l : list string) fuel prereq acc :
  Forall (StdString.field ",") l → length l < fuel →
  read_prerequisites fuel (IStream.of_string (String.concat "," l)) prereq acc
  = acc ++ l.
Proof.
  revert fuel prereq acc. induction l as [|x [|y l] IH]; intros fuel prereq acc Hl Hf.
  - destruct fuel as [|fuel]; [cbn in Hf; lia|]. cbn. by rewrite app_nil_r.
  - apply Forall_cons in Hl as [[Hx Hfx] _].
    destruct fuel as [|[|fuel]]; [cbn in Hf; lia..|].
    cbn [String.concat read_prerequisites].
    rewrite (getline_end _ _ _ Hfx). cbn [fst snd IStream.to_bool IStream.failbit].
    destruct x as [|c x]; [done|]. cbn [negb].
    rewrite getline_not_good by done. done.
  - apply Forall_cons in Hl as [[Hx Hfx] Hl].
    destruct fuel as [|fuel]; [cbn in Hf; lia|].
    rewrite concat_cons. cbn [read_prerequisites].
    rewrite append_char.
    rewrite (getline_delim _ _ _ _ Hfx). cbn [fst snd].
    change (IStream.to_bool (IStream.of_string _)) with true. cbn iota.
    rewrite IH; [by rewrite <- app_assoc|done|cbn [length] in *; lia].
Qed.

Lemma read_concept_fields (name id category : string) (prerequisites : list string) :
  StdString.find name "|" = None → StdString.find id "|" = None →
  StdString.find category "|" = None →
  Forall (λ p, p ≠ ""%string ∧ StdString.find p "," = None
               ∧ StdString.find p "|" = None) prerequisites →
  read_concept
    (name +:+ "|" +:+ id +:+ "|" +:+ category +:+ "|"
       +:+ String.concat "," prerequisites)
  = (name, id, category, prerequisites).
Proof.
  intros Hname Hid Hcat Hp. unfold read_concept. cbn zeta.
  rewrite !append_char.
  rewrite (getline_delim _ _ _ _ Hname). cbn [fst snd].
  rewrite (getline_delim _ _ _ _ Hid). cbn [fst snd].
  rewrite (getline_delim _ _ _ _ Hcat). cbn [fst snd].
  assert (StdString.find (String.concat "," prerequisites) "|" = None) as Hnone.
  { apply find_none_concat; [done|].
    eapply Forall_impl; [exact Hp|]. by intros p (_ & _ & H). }
  rewrite (getline_end _ _ _ Hnone). cbn [fst snd].
  assert (Forall (StdString.field ",") prerequisites) as Hf.
  { eapply Forall_impl; [exact Hp|]. by intros p (? & ? & _). }
  destruct (String.concat "," prerequisites) as [|c s] eqn:Hc.
  - destruct prerequisites as [|x l]; [done|].
    pose proof (length_concat_fields "," "," _ Hf) as Hlen.
    rewrite Hc in Hlen. cbn in Hlen. lia.
  - rewrite <- Hc. rewrite read_prerequisites_fields; [done|done|].
    pose proof (length_concat_fields "," "," _ Hf). lia.
Qed.

(** The fuel of the loop of [read_prerequisites] is enough on every text. *)
Lemma until_length delim s :
  match IStream.until delim s with
  | (line, Some rest') => String.length rest' < String.length s
  | (line, None) => line = s
  end.
Proof.
  induction s as [|x s IH]; [done|]. cbn.
  destruct (Ascii.eqb x delim); [cbn; lia|].
  destruct (IStream.until delim s) as [line [rest'|]]; cbn in *; [lia|by f_equal].
Qed.

Lemma getline_progress stream str delim :
  let r := IStream.getline stream str delim in
  IStream.to_bool r.1 = true →
  String.length (IStream.rest r.1) < String.length (IStream.rest stream)
  ∨ (IStream.good r.1 = false ∧ IStream.rest r.1 = ""%string
     ∧ 0 < String.length (IStream.rest stream)).
Proof.
  unfold IStream.getline. destruct (IStream.good stream); [|done].
  pose proof (until_length delim (IStream.rest stream)) as Hu.
  destruct (IStream.until delim (IStream.rest stream)) as [line [rest'|]]; cbn.
  - by left.
  - subst line. destruct (IStream.rest stream); [done|]. intros _. right.
    repeat split. cbn. lia.
Qed.

Lemma getline_not_good_fails stream str delim :
  IStream.good stream = false →
  IStream.to_bool (IStream.getline stream str delim).1 = false.
Proof. intros H. unfold IStream.getline. by rewrite H. Qed.

Lemma read_prerequisites_fuel fuel1 fuel2 stream prereq acc :
  String.length (IStream.rest stream) < fuel1 →
  String.length (IStream.rest stream) < fuel2 →
  read_prerequisites fuel1 stream prereq acc = read_prerequisites fuel2 stream prereq acc.
Proof.
  revert fuel2 stream prereq acc.
  induction fuel1 as [|fuel1 IH]; intros fuel2 stream prereq acc H1 H2; [lia|].
  destruct fuel2 as [|fuel2]; [lia|]. cbn [read_prerequisites]. cbn zeta.
  pose proof (getline_progress stream prereq ",") as Hp. cbn zeta in Hp.
  destruct (IStream.to_bool (IStream.getline stream prereq ",").1) eqn:Hb; [|done].
  destruct (Hp eq_refl) as [Hlt|(Hg & Hr & Hpos)].
  - apply IH; lia.
  - destruct fuel1 as [|fuel1]; [lia|]. destruct fuel2 as [|fuel2]; [lia|].
    cbn [read_prerequisites]. cbn zeta.
    by rewrite !getline_not_good_fails.
Qed.

End Strings.

(** ** The JSON texts *)

Section Json.
Import MemoryGraph MinHeapFacts MemoryGraphFacts.

Variable traversal : gmap string Concept.t → list string.
Hypothesis traversal_keys : ∀ m, traversal m ≡ₚ (map_to_list m).*1.
Variable sort : list (string * float) → list (string * float).
Hypothesis sort_perm : ∀ l, sort l ≡ₚ l.
Variable fixed2 : float → string.
Variable show_int : Z → string.

Lemma omap_cons_Some {A B} (f : A → option B) x y l :
  f x = Some y → omap f (x :: l) = y :: omap f l.
Proof. intros H. cbn. by rewrite H. Qed.

Lemma omap_cons_None {A B} (f : A → option B) x l :
  f x = None → omap f (x :: l) = omap f l.
Proof. intros H. cbn. by rewrite H. Qed.

Lemma omap_lookup_values (cs : gmap string Concept.t) (l : list (string * Concept.t)) :
  (∀ k c, (k, c) ∈ l → cs !! k = Some c) →
  omap (λ k, cs !! k) l.*1 = l.*2.
Proof.
  induction l as [|[k c] l IH]; intros Hl; [done|].
  rewrite !fmap_cons. cbn [fst snd].
  rewrite (omap_cons_Some _ _ c) by (apply Hl; left).
  f_equal. apply IH. intros k' c' Hin. apply Hl. by right.
Qed.

Lemma toJSON_fold_rest (cs : gmap string Concept.t) (l : list string) (oss : string) :
  foldl (toJSON_step fixed2 show_int cs) (oss, false) l
  = (oss +:+ String.concat ""
       ((λ y, "," +:+ y) <$> (Concept.toJSON fixed2 show_int <$> omap (λ k, cs !! k) l)),
     false).
Proof.
  revert oss. induction l as [|k l IH]; intros oss; [by rewrite append_nil_r|].
  cbn [foldl]. unfold toJSON_step at 2.
  destruct (cs !! k) as [c|] eqn:Hk.
  - rewrite (omap_cons_Some _ _ c) by done.
    cbn [fst snd]. rewrite IH, !fmap_cons, concat_empty_cons. by rewrite !append_assoc.
  - rewrite omap_cons_None by done. apply IH.
Qed.

Lemma toJSON_fold (cs : gmap string Concept.t) (l : list string) (oss : string) :
  (foldl (toJSON_step fixed2 show_int cs) (oss, true) l).1
  = oss +:+ String.concat ","
      (Concept.toJSON fixed2 show_int <$> omap (λ k, cs !! k) l).
Proof.
  revert oss. induction l as [|k l IH]; intros oss; [by rewrite append_nil_r|].
  cbn [foldl]. unfold toJSON_step at 2.
  destruct (cs !! k) as [c|] eqn:Hk.
  - rewrite (omap_cons_Some _ _ c) by done.
    cbn [fst snd]. rewrite toJSON_fold_rest. cbn [fst].
    by rewrite fmap_cons, concat_comma, append_nil_r, append_assoc.
  - rewrite omap_cons_None by done. apply IH.
Qed.

(** X23.  [getAllConcepts] lists every concept of the map exactly once, and
    [MemoryGraph::toJSON] is an opening bracket, the JSON objects of these
    concepts in that order with one comma between two neighbours, none
    before the first or after the last, and a closing bracket; for a graph
    without concepts it is the empty array. *)
Theorem toJSON_is_a_comma_separated_array (g : t) :
  getAllConcepts traversal g ≡ₚ (map_to_list (concepts g)).*2
  ∧ toJSON traversal fixed2 show_int g
    = "[" +:+ String.concat ","
                (Concept.toJSON fixed2 show_int <$> getAllConcepts traversal g)
      +:+ "]".
Proof.
  split.
  - unfold getAllConcepts. rewrite (traversal_keys (concepts g)).
    rewrite omap_lookup_values; [done|]. intros k c. apply elem_of_map_to_list.
  - unfold toJSON, getAllConcepts. cbn zeta.
    by rewrite toJSON_fold, append_assoc.
Qed.

Lemma queue_fold (g : t) (size : nat) (l : list string) (offset : nat) (oss : string) :
  (∀ id, id ∈ l → is_Some (getConcept g id)) →
  offset + length l = size →
  foldl (getRevisionQueueJSON_step fixed2 show_int g size) oss
    (imap (λ i id, (offset + i, id)) l)
  = oss +:+ String.concat ","
      (Concept.toJSON fixed2 show_int <$> omap (getConcept g) l).
Proof.
  revert offset oss. induction l as [|x l IH]; intros offset oss Hl Hsize.
  { by rewrite append_nil_r. }
  destruct (Hl x ltac:(left)) as [c Hc].
  cbn [imap foldl]. unfold getRevisionQueueJSON_step at 2. cbn [fst snd]. rewrite Hc.
  rewrite (imap_ext _ (λ i id, (S offset + i, id)))
    by (intros i y _; cbn; f_equal; lia).
  rewrite IH; [|intros id Hid; apply Hl; by right|cbn [length] in Hsize; lia].
  rewrite (omap_cons_Some _ _ _ _ Hc), fmap_cons.
  destruct l as [|y l].
  - replace (offset + 0 <? size - 1) with false
      by (symmetry; apply Nat.ltb_ge; cbn [length] in Hsize; lia).
    cbn [omap fmap list_fmap String.concat]. by rewrite !append_nil_r.
  - replace (offset + 0 <? size - 1) with true
      by (symmetry; apply Nat.ltb_lt; cbn [length] in Hsize; lia).
    destruct (Hl y ltac:(right; left)) as [c' Hc'].
    rewrite (omap_cons_Some _ _ _ _ Hc'), fmap_cons, concat_cons.
    by rewrite !append_assoc.
Qed.

(** X24.  [getRevisionQueueJSON(count)] is an opening bracket, the JSON
    objects of the concepts named by [getTopRevisionRecommendations(count)]
    in that order with one comma between two neighbours and none after the
    last, and a closing bracket; every recommended id is found, so there are
    as many objects as recommendations. *)
Theorem getRevisionQueueJSON_is_a_comma_separated_array (g : t) (count : Z) :
  let recommendations := getTopRevisionRecommendations traversal sort g count in
  getRevisionQueueJSON traversal sort fixed2 show_int g count
  = "[" +:+ String.concat ","
              (Concept.toJSON fixed2 show_int <$> omap (getConcept g) recommendations)
    +:+ "]"
  ∧ length (omap (getConcept g) recommendations) = length recommendations.
Proof.
  intros recommendations.
  assert (∀ id, id ∈ recommendations → is_Some (getConcept g id)) as Hk
    by (intros id; by apply recommendations_known).
  split.
  - unfold getRevisionQueueJSON. cbn zeta. fold recommendations.
    rewrite (queue_fold g _ recommendations 0); [by rewrite append_assoc|done|done].
  - clearbody recommendations.
    induction recommendations as [|x l IH]; [done|].
    destruct (Hk x ltac:(left)) as [c Hc].
    rewrite (omap_cons_Some _ _ _ _ Hc). cbn [length]. f_equal.
    apply IH. intros id Hid. apply Hk. by right.
Qed.

End Json.

(** ** The commands *)

Section Commands.
Import MemoryGraph MinHeapFacts MemoryGraphFacts.

Variable traversal : gmap string Concept.t → list string.
Variable exp : float → float.
Variable sort : list (string * float) → list (string * float).
Variable fixed2 : float → string.
Variable show_int : Z → string.
Variable show_double : float → string.
Variable stoi : string → outcome Z.
Variable stod : string → outcome float.

(** X25.  [ADD_CONCEPT] reads back the fields of its data: for a name, an
    id and a category without a bar, and prerequisites that are not empty
    and hold neither a comma nor a bar, the command on the text
    name|id|category|p1,...,pn calls [insertConcept] with exactly these, at
    weight 1.0, and answers success. *)
Theorem ADD_CONCEPT_reads_its_fields (g : MemoryGraph.t) (name id category : string)
    (prerequisites : list string) :
  StdString.find name "|" = None → StdString.find id "|" = None →
  StdString.find category "|" = None →
  Forall (λ p, p ≠ ""%string ∧ StdString.find p "," = None
               ∧ StdString.find p "|" = None) prerequisites →
  processCommand traversal exp sort fixed2 show_int show_double stoi stod
    g "ADD_CONCEPT"
    (name +:+ "|" +:+ id +:+ "|" +:+ category +:+ "|"
       +:+ String.concat "," prerequisites)
  = (insertConcept g name id category 1.0 prerequisites,
     status_line "success" "message" (Text.quoted "Concept added") +:+ Text.endl).
Proof.
  intros Hname Hid Hcat Hp. unfold processCommand.
  cbn [String.eqb Ascii.eqb Bool.eqb].
  by rewrite (read_concept_fields _ _ _ _ Hname Hid Hcat Hp).
Qed.

(** X26.  [ADD_CONCEPT] does not check its data: a text without a bar is
    taken as the name, the id and the category are empty, there is no
    prerequisite, and the concept is stored under the empty id with a success
    answer. *)
Theorem ADD_CONCEPT_accepts_a_bare_name (g : MemoryGraph.t) (name : string) :
  StdString.find name "|" = None →
  processCommand traversal exp sort fixed2 show_int show_double stoi stod
    g "ADD_CONCEPT" name
  = (insertConcept g name "" "" 1.0 [],
     status_line "success" "message" (Text.quoted "Concept added") +:+ Text.endl).
Proof.
  intros Hname. unfold processCommand.
  cbn [String.eqb Ascii.eqb Bool.eqb].
  unfold read_concept. cbn zeta.
  rewrite (getline_end _ _ _ Hname). cbn [fst snd].
  rewrite !getline_not_good by done. done.
Qed.

Lemma success_is_no_error (field value tail : string) :
  String.prefix ("{" +:+ Text.quoted "status" +:+ ":" +:+ Text.quoted "error")
    (status_line "success" field value +:+ tail) = false.
Proof. reflexivity. Qed.

(** X27.  A command that answers with an error leaves the graph as it was:
    whenever the text written starts with the status "error" (unknown
    command, unknown concept, a number that cannot be read), the graph after
    the command is the graph before it. *)
Theorem processCommand_answers_error_without_change (g : MemoryGraph.t)
    (command data : string) :
  String.prefix ("{" +:+ Text.quoted "status" +:+ ":" +:+ Text.quoted "error")
    (processCommand traversal exp sort fixed2 show_int show_double stoi stod
       g command data).2 = true →
  (processCommand traversal exp sort fixed2 show_int show_double stoi stod
     g command data).1 = g.
Proof.
  unfold processCommand.
  destruct (String.eqb command "GET_ALL_CONCEPTS"); [done|].
  destruct (String.eqb command "GET_STATS"); [done|].
  destruct (String.eqb command "GET_REVISION_QUEUE"); [done|].
  destruct (String.eqb command "REVISE_CONCEPT").
  { unfold reviseConcept. destruct (concepts g !! data); [|done].
    cbn [fst snd]. by rewrite success_is_no_error. }
  destruct (String.eqb command "SIMULATE_TIME").
  { destruct (stoi data); [|done]. cbn [fst snd]. by rewrite success_is_no_error. }
  destruct (String.eqb command "ADD_CONCEPT").
  { destruct (read_concept data) as [[[name id] category] prerequisites].
    cbn [fst snd]. by rewrite success_is_no_error. }
  destruct (String.eqb command "SET_DECAY_RATE"); [|done].
  destruct (stod data); [|done]. cbn [fst snd]. by rewrite success_is_no_error.
Qed.

Lemma processCommand_steps (g : MemoryGraph.t) (command data : string) :
  ∃ ops,
    (processCommand traversal exp sort fixed2 show_int show_double stoi stod
       g command data).1
    = foldl (step traversal exp) g ops.
Proof.
  unfold processCommand.
  destruct (String.eqb command "GET_ALL_CONCEPTS"); [by exists []|].
  destruct (String.eqb command "GET_STATS"); [by exists []|].
  destruct (String.eqb command "GET_REVISION_QUEUE"); [by exists []|].
  destruct (String.eqb command "REVISE_CONCEPT").
  { exists [ReviseConcept data 0.4]. cbn [foldl step].
    by destruct (reviseConcept traversal g data 0.4) as [g' [[]|what]]. }
  destruct (String.eqb command "SIMULATE_TIME").
  { destruct (stoi data) as [days|what]; [|by exists []].
    by exists [SimulateTimePassage days]. }
  destruct (String.eqb command "ADD_CONCEPT").
  { destruct (read_concept data) as [[[name id] category] prerequisites].
    by exists [InsertConcept name id category 1.0 prerequisites]. }
  destruct (String.eqb command "SET_DECAY_RATE"); [|by exists []].
  destruct (stod data) as [rate|what]; [|by exists []].
  by exists [SetDecayRate rate; UpdateMemoryStrengths].
Qed.

Lemma reachable_steps (g : MemoryGraph.t) (ops : list op) :
  reachable traversal exp g → reachable traversal exp (foldl (step traversal exp) g ops).
Proof.
  intros (decay_rate & ops0 & ->). exists decay_rate, (ops0 ++ ops).
  unfold run. by rewrite foldl_app.
Qed.

(** X28.  Whatever commands the program is given, with whatever data, the
    graph it holds is a state that the public operations of [MemoryGraph]
    reach from the constructor: the sample data followed by the operations
    of the commands that succeed.  The invariants of the reachable states
    hold of every state of the program. *)
Theorem program_states_are_reachable (commands : list (string * string)) :
  reachable traversal exp
    (foldl (λ g cd,
              (processCommand traversal exp sort fixed2 show_int show_double
                 stoi stod g cd.1 cd.2).1)
           initializeSampleData commands).
Proof.
  assert (reachable traversal exp initializeSampleData) as Hinit
    by (by exists 0.15%float, sample_ops).
  revert Hinit. generalize initializeSampleData.
  induction commands as [|[command data] commands IH]; intros g Hg; [done|].
  cbn [foldl fst snd]. apply IH.
  destruct (processCommand_steps g command data) as [ops ->].
  by apply reachable_steps.
Qed.

(** X29.  [main] splits a line at its first space: a command without a
    space, a space and any data give back the command and the data, further
    spaces staying in the data; a line without a space is a command with
    empty data. *)
Theorem split_line_separates_at_the_first_space (command data : string) :
  StdString.find command " " = None →
  split_line (command +:+ " " +:+ data) = (command, data)
  ∧ split_line command = (command, ""%string).
Proof.
  intros Hc. unfold split_line. cbn zeta. rewrite append_char. split.
  - rewrite (find_first _ _ _ Hc). unfold StdString.substr_to, StdString.substr_from.
    rewrite substring_prefix. f_equal.
    replace (String.length command + 1) with (String.length (command +:+ " "))
      by (rewrite length_append; done).
    replace (command +:+ String " " data) with ((command +:+ " ") +:+ data)
      by (by rewrite append_assoc, append_char).
    apply substring_suffix. rewrite !length_append. cbn. lia.
  - by rewrite Hc.
Qed.

(** The fuel of the loop of [main] is enough on every input. *)
Lemma main_loop_fuel fuel1 fuel2 cin line g cout :
  String.length (IStream.rest cin) < fuel1 →
  String.length (IStream.rest cin) < fuel2 →
  main_loop traversal exp sort fixed2 show_int show_double stoi stod
    fuel1 cin line g cout
  = main_loop traversal exp sort fixed2 show_int show_double stoi stod
      fuel2 cin line g cout.
Proof.
  revert fuel2 cin line g cout.
  induction fuel1 as [|fuel1 IH]; intros fuel2 cin line g cout H1 H2; [lia|].
  destruct fuel2 as [|fuel2]; [lia|]. cbn [main_loop]. cbn zeta.
  pose proof (getline_progress cin line Text.newline) as Hp. cbn zeta in Hp.
  destruct (IStream.to_bool (IStream.getline cin line Text.newline).1) eqn:Hb; [|done].
  destruct (_ || _); [done|].
  destruct (Hp eq_refl) as [Hlt|(Hg & Hr & Hpos)].
  - apply IH; lia.
  - destruct fuel1 as [|fuel1]; [lia|]. destruct fuel2 as [|fuel2]; [lia|].
    cbn [main_loop]. cbn zeta.
    by rewrite !getline_not_good_fails.
Qed.

Lemma session_length lines tail : length lines ≤ String.length (session lines tail).
Proof.
  induction lines as [|l lines IH]; [cbn; lia|].
  cbn [session foldr length]. rewrite !length_append. fold (session lines tail).
  cbn [String.length Text.endl]. lia.
Qed.

Lemma main_loop_session lines tail fuel line g cout :
  Forall command_line lines →
  stops traversal exp sort fixed2 show_int show_double stoi stod tail →
  length lines < fuel →
  main_loop traversal exp sort fixed2 show_int show_double stoi stod
    fuel (IStream.of_string (session lines tail)) line g cout
  = process_lines traversal exp sort fixed2 show_int show_double stoi stod
      lines (g, cout).
Proof.
  intros Hl Ht. revert fuel line g cout.
  induction Hl as [|l lines (Hne & Hexit & Hnl) Hl IH]; intros fuel line g cout Hf.
  - destruct fuel as [|fuel]; [cbn in Hf; lia|]. apply Ht.
  - destruct fuel as [|fuel]; [cbn in Hf; lia|].
    cbn [session foldr]. fold (session lines tail).
    unfold Text.endl at 1. rewrite append_char.
    cbn [main_loop]. rewrite (getline_delim _ _ _ _ Hnl). cbn [fst snd].
    change (IStream.to_bool (IStream.of_string _)) with true. cbn iota.
    apply String.eqb_neq in Hne, Hexit. rewrite Hne, Hexit. cbn [orb].
    rewrite IH by (cbn [length] in Hf; lia). done.
Qed.

Lemma stops_at_end :
  stops traversal exp sort fixed2 show_int show_double stoi stod "".
Proof. by intros fuel line g cout. Qed.

Lemma stops_at_empty_line rest :
  stops traversal exp sort fixed2 show_int show_double stoi stod (Text.endl +:+ rest).
Proof. by intros fuel line g cout. Qed.

Lemma stops_at_EXIT rest :
  stops traversal exp sort fixed2 show_int show_double stoi stod
    ("EXIT" +:+ Text.endl +:+ rest).
Proof. by intros fuel line g cout. Qed.

(** X30.  Without arguments [main] processes the lines of its input in
    order, each on the graph the line before left, starting from the sample
    data, and writes their answers one after the other; it stops at the end
    of the input, at an empty line or at the line EXIT, and nothing after
    such a line is read: the text written is the same whether the input ends
    after the lines or goes on with the stop line and any text. *)
Theorem main_runs_the_lines_up_to_the_stop (argv lines : list string)
    (stop rest : string) :
  length argv ≤ 1 → Forall command_line lines →
  stop = ""%string ∨ stop = "EXIT"%string →
  let run :=
    (process_lines traversal exp sort fixed2 show_int show_double stoi stod
       lines (initializeSampleData, ""%string)).2 in
  main traversal exp sort fixed2 show_int show_double stoi stod argv
    (session lines "") = run
  ∧ main traversal exp sort fixed2 show_int show_double stoi stod argv
      (session lines (stop +:+ Text.endl +:+ rest)) = run.
Proof.
  intros Hargv Hl Hstop run. unfold main. cbn zeta.
  replace (1 <? length argv) with false by (symmetry; apply Nat.ltb_ge; lia).
  split.
  - rewrite main_loop_session; [done|done|apply stops_at_end|].
    pose proof (session_length lines ""). lia.
  - rewrite main_loop_session; [done|done| |].
    + destruct Hstop as [->| ->]; [apply stops_at_empty_line | apply stops_at_EXIT].
    + pose proof (session_length lines (stop +:+ Text.endl +:+ rest)). lia.
Qed.

End Commands.

(** ** The further properties at concrete inputs *)

Section FurtherExamples.
Import MinHeapFacts MemoryGraphFacts.

(** [sort_sample] sorts as [std::sort] is assumed to. *)
Lemma sort_sample_perm (l : list (string * float)) : sort_sample l ≡ₚ l.
Proof. apply merge_sort_Permutation. Qed.

Lemma sort_sample_sorted (l : list (string * float)) :
  Forall (λ item, Double.not_nan item.2) l →
  Sorted (λ a b, Double.lt b.2 a.2 = false) (sort_sample l).
Proof.
  intros _. apply Sorted_merge_sort. intros a b.
  destruct (Double.lt b.2 a.2) eqn:Hlt; [right|by left].
  by apply double_le_not_lt, double_lt_le.
Qed.

(** The sample data are a run of admissible operations. *)
Lemma sample_ops_admissible :
  MemoryGraph.admissible_run MemoryGraph.key_order exp_sample
    (MemoryGraph.new 0.15) sample_ops.
Proof. vm_compute. by repeat split. Qed.

(** X3 at a concrete input: [extractMin] on [small_heap]. *)
Lemma extractMin_returns_a_least_entry_witness :
  ∃ root, root ∈ small_heap ∧ MinHeap.concept_id root = "linked_lists"%string ∧
    (∀ x, x ∈ small_heap →
       Double.le (MinHeap.memory_strength root) (MinHeap.memory_strength x) = true) ∧
    (∀ x, x ∈ (MinHeap.extractMin small_heap).1 →
       Double.le (MinHeap.memory_strength root) (MinHeap.memory_strength x) = true).
Proof.
  apply (extractMin_returns_a_least_entry small_heap).
  - exact small_heap_is_heap.
  - repeat constructor.
  - by vm_compute.
Defined.

(** X5 at a concrete input: no entry of [small_heap] is for "dp". *)
Lemma updateKey_unknown_id_changes_nothing_witness :
  MinHeap.updateKey small_heap "dp" 0.5 = small_heap.
Proof.
  apply updateKey_unknown_id_changes_nothing.
  apply (bool_decide_unpack _). by vm_compute.
Defined.

(** X6 at a concrete input: a heap with two entries for "arrays". *)
Lemma updateKey_changes_first_entry_only_witness :
  MinHeap.updateKey
    ([MinHeap.mkHeapNode "linked_lists" 0.28]
       ++ MinHeap.mkHeapNode "arrays" 0.45 :: sample_entries) "arrays" 0.1
  ≡ₚ [MinHeap.mkHeapNode "linked_lists" 0.28]
       ++ MinHeap.mkHeapNode "arrays" 0.1 :: sample_entries.
Proof.
  apply (updateKey_changes_first_entry_only
           [MinHeap.mkHeapNode "linked_lists" 0.28] sample_entries
           (MinHeap.mkHeapNode "arrays" 0.45) 0.1).
  by repeat constructor.
Defined.

(** X8 at a concrete input: the queue rebuilt from three items. *)
Lemma rebuild_then_peekMin_finds_a_least_item_witness :
  ∃ item,
    item ∈ [("sorting"%string, 0.62%float); ("dp"%string, 0.9%float);
            ("arrays"%string, 0.45%float)] ∧
    MinHeap.peekMin
      (MinHeap.rebuild small_heap
         [("sorting"%string, 0.62%float); ("dp"%string, 0.9%float);
          ("arrays"%string, 0.45%float)]) = Returned item.1 ∧
    ∀ other,
      other ∈ [("sorting"%string, 0.62%float); ("dp"%string, 0.9%float);
               ("arrays"%string, 0.45%float)] →
      Double.le item.2 other.2 = true.
Proof.
  apply rebuild_then_peekMin_finds_a_least_item; [done|by repeat constructor].
Defined.

(** X9 at a concrete input: one iteration from index 2. *)
Lemma heapifyUp_makes_logarithmically_many_steps_witness :
  MinHeap.heapifyUp_loop 1 small_heap 2 = MinHeap.heapifyUp small_heap 2.
Proof. apply heapifyUp_makes_logarithmically_many_steps. cbn. lia. Defined.

(** X10 at a concrete input: two calls from the root of three entries. *)
Lemma heapifyDown_makes_logarithmically_many_calls_witness :
  MinHeap.heapifyDown_rec 2 small_heap 0 = MinHeap.heapifyDown small_heap 0.
Proof. apply heapifyDown_makes_logarithmically_many_calls. cbn. lia. Defined.

(** X12 at a concrete input: "arrays" of the sample data is revised. *)
Lemma reviseConcept_revises_the_target_witness :
  MemoryGraph.getConcept
    (MemoryGraph.reviseConcept MemoryGraph.key_order initializeSampleData "arrays" 0.4).1
    "arrays"
  = Some (if bool_decide ("arrays"%string ∈ Concept.prerequisites sample_arrays)
          then Concept.boostConnected (Concept.revise sample_arrays 0 0.4)
          else Concept.revise sample_arrays 0 0.4).
Proof.
  destruct (reviseConcept_revises_the_target MemoryGraph.key_order key_order_keys
              initializeSampleData "arrays" 0.4 sample_arrays) as (_ & H & _).
  - by vm_compute.
  - reflexivity.
  - exact H.
Defined.

(** X13 at a concrete input. *)
Lemma reviseConcept_adds_and_removes_nothing_witness :
  MinHeap.concept_id
    <$> MemoryGraph.priority_queue
          (MemoryGraph.reviseConcept MemoryGraph.key_order initializeSampleData
             "arrays" 0.4).1
  ≡ₚ MinHeap.concept_id <$> MemoryGraph.priority_queue initializeSampleData.
Proof.
  destruct (reviseConcept_adds_and_removes_nothing MemoryGraph.key_order key_order_keys
              initializeSampleData "arrays" 0.4) as (_ & H & _).
  exact H.
Defined.

(** X14 at a concrete input: the sample data with "linked_lists" learned
    twice, where the queue has nine entries for eight concepts. *)
Lemma updateMemoryStrengths_puts_the_queue_in_step_witness :
  MinHeap.size
    (MemoryGraph.priority_queue
       (MemoryGraph.updateMemoryStrengths MemoryGraph.key_order exp_sample relearned))
  = MemoryGraph.getTotalConcepts
      (MemoryGraph.updateMemoryStrengths MemoryGraph.key_order exp_sample relearned).
Proof.
  destruct (updateMemoryStrengths_puts_the_queue_in_step MemoryGraph.key_order
              key_order_keys exp_sample relearned) as (_ & H & _).
  exact H.
Defined.

(** X15 at a concrete input. *)
Lemma updateMemoryStrengths_is_idempotent_witness :
  MemoryGraph.updateMemoryStrengths MemoryGraph.key_order exp_sample
    (MemoryGraph.updateMemoryStrengths MemoryGraph.key_order exp_sample sample_day10)
  = MemoryGraph.updateMemoryStrengths MemoryGraph.key_order exp_sample sample_day10.
Proof.
  exact (updateMemoryStrengths_is_idempotent MemoryGraph.key_order key_order_keys
           exp_sample sample_day10).
Defined.

(** X16 at a concrete input: three days and then four. *)
Lemma simulateTimePassage_adds_up_witness :
  MemoryGraph.simulateTimePassage MemoryGraph.key_order exp_sample
    (MemoryGraph.simulateTimePassage MemoryGraph.key_order exp_sample
       initializeSampleData 3) 4
  = MemoryGraph.simulateTimePassage MemoryGraph.key_order exp_sample
      initializeSampleData (Int32.add 3 4).
Proof.
  exact (simulateTimePassage_adds_up MemoryGraph.key_order key_order_keys exp_sample
           initializeSampleData 3 4).
Defined.

(** X17 at a concrete input: the run that builds the sample data. *)
Lemma admissible_runs_keep_the_queue_in_step_witness :
  MinHeap.is_heap
    (MemoryGraph.priority_queue
       (MemoryGraph.run MemoryGraph.key_order exp_sample 0.15 sample_ops)).
Proof.
  destruct (admissible_runs_keep_the_queue_in_step MemoryGraph.key_order
              key_order_keys exp_sample 0.15 sample_ops sample_ops_admissible)
    as (_ & H & _).
  exact H.
Defined.

(** X18 at a concrete input: on the sample data "linked_lists" is
    recommended and is a weakest concept. *)
Lemma recommendation_is_weakest_on_admissible_runs_witness :
  ∃ c0,
    MemoryGraph.concepts
      (MemoryGraph.run MemoryGraph.key_order exp_sample 0.15 sample_ops)
      !! "linked_lists"%string = Some c0 ∧
    ∀ k c,
      MemoryGraph.concepts
        (MemoryGraph.run MemoryGraph.key_order exp_sample 0.15 sample_ops) !! k
      = Some c →
      Double.le (Concept.memory_strength c0) (Concept.memory_strength c) = true.
Proof.
  apply (recommendation_is_weakest_on_admissible_runs MemoryGraph.key_order
           key_order_keys exp_sample 0.15 sample_ops "linked_lists"
           sample_ops_admissible).
  - assert (MemoryGraph.concepts
              (MemoryGraph.run MemoryGraph.key_order exp_sample 0.15 sample_ops)
              !! "arrays"%string = Some sample_arrays) as Hx by (by vm_compute).
    intros He. rewrite He in Hx. done.
  - by vm_compute.
Defined.

(** X19 at a concrete input: the sample data with "linked_lists" learned
    twice. *)
Lemma reachable_states_are_consistent_witness :
  MemoryGraph.getTotalConcepts relearned
  ≤ MinHeap.size (MemoryGraph.priority_queue relearned).
Proof.
  destruct (reachable_states_are_consistent MemoryGraph.key_order key_order_keys
              exp_sample relearned relearned_reachable) as (_ & _ & H).
  exact H.
Defined.

(** X20 at a concrete input. *)
Lemma recommendation_names_a_stored_concept_witness :
  ∃ id, MemoryGraph.getNextRevisionRecommendation relearned = Returned id ∧
    if decide (MemoryGraph.concepts relearned = ∅) then id = ""%string
    else is_Some (MemoryGraph.concepts relearned !! id).
Proof.
  exact (recommendation_names_a_stored_concept MemoryGraph.key_order key_order_keys
           exp_sample relearned relearned_reachable).
Defined.

(** The strengths of the sample data are numbers, and there are fewer than
    2^31 concepts. *)
Lemma sample_no_nan :
  map_Forall (λ _ c, Double.not_nan (Concept.memory_strength c))
    (MemoryGraph.concepts initializeSampleData).
Proof. apply (bool_decide_unpack _). by vm_compute. Qed.

Lemma sample_size : (Z.of_nat (size (MemoryGraph.concepts initializeSampleData)) < 2 ^ 31)%Z.
Proof. by vm_compute. Qed.

(** X21 at a concrete input: the three weakest concepts of the sample
    data. *)
Lemma getTopRevisionRecommendations_lists_the_weakest_witness :
  NoDup
    (MemoryGraph.getTopRevisionRecommendations MemoryGraph.key_order sort_sample
       initializeSampleData 3).
Proof.
  destruct (getTopRevisionRecommendations_lists_the_weakest MemoryGraph.key_order
              key_order_keys sort_sample sort_sample_perm sort_sample_sorted
              initializeSampleData 3 sample_size sample_no_nan) as (_ & H & _).
  exact H.
Defined.

(** X22 at a concrete input. *)
Lemma getUrgentCount_counts_the_weak_concepts_witness :
  (0 ≤ MemoryGraph.getUrgentCount MemoryGraph.key_order initializeSampleData
     ≤ Z.of_nat (MemoryGraph.getTotalConcepts initializeSampleData))%Z.
Proof.
  destruct (getUrgentCount_counts_the_weak_concepts MemoryGraph.key_order
              key_order_keys initializeSampleData sample_size) as [_ H].
  exact H.
Defined.

(** X23 at a concrete input. *)
Lemma toJSON_is_a_comma_separated_array_witness :
  MemoryGraph.getAllConcepts MemoryGraph.key_order initializeSampleData
  ≡ₚ (map_to_list (MemoryGraph.concepts initializeSampleData)).*2
  ∧ MemoryGraph.toJSON MemoryGraph.key_order show_double_sample show_int_sample
      initializeSampleData
    = "[" +:+ String.concat ","
                (Concept.toJSON show_double_sample show_int_sample
                   <$> MemoryGraph.getAllConcepts MemoryGraph.key_order
                         initializeSampleData)
      +:+ "]".
Proof.
  exact (toJSON_is_a_comma_separated_array MemoryGraph.key_order key_order_keys
           show_double_sample show_int_sample initializeSampleData).
Defined.

(** X24 at a concrete input. *)
Lemma getRevisionQueueJSON_is_a_comma_separated_array_witness :
  length
    (omap (MemoryGraph.getConcept initializeSampleData)
       (MemoryGraph.getTopRevisionRecommendations MemoryGraph.key_order sort_sample
          initializeSampleData 10))
  = length
      (MemoryGraph.getTopRevisionRecommendations MemoryGraph.key_order sort_sample
         initializeSampleData 10).
Proof.
  destruct (getRevisionQueueJSON_is_a_comma_separated_array MemoryGraph.key_order
              key_order_keys sort_sample sort_sample_perm show_double_sample
              show_int_sample initializeSampleData 10) as [_ H].
  exact H.
Defined.

(** X25 at a concrete input: a concept with two prerequisites. *)
Lemma ADD_CONCEPT_reads_its_fields_witness :
  processCommand MemoryGraph.key_order exp_sample sort_sample show_double_sample
    show_int_sample show_double_sample stoi_sample stod_sample
    initializeSampleData "ADD_CONCEPT"
    ("Heaps" +:+ "|" +:+ "heaps" +:+ "|" +:+ "Data Structures" +:+ "|"
       +:+ String.concat "," ["arrays"%string; "trees"%string])
  = (MemoryGraph.insertConcept initializeSampleData "Heaps" "heaps" "Data Structures"
       1.0 ["arrays"%string; "trees"%string],
     status_line "success" "message" (Text.quoted "Concept added") +:+ Text.endl).
Proof.
  apply ADD_CONCEPT_reads_its_fields; [reflexivity..|].
  by repeat constructor.
Defined.

(** X26 at a concrete input. *)
Lemma ADD_CONCEPT_accepts_a_bare_name_witness :
  processCommand MemoryGraph.key_order exp_sample sort_sample show_double_sample
    show_int_sample show_double_sample stoi_sample stod_sample
    initializeSampleData "ADD_CONCEPT" "Heaps"
  = (MemoryGraph.insertConcept initializeSampleData "Heaps" "" "" 1.0 [],
     status_line "success" "message" (Text.quoted "Concept added") +:+ Text.endl).
Proof. apply ADD_CONCEPT_accepts_a_bare_name. reflexivity. Defined.

(** X27 at a concrete input: the revision of a concept that does not
    exist. *)
Lemma processCommand_answers_error_without_change_witness :
  (processCommand MemoryGraph.key_order exp_sample sort_sample show_double_sample
     show_int_sample show_double_sample stoi_sample stod_sample
     initializeSampleData "REVISE_CONCEPT" "heaps").1
  = initializeSampleData.
Proof.
  apply processCommand_answers_error_without_change. by vm_compute.
Defined.

(** X29 at a concrete input. *)
Lemma split_line_separates_at_the_first_space_witness :
  split_line ("REVISE_CONCEPT" +:+ " " +:+ "arrays") = ("REVISE_CONCEPT"%string, "arrays"%string)
  ∧ split_line "REVISE_CONCEPT" = ("REVISE_CONCEPT"%string, ""%string).
Proof. apply split_line_separates_at_the_first_space. reflexivity. Defined.

(** X30 at a concrete input: three commands, then EXIT and a further
    line. *)
Lemma main_runs_the_lines_up_to_the_stop_witness :
  main MemoryGraph.key_order exp_sample sort_sample show_double_sample
    show_int_sample show_double_sample stoi_sample stod_sample
    ["memory_system"%string] (session sample_session "")
  = (process_lines MemoryGraph.key_order exp_sample sort_sample show_double_sample
       show_int_sample show_double_sample stoi_sample stod_sample
       sample_session (initializeSampleData, ""%string)).2
  ∧ main MemoryGraph.key_order exp_sample sort_sample show_double_sample
      show_int_sample show_double_sample stoi_sample stod_sample
      ["memory_system"%string]
      (session sample_session ("EXIT" +:+ Text.endl +:+ "GET_STATS"))
    = (process_lines MemoryGraph.key_order exp_sample sort_sample show_double_sample
         show_int_sample show_double_sample stoi_sample stod_sample
         sample_session (initializeSampleData, ""%string)).2.
Proof.
  apply (main_runs_the_lines_up_to_the_stop MemoryGraph.key_order exp_sample
           sort_sample show_double_sample show_int_sample show_double_sample
           stoi_sample stod_sample ["memory_system"%string] sample_session
           "EXIT" "GET_STATS").
  - cbn. lia.
  - by repeat constructor.
  - by right.
Defined.

End FurtherExamples.
